(** * go-pathlib: the path parser, the pure path algebra and the I/O helpers

  A shallow embedding of [pkg/pathlib/flavor.go], [pkg/pathlib/pure_path.go]
  and the resolver, listing and latest-entry parts of [pkg/pathlib/path.go].

  Conventions.
  - A Go [string] is a byte sequence: Rocq's [string], one [ascii] per byte.
    In Rocq string literals the backslash is an ordinary character, so the
    Go literal ["\\"] is written ["\"] here.
  - A Go [int] is a [Z]; only lengths and indices occur, far from the
    64-bit bounds, so no wrap-around is written out.
  - A [rune] is a [Z]; [[]rune(s)] and [string(runes)] are the UTF-8
    decoder and encoder of the Go runtime, modelled in [Utf8].
  - A [[]string] that is only read is a [list string]; where the source
    writes through a slice that shares its backing array with the
    receiver (CasefoldParts), the slice is a window into a store of
    arrays, modelled in [Mem]. *)

From Stdlib Require Import ZArith Lia Bool Ascii.
From stdpp Require Import base list strings.

Local Open Scope Z_scope.

(** ** Go's [strings] package, the part the sources call *)

Module Strings.

Definition len (s : string) : Z := Z.of_nat (String.length s).

(** [s[n:]] *)
Fixpoint str_drop (n : nat) (s : string) : string :=
  match n, s with
  | O, _ => s
  | S n', String _ s' => str_drop n' s'
  | S _, EmptyString => EmptyString
  end.

(** [s[:n]] *)
Fixpoint str_take (n : nat) (s : string) : string :=
  match n, s with
  | O, _ => EmptyString
  | S n', String c s' => String c (str_take n' s')
  | S _, EmptyString => EmptyString
  end.

(** [s[i:]] and [s[:i]] for an [int] index; every use in the sources is
    within bounds, where Go does not panic. *)
Definition from (s : string) (i : Z) : string := str_drop (Z.to_nat i) s.
Definition upto (s : string) (i : Z) : string := str_take (Z.to_nat i) s.

Definition HasPrefix (s pre : string) : bool := String.prefix pre s.

(** [strings.Index]: byte index of the first occurrence, or [-1]. *)
Fixpoint Index (s substr : string) : Z :=
  if String.prefix substr s then 0
  else match s with
       | EmptyString => -1
       | String _ s' =>
           let i := Index s' substr in
           if i <? 0 then -1 else i + 1
       end.

(** [strings.LastIndex]: byte index of the last occurrence, or [-1]. *)
Fixpoint LastIndex (s substr : string) : Z :=
  match s with
  | EmptyString => if String.prefix substr s then 0 else -1
  | String _ s' =>
      let i := LastIndex s' substr in
      if 0 <=? i then i + 1
      else if String.prefix substr s then 0 else -1
  end.

(** [strings.TrimLeft(s, cutset)] for a cutset of ASCII bytes. *)
Fixpoint in_cutset (c : ascii) (cutset : string) : bool :=
  match cutset with
  | EmptyString => false
  | String d cutset' => Ascii.eqb c d || in_cutset c cutset'
  end.

Fixpoint TrimLeft (s cutset : string) : string :=
  match s with
  | EmptyString => EmptyString
  | String c s' => if in_cutset c cutset then TrimLeft s' cutset else s
  end.

(** [strings.Replace(s, old, new, -1)] for a non-empty [old]: the
    non-overlapping occurrences, left to right.  Each round consumes at
    least one byte, so [S (length s)] rounds are enough. *)
Fixpoint replace_loop (fuel : nat) (s old new : string) : string :=
  match fuel with
  | O => s
  | S fuel' =>
      let i := Index s old in
      if i <? 0 then s
      else upto s i +:+ new +:+
           replace_loop fuel' (from s (i + len old)) old new
  end.

Definition ReplaceAll (s old new : string) : string :=
  replace_loop (S (String.length s)) s old new.

(** [strings.Join] *)
Fixpoint Join (elems : list string) (sep : string) : string :=
  match elems with
  | [] => EmptyString
  | [e] => e
  | e :: (_ :: _) as rest => e +:+ sep +:+ Join rest sep
  end.

(** [strings.ToLower].  Go lowers an all-ASCII string byte by byte (its
    fast path) and sends every other string through the Unicode tables
    ([strings.Map(unicode.ToLower, s)]), which are a parameter here. *)
Definition is_ascii_byte (c : ascii) : bool := (Z.of_N (N_of_ascii c) <? 128).

Fixpoint isASCII (s : string) : bool :=
  match s with
  | EmptyString => true
  | String c s' => is_ascii_byte c && isASCII s'
  end.

Definition lower_byte (c : ascii) : ascii :=
  let n := Z.of_N (N_of_ascii c) in
  if (65 <=? n) && (n <=? 90) then ascii_of_N (Z.to_N (n + 32)) else c.

Fixpoint map_bytes (f : ascii -> ascii) (s : string) : string :=
  match s with
  | EmptyString => EmptyString
  | String c s' => String (f c) (map_bytes f s')
  end.

Definition ToLower (unicodeLower : string -> string) (s : string) : string :=
  if isASCII s then map_bytes lower_byte s else unicodeLower s.



(** [strings.Contains] *)
Definition Contains (s substr : string) : bool := Index s substr >=? 0.



End Strings.

(** ** UTF-8: [[]rune(s)] and [string(runes)] *)

Module Utf8.

Definition rune := Z.
Definition RuneError : rune := 65533. (* U+FFFD *)

Definition byte_val (c : ascii) : Z := Z.of_N (N_of_ascii c).
Definition byte_of (z : Z) : ascii := ascii_of_N (Z.to_N z).

Definition in_range (lo hi b : Z) : bool := (lo <=? b) && (b <=? hi).
Definition cont (b : Z) : bool := in_range 128 191 b.   (* 0x80..0xBF *)

(** Accept range of the second byte, from the first (Go's [first] and
    [acceptRanges] tables); [None] for a byte that cannot start a
    multi-byte sequence. The first component is the sequence length. *)
Definition lead (b0 : Z) : option (nat * (Z * Z)) :=
  if in_range 194 223 b0 then Some (2%nat, (128, 191))          (* C2..DF *)
  else if b0 =? 224 then Some (3%nat, (160, 191))                (* E0 *)
  else if in_range 225 236 b0 then Some (3%nat, (128, 191))      (* E1..EC *)
  else if b0 =? 237 then Some (3%nat, (128, 159))                (* ED *)
  else if in_range 238 239 b0 then Some (3%nat, (128, 191))      (* EE..EF *)
  else if b0 =? 240 then Some (4%nat, (144, 191))                (* F0 *)
  else if in_range 241 243 b0 then Some (4%nat, (128, 191))      (* F1..F3 *)
  else if b0 =? 244 then Some (4%nat, (128, 143))                (* F4 *)
  else None.

(** [[]rune(s)]: an invalid or truncated sequence yields [RuneError] and
    consumes one byte. *)
Fixpoint decode (s : string) : list rune :=
  match s with
  | EmptyString => []
  | String c0 s1 =>
      let b0 := byte_val c0 in
      if b0 <? 128 then b0 :: decode s1
      else
        match lead b0, s1 with
        | Some (2%nat, (lo, hi)), String c1 s2 =>
            let b1 := byte_val c1 in
            if in_range lo hi b1
            then (b0 mod 32 * 64 + b1 mod 64) :: decode s2
            else RuneError :: decode s1
        | Some (3%nat, (lo, hi)), String c1 (String c2 s3) =>
            let b1 := byte_val c1 in
            let b2 := byte_val c2 in
            if in_range lo hi b1 && cont b2
            then (b0 mod 16 * 4096 + b1 mod 64 * 64 + b2 mod 64) :: decode s3
            else RuneError :: decode s1
        | Some (4%nat, (lo, hi)), String c1 (String c2 (String c3 s4)) =>
            let b1 := byte_val c1 in
            let b2 := byte_val c2 in
            let b3 := byte_val c3 in
            if in_range lo hi b1 && cont b2 && cont b3
            then (b0 mod 8 * 262144 + b1 mod 64 * 4096
                  + b2 mod 64 * 64 + b3 mod 64) :: decode s4
            else RuneError :: decode s1
        | _, _ => RuneError :: decode s1
        end
  end.

(** [utf8.AppendRune]: a surrogate or out-of-range rune is written as
    U+FFFD. *)
Definition encode_rune (r : rune) : string :=
  if (0 <=? r) && (r <? 128) then String (byte_of r) EmptyString
  else if (128 <=? r) && (r <? 2048) then
    String (byte_of (192 + r / 64)) (String (byte_of (128 + r mod 64)) EmptyString)
  else if ((2048 <=? r) && (r <? 55296)) || ((57344 <=? r) && (r <? 65536)) then
    String (byte_of (224 + r / 4096))
      (String (byte_of (128 + r / 64 mod 64))
         (String (byte_of (128 + r mod 64)) EmptyString))
  else if (65536 <=? r) && (r <=? 1114111) then
    String (byte_of (240 + r / 262144))
      (String (byte_of (128 + r / 4096 mod 64))
         (String (byte_of (128 + r / 64 mod 64))
            (String (byte_of (128 + r mod 64)) EmptyString)))
  else String (byte_of 239) (String (byte_of 191) (String (byte_of 189) EmptyString)).

(** [string(runes)] *)
Fixpoint encode (rs : list rune) : string :=
  match rs with
  | [] => EmptyString
  | r :: rs' => encode_rune r +:+ encode rs'
  end.

End Utf8.

(** ** flavor.go *)

Module Flavor.
Import Strings Utf8.

(** The two implementers of the [flavorer] interface; both are structs
    without fields. *)
Inductive flavorer : Set := posixFlavor | windowsFlavor.

Definition windowsSeparator : string := "\".
Definition windowsAltSeparator : string := "/".
Definition windowsDriveLetters : string :=
  "abcdefghijklmnopqrstuvwxyzABCDEFGHIJKLMNOPQRSTUVWXYZ".

Definition Separator (fl : flavorer) : string :=
  match fl with
  | posixFlavor => "/"
  | windowsFlavor => windowsSeparator
  end.

Definition AltSeparator (fl : flavorer) : string :=
  match fl with
  | posixFlavor => ""
  | windowsFlavor => windowsAltSeparator
  end.

Definition HasDrive (fl : flavorer) : bool :=
  match fl with
  | posixFlavor => false
  | windowsFlavor => true
  end.

(** [posixFlavor.SplitRoot] *)
Definition posixFlavor_SplitRoot (path : string) : string * string * string :=
  if (0 <? len path) && String.eqb (upto path 1) "/" then
    let stripped := TrimLeft path "/" in
    if len path - len stripped =? 2 then ("", "//", stripped)
    else ("", "/", stripped)
  else ("", "", path).

(** The search loop of [runesIndexOffset]: the first position of [r], or
    [-1]. *)
Fixpoint rune_scan (runes : list rune) (r : rune) : Z :=
  match runes with
  | [] => -1
  | x :: runes' =>
      if x =? r then 0
      else let i := rune_scan runes' r in
           if i <? 0 then -1 else i + 1
  end.

(** [runesIndexOffset]: the sum [idx + offset] is returned also when the
    loop left [idx] at [-1]. *)
Definition runesIndexOffset (runes : list rune) (r : rune) (offset : Z) : Z :=
  if offset >=? Z.of_nat (length runes) - 1 then -1
  else
    let runes := drop (Z.to_nat offset) runes in
    let idx := rune_scan runes r in
    idx + offset.

(** [runes[lo:hi]], [runes[lo:]] and [runes[i]] guarded by its length
    test, as [SplitRoot] uses them. *)
Definition rslice (runes : list rune) (lo hi : Z) : list rune :=
  take (Z.to_nat hi - Z.to_nat lo) (drop (Z.to_nat lo) runes).
Definition rfrom (runes : list rune) (lo : Z) : list rune :=
  drop (Z.to_nat lo) runes.
Definition rune_at (runes : list rune) (i : nat) : rune :=
  if Z.of_nat (length runes) >? Z.of_nat i then nth i runes RuneError
  else RuneError.

(** [strings.IndexRune(s, r) != -1] *)
Definition has_rune (s : string) (r : rune) : bool :=
  negb (rune_scan (decode s) r =? -1).

(** The "trim left" loop at the end of [windowsFlavor.SplitRoot]. *)
Fixpoint trim_runes (runes : list rune) (sep : rune) : list rune :=
  match runes with
  | [] => []
  | x :: runes' => if x =? sep then trim_runes runes' sep else runes
  end.

Definition sep_rune : rune := 92.    (* '\\' *)
Definition colon_rune : rune := 58.  (* ':' *)

(** The UNC branch of [windowsFlavor.SplitRoot]; [None] when control
    falls through to the drive-letter code below it. *)
Definition unc_branch (prefix : string) (runes : list rune)
    (first second third : rune) : option (string * string * string) :=
  if (second =? sep_rune) && (first =? sep_rune) && negb (third =? sep_rune) then
    let index := runesIndexOffset runes sep_rune 2 in
    if negb (index =? -1) then
      let index2 := runesIndexOffset runes sep_rune (index + 1) in
      if negb (index2 =? index + 1) then
        let index2 := if index2 =? -1 then Z.of_nat (length runes) else index2 in
        let p := if index2 + 1 <=? Z.of_nat (length runes)
                 then encode (rfrom runes (index2 + 1)) else "" in
        if negb (String.eqb prefix "") then
          Some (prefix +:+ encode (rslice runes 1 index2), encode [sep_rune], p)
        else
          Some (encode (rslice runes 0 index2), encode [sep_rune], p)
      else None
    else None
  else None.

(** [windowsFlavor.SplitRoot] *)
Definition windowsFlavor_SplitRoot (path : string) : string * string * string :=
  (* check for extended-length path *)
  let '(prefix, path) :=
    if HasPrefix path "\\?\" then
      if HasPrefix (from path 4) "UNC\" then (upto path 7, "\" +:+ from path 7)
      else (upto path 4, from path 4)
    else ("", path) in
  let runes := decode path in
  let first := rune_at runes 0 in
  let second := rune_at runes 1 in
  let third := rune_at runes 2 in
  match unc_branch prefix runes first second third with
  | Some res => res
  | None =>
      let '(drv, runes, first) :=
        if (second =? colon_rune) && has_rune windowsDriveLetters first
        then (encode (rslice runes 0 2), rfrom runes 2, third)
        else ("", runes, first) in
      let '(root, runes) :=
        if first =? sep_rune
        then (encode [first], trim_runes runes sep_rune)
        else ("", runes) in
      (prefix +:+ drv, root, encode runes)
  end.

Definition SplitRoot (fl : flavorer) (path : string) : string * string * string :=
  match fl with
  | posixFlavor => posixFlavor_SplitRoot path
  | windowsFlavor => windowsFlavor_SplitRoot path
  end.

Section Casefold.
(** [strings.Map(unicode.ToLower, s)], Go's table-driven lowering of a
    string that is not all ASCII. *)
Variable unicodeLower : string -> string.

Definition Casefold (fl : flavorer) (s : string) : string :=
  match fl with
  | posixFlavor => s
  | windowsFlavor => ToLower unicodeLower s
  end.
End Casefold.

End Flavor.

(** ** pure_path.go: the parser and the read-only accessors *)

Module PurePath.
Import Strings Utf8 Flavor.

(** A [PurePath] value as an observer reads it: the contents of its
    [parts] slice, its drive, its root and its flavor. *)
Record PurePath : Set := mkPurePath {
  parts : list string;
  drive : string;
  root : string;
  flavor : flavorer
}.

Definition nonempty (s : string) : bool := negb (String.eqb s "").

(** [pp != "" && pp != "."] *)
Definition keep_part (pp : string) : bool :=
  negb (String.eqb pp "") && negb (String.eqb pp ".").

(** The inner [for] loop of [parseParts], one round per [fuel]; a round
    that does not [break] shortens [prel] by at least one byte. *)
Fixpoint scan_rel (fuel : nat) (sep prel : string) (parts : list string)
    : list string :=
  match fuel with
  | O => parts
  | S fuel' =>
      let i := Index prel sep in
      if i >=? 0 then
        let pp := upto prel i in
        let parts := if keep_part pp then parts ++ [pp] else parts in
        if i >=? len prel - 1 then parts
        else scan_rel fuel' sep (from prel (i + 1)) parts
      else
        if keep_part prel then parts ++ [prel] else parts
  end.

(** The body of the outer loop of [parseParts] for one input string. *)
Definition parse_one (fl : flavorer) (st : string * string * list string)
    (part : string) : string * string * list string :=
  let '(drive, root, parts) := st in
  if String.eqb part "" then st
  else
    let part :=
      if nonempty (AltSeparator fl)
      then ReplaceAll part (AltSeparator fl) (Separator fl)
      else part in
    let '(pdrive, proot, prel) := SplitRoot fl part in
    let '(drive, root, parts) :=
      if nonempty pdrive then (pdrive, proot, [pdrive +:+ proot])
      else if nonempty proot then (drive, proot, [drive +:+ proot])
      else (drive, root, parts) in
    (drive, root, scan_rel (S (String.length prel)) (Separator fl) prel parts).

(** [parseParts] *)
Definition parseParts (paths : list string) (fl : flavorer)
    : string * string * list string :=
  fold_left (parse_one fl) paths ("", "", []).

(** [newPurePathWithFlavor] *)
Definition newPurePathWithFlavor (fl : flavorer) (paths : list string) : PurePath :=
  let '(drive, root, parts) := parseParts paths fl in
  {| parts := parts; drive := drive; root := root; flavor := fl |}.

(** [newPurePathFromParts] *)
Definition newPurePathFromParts (fl : flavorer) (drive root : string)
    (parts : list string) : PurePath :=
  {| parts := parts; drive := drive; root := root; flavor := fl |}.

(** [PurePath.Name] *)
Definition PurePath_Name (p : PurePath) : string :=
  if (length (parts p) =? 0)%nat
     || ((nonempty (drive p) || nonempty (root p)) && (length (parts p) =? 1)%nat)
  then ""
  else default "" (last (parts p)).

(** [PurePath.Suffix] *)
Definition PurePath_Suffix (p : PurePath) : string :=
  let name := PurePath_Name p in
  let i := LastIndex name "." in
  if (0 <? i) && (i <? len name - 1) then from name i else "".

(** [PurePath.Stem] *)
Definition PurePath_Stem (p : PurePath) : string :=
  let name := PurePath_Name p in
  let i := LastIndex name "." in
  if (0 <? i) && (i <? len name - 1) then upto name i else name.

(** [PurePath.String]; [p.parts[1:]] is [tail], which differs from Go
    (a panic) only for an anchored path without parts, which no
    constructor of the package builds. *)
Definition PurePath_String (p : PurePath) : string :=
  if nonempty (drive p) || nonempty (root p) then
    drive p +:+ root p +:+ Join (tail (parts p)) (Separator (flavor p))
  else if (length (parts p) =? 0)%nat then "."
  else Join (parts p) (Separator (flavor p)).

(** [PurePath.IsAbsolute] *)
Definition PurePath_IsAbsolute (p : PurePath) : bool :=
  if String.eqb (root p) "" then false
  else negb (HasDrive (flavor p)) || nonempty (drive p).

(** [PurePath.Join] *)
Definition PurePath_Join (p : PurePath) (paths : list string) : PurePath :=
  newPurePathWithFlavor (flavor p) (PurePath_String p :: paths).

(** [PurePath.JoinPath] *)
Definition PurePath_JoinPath (p : PurePath) (paths : list PurePath) : PurePath :=
  PurePath_Join p (map PurePath_String paths).

(** [PurePath.Parent]; [parts[:len(parts)-1]] is [removelast]. *)
Definition PurePath_Parent (p : PurePath) : PurePath :=
  if (length (parts p) =? 0)%nat then
    {| parts := []; drive := ""; root := ""; flavor := flavor p |}
  else if (length (parts p) =? 1)%nat && (nonempty (drive p) || nonempty (root p))
  then p
  else newPurePathFromParts (flavor p) (drive p) (root p) (removelast (parts p)).

(** [PurePath.Anchor] *)
Definition PurePath_Anchor (p : PurePath) : string := drive p +:+ root p.

(** [PurePath.AsPosix] *)
Definition PurePath_AsPosix (p : PurePath) : string :=
  ReplaceAll (PurePath_String p) (Separator (flavor p)) "/".

(** [PurePath.Equals] *)
Definition PurePath_Equals (p other : PurePath) : bool :=
  String.eqb (PurePath_String p) (PurePath_String other).


(** [PurePath.Parents]: the loop runs [i] from [len(parts)-1] down to
    [len(parts)-numParents].  An anchored value without parts makes
    [numParents] negative and [make] panic ([None]); no constructor of the
    package builds one. *)
Definition PurePath_Parents (p : PurePath) : option (list PurePath) :=
  let n := length (parts p) in
  let anchored := nonempty (drive p) || nonempty (root p) in
  if anchored && (n =? 0)%nat then None
  else
    let numParents := if anchored then (n - 1)%nat else n in
    Some (map (fun i => newPurePathFromParts (flavor p) (drive p) (root p)
                          (take i (parts p)))
              (rev (seq (n - numParents) numParents))).

End PurePath.

(** ** Slices over shared backing arrays *)

Module Mem.
Import Strings Utf8 Flavor PurePath.

(** The store holds the backing arrays of [[]string] slices; an array is
    named by its position in the store. *)
Abbreviation store := (list (list string)).

(** A slice header: backing array, offset into it, length, capacity. *)
Record slice : Set := mkSlice {
  base : nat;
  off : nat;
  slen : nat;
  scap : nat
}.

Definition array_of (m : store) (s : slice) : list string :=
  default [] (m !! base s).

(** The elements a reader of [s] sees. *)
Definition view (m : store) (s : slice) : list string :=
  take (slen s) (drop (off s) (array_of m s)).

(** [s[i]] and [s[i] = v] *)
Definition get (m : store) (s : slice) (i : nat) : string :=
  default "" (array_of m s !! (off s + i)%nat).
Definition set (m : store) (s : slice) (i : nat) (v : string) : store :=
  alter (fun a => <[(off s + i)%nat := v]> a) (base s) m.

(** [make([]string, 0, cap)] *)
Definition make0 (m : store) (cap : nat) : slice * store :=
  ({| base := length m; off := 0; slen := 0; scap := cap |},
   m ++ [replicate cap ""]).

(** A slice over a new array holding [elems]. *)
Definition alloc (m : store) (elems : list string) : slice * store :=
  ({| base := length m; off := 0; slen := length elems; scap := length elems |},
   m ++ [elems]).

(** [append(s, vs...)]: written into the backing array when the capacity
    suffices, into a new and larger array otherwise (Go leaves the new
    capacity to the implementation; twice the needed length here). *)
Definition write_at (m : store) (s : slice) (vs : list string) : store :=
  alter (fun a => take (off s + slen s) a ++ vs
                  ++ drop (off s + slen s + length vs) a) (base s) m.

Definition append (m : store) (s : slice) (vs : list string) : slice * store :=
  if (slen s + length vs <=? scap s)%nat then
    ({| base := base s; off := off s; slen := slen s + length vs; scap := scap s |},
     write_at m s vs)
  else
    let need := (slen s + length vs)%nat in
    ({| base := length m; off := 0; slen := need; scap := 2 * need |},
     m ++ [view m s ++ vs ++ replicate need ""]).

(** [s[lo:]] and [s[:hi]]; [None] is Go's run-time panic "slice bounds
    out of range". *)
Definition slice_from (s : slice) (lo : nat) : option slice :=
  if (lo <=? slen s)%nat then
    Some {| base := base s; off := off s + lo; slen := slen s - lo; scap := scap s - lo |}
  else None.
Definition slice_upto (s : slice) (hi : nat) : option slice :=
  if (hi <=? scap s)%nat then
    Some {| base := base s; off := off s; slen := hi; scap := scap s |}
  else None.

(** A [PurePath] value in memory: [parts] is a slice header, and copies of
    the value share its backing array. *)
Record PurePathM : Set := mkPurePathM {
  m_parts : slice;
  m_drive : string;
  m_root : string;
  m_flavor : flavorer
}.

(** What an observer reads from [p] in store [m]. *)
Definition read (m : store) (p : PurePathM) : PurePath :=
  {| parts := view m (m_parts p); drive := m_drive p; root := m_root p;
     flavor := m_flavor p |}.

(** [newPurePathWithFlavor]: [parseParts] builds its result in arrays it
    allocates itself ([make], and the growth of [append]), so the parts
    are a slice over an array no other slice refers to. *)
Definition newPurePathWithFlavorM (m : store) (fl : flavorer) (paths : list string)
    : PurePathM * store :=
  let '(drive, root, parts) := parseParts paths fl in
  let '(s, m) := alloc m parts in
  ({| m_parts := s; m_drive := drive; m_root := root; m_flavor := fl |}, m).

Inductive error : Set :=
| errNoOtherPath     (* "at least one other path must be provided" *)
| errNotRelative     (* "path is not relative" *)
| panicSliceBounds.  (* run-time panic: slice bounds out of range *)

Section WithLibrary.
(** [strings.Map(unicode.ToLower, s)] and [filepath.Match], from the Go
    standard library; [None] is [filepath.ErrBadPattern]. *)
Variable unicodeLower : string -> string.
Variable filepathMatch : string -> string -> option bool.

(** [windowsFlavor.CasefoldParts]: the loop assigns to [parts[i]]. *)
Definition windowsFlavor_CasefoldParts (m : store) (parts : slice) : slice * store :=
  (parts,
   foldl (fun m i => set m parts i (ToLower unicodeLower (get m parts i)))
         m (seq 0 (slen parts))).

(** [posixFlavor.CasefoldParts] *)
Definition posixFlavor_CasefoldParts (m : store) (parts : slice) : slice * store :=
  (parts, m).

Definition CasefoldParts (fl : flavorer) (m : store) (parts : slice) : slice * store :=
  match fl with
  | posixFlavor => posixFlavor_CasefoldParts m parts
  | windowsFlavor => windowsFlavor_CasefoldParts m parts
  end.

(** The comparison loop of [PurePath.Match], from the last pattern part
    downwards; [pats_rev] is [patParts] reversed. *)
Fixpoint match_loop (pats_rev : list string) (parts : list string) (parti : Z) : bool :=
  match pats_rev with
  | [] => true
  | pat :: pats_rev' =>
      let part := nth (Z.to_nat parti) parts "" in
      match filepathMatch pat part with
      | Some true => match_loop pats_rev' parts (parti - 1)
      | _ => false
      end
  end.

(** [PurePath.Match] *)
Definition PurePath_Match (m : store) (p : PurePathM) (pattern : string)
    : bool * store :=
  let cf := Casefold unicodeLower (m_flavor p) in
  let pattern := cf pattern in
  let '(patDrive, patRoot, patParts) := parseParts [pattern] (m_flavor p) in
  if (length patParts =? 0)%nat then (false, m)
  else if nonempty patDrive && negb (String.eqb patDrive (cf (m_drive p))) then (false, m)
  else if nonempty patRoot && negb (String.eqb patRoot (cf (m_root p))) then (false, m)
  else
    let '(parts, m) := CasefoldParts (m_flavor p) m (m_parts p) in
    let anchored := nonempty patDrive || nonempty patRoot in
    if anchored && negb (length patParts =? slen parts)%nat then (false, m)
    else if negb anchored && (slen parts <? length patParts)%nat then (false, m)
    else
      let patParts := if anchored then tail patParts else patParts in
      (match_loop (rev patParts) (view m parts) (Z.of_nat (slen parts) - 1), m).

(** The construction of [absParts] and of [toAbsParts] in
    [PurePath.RelativeTo]. *)
Definition abs_parts (m : store) (drive root : string) (parts : slice)
    : option (slice * store) :=
  if nonempty root then
    let '(a, m) := make0 m (slen parts + 1) in
    let '(a, m) := append m a [drive] in
    let '(a, m) := append m a [root] in
    match slice_from parts 1 with
    | Some rest => Some (append m a (view m rest))
    | None => None
    end
  else Some (parts, m).

(** The comparison loop of [casefoldComp]. *)
Fixpoint all_equal (m : store) (tp op : slice) (idx : list nat) : bool :=
  match idx with
  | [] => true
  | i :: idx' =>
      if String.eqb (get m tp i) (get m op i) then all_equal m tp op idx' else false
  end.

(** [casefoldComp] *)
Definition casefoldComp (fl : flavorer) (m : store) (tp op : slice) : bool * store :=
  if (slen tp <? slen op)%nat then (false, m)
  else
    match slice_upto tp (slen op) with
    | None => (false, m)
    | Some tp =>
        let l := slen tp in
        let '(tp, m) := CasefoldParts fl m tp in
        let '(op, m) := CasefoldParts fl m op in
        (all_equal m tp op (seq 0 l), m)
    end.

(** [PurePath.RelativeTo] *)
Definition PurePath_RelativeTo (m : store) (p : PurePathM) (others : list string)
    : (PurePathM + error) * store :=
  if (length others =? 0)%nat then (inr errNoOtherPath, m)
  else
    let drive := m_drive p in
    let root := m_root p in
    let parts := m_parts p in
    match abs_parts m drive root parts with
    | None => (inr panicSliceBounds, m)
    | Some (absParts, m) =>
        let '(toPath, m) := newPurePathWithFlavorM m (m_flavor p) others in
        match abs_parts m (m_drive toPath) (m_root toPath) (m_parts toPath) with
        | None => (inr panicSliceBounds, m)
        | Some (toAbsParts, m) =>
            let n := slen toAbsParts in
            let '(related, m) :=
              if (n =? 0)%nat
              then (negb (nonempty drive || nonempty root), m)
              else casefoldComp (m_flavor p) m absParts toAbsParts in
            if negb related then (inr errNotRelative, m)
            else
              let root := if negb (n =? 1)%nat then "" else root in
              match slice_from absParts n with
              | None => (inr panicSliceBounds, m)
              | Some rest =>
                  (inl {| m_parts := rest; m_drive := ""; m_root := root;
                          m_flavor := m_flavor p |}, m)
              end
        end
    end.

End WithLibrary.

(** [make([]string, n)] *)
Definition make_len (m : store) (n : nat) : slice * store :=
  ({| base := length m; off := 0; slen := n; scap := n |}, m ++ [replicate n ""]).

(** [copy(dst, src)]: the first [min(len(dst), len(src))] elements. *)
Definition copy (m : store) (dst src : slice) : store :=
  let k := (slen dst `min` slen src)%nat in
  alter (fun a => take (off dst) a ++ take k (view m src) ++ drop (off dst + k) a)
        (base dst) m.

Inductive name_error : Set :=
| errEmptyName       (* "path has an empty name" *)
| errInvalidName     (* "invalid name" *)
| errInvalidSuffix   (* "invalid suffix" *)
| panicNameBounds.   (* run-time panic: slice bounds out of range *)

(** The last statements of [PurePath.WithName] and of
    [PurePath.WithSuffix]: the parts are copied into a new array, and the
    copy without its last element gets [name] appended. *)
Definition copy_with_last (m : store) (p : PurePathM) (name : string)
    : (PurePathM + name_error) * store :=
  let '(parts, m) := make_len m (slen (m_parts p)) in
  let m := copy m parts (m_parts p) in
  if (slen parts =? 0)%nat then (inr panicNameBounds, m)
  else
    match slice_upto parts (slen parts - 1) with
    | None => (inr panicNameBounds, m)
    | Some front =>
        let '(parts, m) := append m front [name] in
        (inl {| m_parts := parts; m_drive := m_drive p; m_root := m_root p;
                m_flavor := m_flavor p |}, m)
    end.

(** [name[len(name)-1:]] *)
Definition last_byte (name : string) : string := from name (len name - 1).

(** [PurePath.WithName] *)
Definition PurePath_WithName (m : store) (p : PurePathM) (name : string)
    : (PurePathM + name_error) * store :=
  if String.eqb (PurePath_Name (read m p)) "" then (inr errEmptyName, m)
  else
    let '(parsed, m) := newPurePathWithFlavorM m (m_flavor p) [name] in
    if String.eqb name ""
       || String.eqb (last_byte name) (Separator (m_flavor p))
       || String.eqb (last_byte name) (AltSeparator (m_flavor p))
       || nonempty (m_drive parsed) || nonempty (m_root parsed)
       || negb (slen (m_parts parsed) =? 1)%nat
    then (inr errInvalidName, m)
    else copy_with_last m p name.

(** [PurePath.WithStem] *)
Definition PurePath_WithStem (m : store) (p : PurePathM) (stem : string)
    : (PurePathM + name_error) * store :=
  PurePath_WithName m p (stem +:+ PurePath_Suffix (read m p)).

(** [PurePath.WithSuffix] *)
Definition PurePath_WithSuffix (m : store) (p : PurePathM) (suffix : string)
    : (PurePathM + name_error) * store :=
  let fl := m_flavor p in
  if (nonempty suffix && (negb (HasPrefix suffix ".") || String.eqb suffix "."))
     || Contains suffix (Separator fl)
     || (nonempty (AltSeparator fl) && Contains suffix (AltSeparator fl))
  then (inr errInvalidSuffix, m)
  else
    let name := PurePath_Name (read m p) in
    if String.eqb name "" then (inr errEmptyName, m)
    else
      let oldSuffix := PurePath_Suffix (read m p) in
      let name :=
        if String.eqb oldSuffix "" then name +:+ suffix
        else upto name (len name - len oldSuffix) +:+ suffix in
      copy_with_last m p name.

End Mem.

(** ** path.go: the resolver and the latest-entry scan *)

Module Path.
Import Strings Utf8 Flavor PurePath.

Inductive error : Set :=
| ErrDoesNotImplement (interfaceName : string)
| ErrLstatNotPossible
| ErrDirectoryEmpty
| ErrFs (isNotExist : bool) (code : nat).  (* an error of the filesystem *)

(** [os.IsNotExist] *)
Definition IsNotExist (e : error) : bool :=
  match e with
  | ErrFs b _ => b
  | _ => false
  end.

(** [os.FileInfo], the fields the sources read; a [time.Time] is the
    number of nanoseconds since the zero time [time.Time{}]. *)
Record FileInfo : Set := mkFileInfo {
  ModeSymlink : bool;   (* Mode()&os.ModeSymlink != 0 *)
  ModTime : Z
}.

Definition zeroTime : Z := 0.
(** [t.After(u)] *)
Definition After (t u : Z) : bool := t >? u.

(** The [afero.Fs] collaborator, as a function of the path string.  The
    optional interfaces [afero.Lstater] and [afero.LinkReader] are
    present or not ([fs.(afero.Lstater)] succeeds or not).  [Readdirnames]
    stands for [Open] followed by [Readdirnames(-1)]. *)
Record Fs : Type := mkFs {
  Stat : string -> FileInfo + error;
  Readdirnames : string -> list string + error;
  LstatIfPossible : option (string -> (FileInfo + error) * bool);
  ReadlinkIfPossible : option (string -> string + error)
}.

(** [Path]; the default file modes play no part below. *)
Record Path : Type := mkPath {
  pure : PurePath;
  fs : Fs
}.

(** [copyPathWithPaths] *)
Definition copyPathWithPaths (copyFrom : Path) (paths : list string) : Path :=
  {| pure := newPurePathWithFlavor (flavor (pure copyFrom)) paths; fs := fs copyFrom |}.

(** [copyPathWithPurePath] *)
Definition copyPathWithPurePath (copyFrom : Path) (purePath : PurePath) : Path :=
  {| pure := purePath; fs := fs copyFrom |}.

Definition Path_String (p : Path) : string := PurePath_String (pure p).
Definition Path_Name (p : Path) : string := PurePath_Name (pure p).
Definition Path_Join (p : Path) (paths : list string) : Path :=
  copyPathWithPurePath p (PurePath_Join (pure p) paths).
Definition Path_JoinPath (p : Path) (paths : list Path) : Path :=
  Path_Join p (map Path_String paths).
Definition Path_Parent (p : Path) : Path :=
  copyPathWithPurePath p (PurePath_Parent (pure p)).

(** [Path.Lstat] *)
Definition Path_Lstat (p : Path) : FileInfo + error :=
  match LstatIfPossible (fs p) with
  | None => inr (ErrDoesNotImplement "afero.Lstater")
  | Some lstat =>
      match lstat (Path_String p) with
      | (inl _, false) => inr ErrLstatNotPossible
      | (res, _) => res
      end
  end.

(** [Path.IsSymlink] *)
Definition Path_IsSymlink (p : Path) : bool * option error :=
  match Path_Lstat p with
  | inr err => (false, Some err)
  | inl fileInfo => (ModeSymlink fileInfo, None)
  end.

(** [Path.Readlink] *)
Definition Path_Readlink (p : Path) : Path + error :=
  match ReadlinkIfPossible (fs p) with
  | None => inr (ErrDoesNotImplement "afero.LinkReader")
  | Some readlink =>
      match readlink (Path_String p) with
      | inr err => inr err
      | inl resolvedPathStr => inl (copyPathWithPaths p [resolvedPathStr])
      end
  end.

(** [resolveIfSymlink] *)
Definition resolveIfSymlink (path : Path) : Path * bool * option error :=
  match Path_IsSymlink path with
  | (isSymlink, Some err) => (path, isSymlink, Some err)
  | (true, None) =>
      match Path_Readlink path with
      | inr err => (path, true, Some err)
      | inl resolvedPath => (resolvedPath, true, None)
      end
  | (false, None) => (path, false, None)
  end.

(** The [for] loop of [resolveAllHelper] from index [i] on; [self] is the
    recursive call. *)
Fixpoint resolve_loop (self : Path -> option (Path * option error))
    (path : Path) (idx : list nat) : option (Path * option error) :=
  match idx with
  | [] => Some (path, None)
  | i :: idx' =>
      let parts := parts (pure path) in
      let rightOfComponent := drop (i + 1) parts in
      let upToComponent := take (i + 1) parts in
      let componentPath := copyPathWithPaths path upToComponent in
      match resolveIfSymlink componentPath with
      | (_, _, Some err) => Some (path, Some err)
      | (resolved, true, None) =>
          if PurePath_IsAbsolute (pure resolved)
          then self (Path_Join resolved rightOfComponent)
          else self (Path_Join (Path_JoinPath (Path_Parent componentPath) [resolved])
                       rightOfComponent)
      | (_, false, None) => resolve_loop self path idx'
      end
  end.

(** [resolveAllHelper].  The source recurses without bound (a cycle of
    links never returns); [fuel] bounds the number of nested calls and
    [None] says the bound was reached. *)
Fixpoint resolveAllHelper (fuel : nat) (path : Path) : option (Path * option error) :=
  match fuel with
  | O => None
  | S fuel' =>
      resolve_loop (resolveAllHelper fuel') path (seq 0 (length (parts (pure path))))
  end.

(** [Path.ResolveAll] *)
Definition Path_ResolveAll (fuel : nat) (p : Path) : option (Path * option error) :=
  resolveAllHelper fuel p.

(** [Path.ReadDir] *)
Definition Path_ReadDir (p : Path) : list Path + error :=
  match Readdirnames (fs p) (Path_String p) with
  | inr err => inr err
  | inl children => inl (map (fun child => Path_Join p [child]) children)
  end.

(** [Path.Mtime] *)
Definition Path_Mtime (p : Path) : Z * option error :=
  match Stat (fs p) (Path_String p) with
  | inr err => (zeroTime, Some err)
  | inl stat => (ModTime stat, None)
  end.

(** The [for] loop of [Path.GetLatest] over the indices [idx]. *)
Fixpoint latest_loop (p : Path) (files : list Path) (greatestFileSeen : Path)
    (idx : list nat) : Path + error :=
  match idx with
  | [] => inl greatestFileSeen
  | i :: idx' =>
      match files !! i with
      | None => inl greatestFileSeen
      | Some file =>
          match Path_Mtime greatestFileSeen with
          | (_, Some err) => inr err
          | (greatestMtime, None) =>
              let '(thisMtime, err) := Path_Mtime file in
              match err with
              | Some e =>
                  if negb (IsNotExist e) then inr e
                  else
                    latest_loop p files
                      (if After thisMtime greatestMtime
                       then Path_Join p [Path_Name file] else greatestFileSeen) idx'
              | None =>
                  latest_loop p files
                    (if After thisMtime greatestMtime
                     then Path_Join p [Path_Name file] else greatestFileSeen) idx'
              end
          end
      end
  end.

(** [Path.GetLatest]: the loop runs [for i := 1; i < len(files)-1; i++]. *)
Definition Path_GetLatest (p : Path) : Path + error :=
  match Path_ReadDir p with
  | inr err => inr err
  | inl files =>
      match files with
      | [] => inr ErrDirectoryEmpty
      | file0 :: _ =>
          latest_loop p files (Path_Join p [Path_Name file0])
            (seq 1 (length files - 1 - 1))
      end
  end.

End Path.

(** ** The specification's words *)

Module Spec.
Import Strings Flavor PurePath.

(** The tokens of [s] around every occurrence of the separator byte [c]. *)
Fixpoint split_byte (c : ascii) (s : string) : list string :=
  match s with
  | EmptyString => [EmptyString]
  | String a s' =>
      if Ascii.eqb a c then EmptyString :: split_byte c s'
      else match split_byte c s' with
           | t :: ts => String a t :: ts
           | [] => [String a EmptyString]
           end
  end.

Definition sep_byte (fl : flavorer) : ascii :=
  match fl with
  | posixFlavor => "/"%char
  | windowsFlavor => "\"%char
  end.

(** "tokenize remainder on separator, discarding empty tokens and
    single-dot tokens" *)
Definition survivors (fl : flavorer) (remainder : string) : list string :=
  List.filter keep_part (split_byte (sep_byte fl) remainder).

(** "substitute any altSeparator occurrence with separator" *)
Definition substituted (fl : flavorer) (input : string) : string :=
  if nonempty (AltSeparator fl)
  then ReplaceAll input (AltSeparator fl) (Separator fl)
  else input.

(** One input of the parser, as section 4.2 words it: a candidate with a
    drive replaces everything, a candidate with only a root keeps the
    drive, and the tokens of the remainder are appended. *)
Definition parse_step (fl : flavorer) (st : string * string * list string)
    (input : string) : string * string * list string :=
  let '(drive, root, parts) := st in
  let '(pdrive, proot, remainder) := SplitRoot fl (substituted fl input) in
  if nonempty pdrive then
    (pdrive, proot, [pdrive +:+ proot] ++ survivors fl remainder)
  else if nonempty proot then
    (drive, proot, [drive +:+ proot] ++ survivors fl remainder)
  else
    (drive, root, parts ++ survivors fl remainder).

(** The components of the triples [SplitRoot] and [parseParts] return. *)
Definition tdrive {A : Type} (t : string * string * A) : string := t.1.1.
Definition troot {A : Type} (t : string * string * A) : string := t.1.2.
Definition tparts (t : string * string * list string) : list string := t.2.
Definition trel (t : string * string * string) : string := t.2.

(** Section 4.2, edge cases: an anchored later input that lacks the drive an
    earlier input supplied leaves the result without a drive. *)
Definition later_drive_stands (fl : flavorer) (earlier : list string)
    (later : string) : Prop :=
  tdrive (parseParts earlier fl) <> "" ->
  tdrive (SplitRoot fl (substituted fl later)) = "" ->
  troot (SplitRoot fl (substituted fl later)) <> "" ->
  tdrive (parseParts (earlier ++ [later]) fl) = "".

(** Section 3: "drive is either empty, a two-character drive-letter form
    (X:), or a UNC/extended-length prefix string"; the latter start with
    two separators. *)
Definition drive_letter_form (d : string) : bool :=
  match d with
  | String a (String ":" EmptyString) => in_cutset a windowsDriveLetters
  | _ => false
  end.

Definition unc_prefix_form (d : string) : bool := HasPrefix d "\\".

Definition drive_form (d : string) : bool :=
  String.eqb d "" || drive_letter_form d || unc_prefix_form d.

(** Section 3: a "plain segment" is not empty, not a single dot, and holds
    no separator. *)
Fixpoint has_byte (c : ascii) (s : string) : bool :=
  match s with
  | EmptyString => false
  | String a s' => Ascii.eqb a c || has_byte c s'
  end.

Definition plain_segment (fl : flavorer) (t : string) : bool :=
  keep_part t && negb (has_byte (sep_byte fl) t).

Definition starts_with (c : ascii) (s : string) : bool :=
  match s with
  | EmptyString => false
  | String a _ => Ascii.eqb a c
  end.

(** Every byte of [s] satisfies [ok]. *)
Fixpoint all_bytes (ok : ascii -> bool) (s : string) : bool :=
  match s with
  | EmptyString => true
  | String a s' => ok a && all_bytes ok s'
  end.

(** Replacing the byte [a] by [b]. *)
Definition subst_byte (a b c : ascii) : ascii := if Ascii.eqb c a then b else c.

(** A separator of either kind, or a dot. *)
Definition sep_or_dot (c : ascii) : bool :=
  Ascii.eqb c "\" || Ascii.eqb c "." || Ascii.eqb c "/".


(** The shape of a POSIX parse: no drive, a root of at most two
    separators, and plain segments after the anchor. *)
Definition posix_normal (t : string * string * list string) : Prop :=
  exists root toks,
    (root = "" \/ root = "/" \/ root = "//") /\
    Forall (fun s => plain_segment posixFlavor s = true) toks /\
    t = ("", root, (if nonempty root then [root] else []) ++ toks).

End Spec.

Module RelativeSpec.
Import Strings Flavor PurePath Mem.

(** The element at position [j] of the array [b]. *)
Definition cell (m : store) (b j : nat) : option string :=
  m !! b ≫= (fun arr => arr !! j).

(** A slice header that lies within an array of the store. *)
Definition valid (m : store) (s : slice) : Prop :=
  (slen s <= scap s)%nat /\
  forall j, (off s <= j < off s + scap s)%nat -> is_Some (cell m (base s) j).

(** A path value as the constructors of the package build it: its parts
    slice lies in the store, and a path with a root has its anchor part. *)
Definition well_formed (m : store) (p : PurePathM) : Prop :=
  valid m (m_parts p) /\ (m_root p <> "" -> (1 <= slen (m_parts p))%nat).

Definition anchored (p : PurePath) : bool := nonempty (drive p) || nonempty (root p).

(** "normalized segment sequence (including anchor)": as [RelativeTo]
    builds it, the drive and the root are two elements when there is a
    root, and the parts stand as they are otherwise. *)
Definition abs_of (p : PurePath) : list string :=
  if nonempty (root p) then drive p :: root p :: tail (parts p) else parts p.

(** [o] is a prefix of [a] after case folding. *)
Definition cf_prefix (cf : string -> string) (o a : list string) : bool :=
  bool_decide (length o <= length a)%nat
  && bool_decide (cf <$> take (length o) a = cf <$> o).

(** The other path is an anchor and nothing else. *)
Definition anchor_alone (o : PurePath) : bool :=
  anchored o && (length (parts o) =? 1)%nat.

(** Section 4.3, relativeTo, as worded: failure unless the other sequence
    is a case-folded prefix; on success the remaining suffix, "with root
    cleared unless the prefix was exactly the anchor alone". *)
Definition relative_to_claim (cf : string -> string) (this other : PurePath)
    (res : PurePath + error) : Prop :=
  let n := length (abs_of other) in
  (cf_prefix cf (abs_of other) (abs_of this) = false -> res = inr errNotRelative) /\
  (forall q, res = inl q ->
     parts q = drop n (abs_of this) /\
     root q = if anchor_alone other then root this else "").

(** The result of [RelativeTo], with the root kept exactly when the other
    sequence has one element. *)
Definition relative_to (cf : string -> string) (this other : PurePath)
    : PurePath + error :=
  let n := length (abs_of other) in
  let related :=
    if (n =? 0)%nat then negb (anchored this)
    else cf_prefix cf (abs_of other) (abs_of this) in
  if related then
    inl {| parts := drop n (abs_of this);
           drive := "";
           root := if (n =? 1)%nat then root this else "";
           flavor := flavor this |}
  else inr errNotRelative.

End RelativeSpec.

Module ResolverSpec.
Import Strings Flavor PurePath Path.

(** The path of the prefix [parts[:i+1]], which [resolveAllHelper] tests
    at round [i]. *)
Definition prefix_path (p : Path) (i : nat) : Path :=
  copyPathWithPaths p (take (i + 1) (parts (pure p))).

(** Round [i] finds no link and no error. *)
Definition plain_prefix (p : Path) (i : nat) : Prop :=
  (resolveIfSymlink (prefix_path p i)).1.2 = false /\
  (resolveIfSymlink (prefix_path p i)).2 = None.




End ResolverSpec.

(** ** Shapes of parsed paths, of roots and of names *)

Module Shape.
Import Strings Flavor PurePath Spec.

(** The parts of a parse: the anchor [drive+root] first when there is a
    drive or a root, then plain segments only. *)
Definition normal (fl : flavorer) (t : string * string * list string) : Prop :=
  exists toks,
    Forall (fun s => plain_segment fl s = true) toks /\
    tparts t =
      (if nonempty (tdrive t) || nonempty (troot t)
       then [tdrive t +:+ troot t] else []) ++ toks.

(** The three components of a path value. *)
Definition triple (p : PurePath) : string * string * list string :=
  (drive p, root p, parts p).

(** A POSIX path value of the shape the parser builds. *)
Definition posix_value (p : PurePath) : Prop :=
  flavor p = posixFlavor /\ posix_normal (triple p).

(** The number of parents [PurePath.Parents] lists. *)
Definition numParents (p : PurePath) : nat :=
  if nonempty (drive p) || nonempty (root p)
  then (length (parts p) - 1)%nat else length (parts p).

(** A path value with a drive or a root has its anchor part. *)
Definition has_anchor_part (p : PurePath) : Prop :=
  nonempty (drive p) || nonempty (root p) = true -> parts p <> [].

End Shape.

Module ParseShape.
Import Strings Flavor PurePath Spec.

(** A parse followed by another: a second parse with a root stands alone;
    otherwise its parts go after the parts of the first. *)
Definition combine (s t : string * string * list string)
    : string * string * list string :=
  if nonempty (troot t) then t
  else (tdrive s, troot s, tparts s ++ tparts t).

End ParseShape.

Module RootShape.
Import Strings.

(** [k] separators in a row. *)
Fixpoint slashes (k : nat) : string :=
  match k with
  | O => EmptyString
  | S k' => String "/" (slashes k')
  end.

End RootShape.

Module NameShape.
Import Strings PurePath Spec.

(** A suffix is empty, or a dot followed by at least one byte and no
    further dot. *)
Definition suffix_form (s : string) : bool :=
  match s with
  | EmptyString => true
  | String c t => Ascii.eqb c "." && nonempty t && negb (has_byte "." t)
  end.

End NameShape.

(** ** Match, as a comparison of aligned parts *)

Module MatchSpec.
Import Strings Flavor PurePath.

Section WithMatcher.
Variable cf : string -> string.
Variable filepathMatch : string -> string -> option bool.

(** [filepath.Match] says yes, without an error. *)
Definition matches (pat part : string) : bool :=
  match filepathMatch pat part with
  | Some true => true
  | _ => false
  end.

(** Every pattern matches the part at its position. *)
Fixpoint pairwise (pats parts : list string) : bool :=
  match pats, parts with
  | [], _ => true
  | pat :: pats', part :: parts' => matches pat part && pairwise pats' parts'
  | _ :: _, [] => false
  end.

(** The pattern's parts against the last parts of the case-folded path:
    as many parts as the path has when the pattern has a drive or a root,
    at most as many otherwise. *)
Definition match_aligned (P : PurePath) (pattern : string) : bool :=
  let '(patDrive, patRoot, patParts) := parseParts [cf pattern] (flavor P) in
  let parts := cf <$> parts P in
  let anchored := nonempty patDrive || nonempty patRoot in
  let pats := if anchored then tail patParts else patParts in
  negb (length patParts =? 0)%nat
  && (negb (nonempty patDrive) || String.eqb patDrive (cf (drive P)))
  && (negb (nonempty patRoot) || String.eqb patRoot (cf (root P)))
  && (if anchored then (length patParts =? length parts)%nat
      else (length patParts <=? length parts)%nat)
  && pairwise pats (drop (length parts - length pats) parts).

End WithMatcher.

End MatchSpec.

(** ** One step of the resolver *)

Module ResolverSteps.
Import Strings Flavor PurePath Path ResolverSpec.

(** The path [resolveAllHelper] goes on with after round [i] found a link
    that reads [resolved]: the target itself when it is absolute, the
    target joined to the parent of the link otherwise, and the remaining
    parts after it. *)
Definition follow (p : Path) (i : nat) (resolved : Path) : Path :=
  let rightOfComponent := drop (i + 1) (parts (pure p)) in
  if PurePath_IsAbsolute (pure resolved)
  then Path_Join resolved rightOfComponent
  else Path_Join (Path_JoinPath (Path_Parent (prefix_path p i)) [resolved])
                 rightOfComponent.

(** ["a"] is a link to itself. *)
Definition self_link : Fs :=
  {| Stat := fun _ => inr (ErrFs false 40);
     Readdirnames := fun _ => inr (ErrFs false 20);
     LstatIfPossible :=
       Some (fun _ => (inl {| ModeSymlink := true; ModTime := 0 |}, true));
     ReadlinkIfPossible := Some (fun _ => inl "a") |}.

End ResolverSteps.

(** ** Filesystems and paths used as examples *)

Module Fixtures.
Import Strings Flavor PurePath Path.

(** A directory ["/d"] with the entries ["a"] (modified at 1) and ["b"]
    (modified at 2). *)
Definition two_files : Fs :=
  {| Stat := fun path =>
       if String.eqb path "/d/a" then inl {| ModeSymlink := false; ModTime := 1 |}
       else if String.eqb path "/d/b" then inl {| ModeSymlink := false; ModTime := 2 |}
       else if String.eqb path "/d" then inl {| ModeSymlink := false; ModTime := 0 |}
       else inr (ErrFs true 2);
     Readdirnames := fun path =>
       if String.eqb path "/d" then inl ["a"; "b"] else inr (ErrFs true 2);
     LstatIfPossible := None;
     ReadlinkIfPossible := None |}.

(** Every path is a regular file; the filesystem has lstat and no
    readlink. *)
Definition no_readlink : Fs :=
  {| Stat := fun _ => inl {| ModeSymlink := false; ModTime := 0 |};
     Readdirnames := fun _ => inr (ErrFs false 20);
     LstatIfPossible :=
       Some (fun _ => (inl {| ModeSymlink := false; ModTime := 0 |}, true));
     ReadlinkIfPossible := None |}.



(** ["a"] is a link to ["b"], and lstat fails on every other path with
    the I/O error 5. *)
Definition broken_link : Fs :=
  {| Stat := fun _ => inr (ErrFs false 5);
     Readdirnames := fun _ => inr (ErrFs false 5);
     LstatIfPossible :=
       Some (fun path =>
               if String.eqb path "a"
               then (inl {| ModeSymlink := true; ModTime := 0 |}, true)
               else (inr (ErrFs false 5), true));
     ReadlinkIfPossible :=
       Some (fun path => if String.eqb path "a" then inl "b" else inr (ErrFs false 5)) |}.

(** Stand-ins for the two functions of the Go standard library, for
    closed examples: patterns without metacharacters match literally, and
    no example lowers a string that is not ASCII. *)
Definition literalMatch (pattern name : string) : option bool :=
  Some (String.eqb pattern name).
Definition noLower (s : string) : string := s.

Definition posix_path (f : Fs) (paths : list string) : Path :=
  {| pure := newPurePathWithFlavor posixFlavor paths; fs := f |}.

End Fixtures.

(** * Properties *)

(** ** Byte strings *)

Section StringFacts.
Import Strings.

Lemma append_cons (c : ascii) (s t : string) :
  String c s +:+ t = String c (s +:+ t).
Proof. reflexivity. Qed.

Lemma append_nil_l (s : string) : "" +:+ s = s.
Proof. reflexivity. Qed.

Lemma append_nil_r (s : string) : s +:+ "" = s.
Proof.
  induction s as [|c s IH]; [reflexivity|]. by rewrite append_cons, IH.
Qed.

Lemma append_assoc (s t u : string) : (s +:+ t) +:+ u = s +:+ t +:+ u.
Proof.
  induction s as [|c s IH]; [reflexivity|]. by rewrite !append_cons, IH.
Qed.

Lemma length_append (s t : string) :
  String.length (s +:+ t) = (String.length s + String.length t)%nat.
Proof.
  induction s as [|c s IH]; [reflexivity|]. rewrite append_cons. cbn.
  by rewrite IH.
Qed.

Lemma str_take_drop (n : nat) (s : string) : str_take n s +:+ str_drop n s = s.
Proof.
  revert s. induction n as [|n IH]; intros [|c s]; cbn; try reflexivity.
  by rewrite append_cons, IH.
Qed.

Lemma upto_from (s : string) (i : Z) : upto s i +:+ from s i = s.
Proof. apply str_take_drop. Qed.

Lemma eqb_false_iff (s t : string) : String.eqb s t = false <-> s <> t.
Proof. apply String.eqb_neq. Qed.

Lemma nonempty_true (s : string) : PurePath.nonempty s = true <-> s <> "".
Proof.
  unfold PurePath.nonempty. rewrite negb_true_iff. apply String.eqb_neq.
Qed.

Lemma nonempty_false (s : string) : PurePath.nonempty s = false <-> s = "".
Proof.
  unfold PurePath.nonempty. rewrite negb_false_iff. apply String.eqb_eq.
Qed.
End StringFacts.

(** ** Name, stem and suffix *)

Section NameFacts.
Import Strings PurePath.

(** C9: the stem followed by the suffix is the name, for every path value
    (no dot, dotfile, trailing dot, empty name included). *)
Theorem stem_suffix_name (p : PurePath) :
  PurePath_Stem p +:+ PurePath_Suffix p = PurePath_Name p.
Proof.
  unfold PurePath_Stem, PurePath_Suffix.
  destruct ((0 <? _) && _).
  - apply upto_from.
  - apply append_nil_r.
Qed.
End NameFacts.

(** ** The tokenizer loop and the parser *)

Section ParserFacts.
Import Strings Flavor PurePath Spec.

Lemma Index_byte_nil (c : ascii) : Index "" (String c "") = -1.
Proof. reflexivity. Qed.

Lemma Index_byte_cons (a c : ascii) (s : string) :
  Index (String a s) (String c "") =
  if Ascii.eqb a c then 0
  else let i := Index s (String c "") in if i <? 0 then -1 else i + 1.
Proof.
  cbn [Index String.prefix].
  destruct (ascii_dec c a) as [->|Hne].
  - rewrite Ascii.eqb_refl. by destruct s.
  - destruct (Ascii.eqb_spec a c) as [->|_]; [done|reflexivity].
Qed.

Lemma Index_byte_lt (c : ascii) (s : string) :
  -1 <= Index s (String c "") /\ (s <> "" -> Index s (String c "") < len s).
Proof.
  unfold len. induction s as [|a s [IH1 IH2]]; [done|].
  rewrite Index_byte_cons. cbn [String.length].
  destruct (Ascii.eqb a c); [lia|]. cbv zeta.
  destruct (Z.ltb_spec (Index s (String c "")) 0); [lia|].
  split; [lia|]. intros _.
  assert (s <> "") as Hne by (intros ->; cbn in *; lia).
  specialize (IH2 Hne). lia.
Qed.

Lemma length_str_drop (n : nat) (s : string) :
  String.length (str_drop n s) = (String.length s - n)%nat.
Proof.
  revert s. induction n as [|n IH]; intros [|a s]; cbn; try done; try lia.
Qed.

Lemma str_drop_all (n : nat) (s : string) :
  (String.length s <= n)%nat -> str_drop n s = "".
Proof.
  revert s. induction n as [|n IH]; intros [|a s]; cbn; try done; try lia.
  intros. apply IH. lia.
Qed.

(** The first separator cuts off the first token. *)
Lemma split_byte_Index (c : ascii) (s : string) :
  let i := Index s (String c "") in
  split_byte c s =
  if i <? 0 then [s] else upto s i :: split_byte c (from s (i + 1)).
Proof.
  induction s as [|a s IH]; [reflexivity|].
  cbv zeta in *. rewrite Index_byte_cons. cbn [split_byte].
  destruct (Ascii.eqb a c); [reflexivity|]. cbv zeta.
  set (i := Index s (String c "")) in *.
  destruct (Z.ltb_spec i 0) as [Hlt|Hge]; [by rewrite IH|].
  destruct (Z.ltb_spec (i + 1) 0); [lia|].
  rewrite IH. unfold upto, from.
  replace (Z.to_nat (i + 1 + 1)) with (S (S (Z.to_nat i))) by lia.
  replace (Z.to_nat (i + 1)) with (S (Z.to_nat i)) by lia.
  reflexivity.
Qed.

(** The loop of [parseParts] computes the surviving tokens of the split,
    whenever it is given a round more than [prel] has bytes. *)
Lemma scan_rel_split (c : ascii) (fuel : nat) (prel : string) (parts : list string) :
  (String.length prel < fuel)%nat ->
  scan_rel fuel (String c "") prel parts =
  parts ++ List.filter keep_part (split_byte c prel).
Proof.
  revert prel parts. induction fuel as [|fuel IH]; intros prel parts Hfuel; [lia|].
  cbn [scan_rel]. rewrite (split_byte_Index c prel). cbv zeta.
  pose proof (Index_byte_lt c prel) as [Hlo Hhi].
  destruct (Z.geb_spec (Index prel (String c "")) 0) as [Hge|Hlt].
  - destruct (Z.ltb_spec (Index prel (String c "")) 0); [lia|].
    assert (prel <> "") as Hne by (intros ->; cbn in Hge; lia).
    specialize (Hhi Hne). cbn [List.filter].
    destruct (Z.geb_spec (Index prel (String c "")) (len prel - 1)) as [Hlast|Hmore].
    + unfold from. rewrite str_drop_all by (unfold len in *; lia).
      cbn [split_byte List.filter keep_part String.eqb negb andb].
      destruct (keep_part _); [reflexivity|by rewrite app_nil_r].
    + rewrite IH.
      * destruct (keep_part _); [by rewrite <- app_assoc|reflexivity].
      * unfold from. rewrite length_str_drop. unfold len in *. lia.
  - destruct (Z.ltb_spec (Index prel (String c "")) 0); [|lia].
    cbn [List.filter]. destruct (keep_part prel); [reflexivity|by rewrite app_nil_r].
Qed.

Lemma Separator_byte (fl : flavorer) : Separator fl = String (sep_byte fl) "".
Proof. by destruct fl. Qed.

Lemma scan_rel_survivors (fl : flavorer) (prel : string) (parts : list string) :
  scan_rel (S (String.length prel)) (Separator fl) prel parts =
  parts ++ survivors fl prel.
Proof. rewrite Separator_byte. apply scan_rel_split. lia. Qed.

Lemma parseParts_snoc (fl : flavorer) (paths : list string) (input : string) :
  parseParts (paths ++ [input]) fl = parse_one fl (parseParts paths fl) input.
Proof. unfold parseParts. by rewrite fold_left_app. Qed.

Lemma SplitRoot_empty (fl : flavorer) :
  SplitRoot fl (substituted fl "") = ("", "", "").
Proof. by destruct fl; vm_compute. Qed.

Lemma survivors_empty (fl : flavorer) : survivors fl "" = [].
Proof. by destruct fl. Qed.

(** The body of the loop in the source is the step of the specification;
    the skipped empty input is the step at a candidate without anything. *)
Lemma parse_one_step (fl : flavorer) (st : string * string * list string)
    (input : string) :
  parse_one fl st input = parse_step fl st input.
Proof.
  destruct st as [[drive root] parts]. unfold parse_one, parse_step.
  destruct (String.eqb_spec input "") as [->|Hne].
  - rewrite SplitRoot_empty. cbn [nonempty String.eqb negb].
    by rewrite survivors_empty, app_nil_r.
  - fold (substituted fl input).
    destruct (SplitRoot fl (substituted fl input)) as [[pdrive proot] prel].
    destruct (nonempty pdrive); [|destruct (nonempty proot)];
      apply f_equal, scan_rel_survivors.
Qed.

(** The three components of a parse after one more input. *)
Lemma parse_snoc_components (fl : flavorer) (paths : list string) (input : string) :
  let before := parseParts paths fl in
  let cand := SplitRoot fl (substituted fl input) in
  let after := parseParts (paths ++ [input]) fl in
  tdrive after = (if nonempty (tdrive cand) then tdrive cand else tdrive before) /\
  troot after =
    (if nonempty (tdrive cand) || nonempty (troot cand) then troot cand
     else troot before) /\
  tparts after =
    (if nonempty (tdrive cand) || nonempty (troot cand)
     then [tdrive after +:+ troot cand] else tparts before)
    ++ survivors fl (trel cand).
Proof.
  cbv zeta. rewrite parseParts_snoc, parse_one_step.
  destruct (parseParts paths fl) as [[d r] ps]. unfold parse_step.
  destruct (SplitRoot fl (substituted fl input)) as [[pd pr] rel].
  unfold tdrive, troot, tparts, trel. cbn [fst snd].
  destruct (nonempty pd); [done|]. destruct (nonempty pr); done.
Qed.

(** C1: [parseParts] starts from the empty triple and handles its inputs
    from left to right; an input whose [SplitRoot] has a drive discards the
    accumulated parts and resets drive and root, with the parts re-seeded
    to the anchor [drive+root]; an input with a root only keeps the
    accumulated drive, resets the root and re-seeds the parts the same
    way; in every case the tokens of the remainder that are neither empty
    nor a single dot are appended. *)
Theorem parseParts_left_to_right (fl : flavorer) (paths : list string) (input : string) :
  parseParts [] fl = ("", "", []) /\
  parseParts (paths ++ [input]) fl = parse_step fl (parseParts paths fl) input.
Proof.
  split; [reflexivity|]. rewrite parseParts_snoc. apply parse_one_step.
Qed.

End ParserFacts.

(** ** Which drive the parser ends with *)

Section DriveFacts.
Import Strings Flavor PurePath Spec.

(** C2, as stated, fails: after ["Z:/a"], the rooted input ["/b"] has no
    drive of its own, and the Windows parser keeps the drive ["Z:"] (the
    package's test "Second part has a root but not drive" expects it). *)
Lemma later_drive_stands_fails :
  ~ later_drive_stands windowsFlavor ["Z:/a"] "/b".
Proof.
  unfold later_drive_stands. vm_compute. intros H.
  specialize (H ltac:(discriminate) eq_refl ltac:(discriminate)).
  discriminate H.
Qed.

(** C2, amended: the drive after one more input is that input's drive when
    it has one, and the drive accumulated so far otherwise, also when the
    input is anchored by a root; in that case the root is the input's and
    the parts restart at the anchor made of the kept drive and the new
    root. *)
Theorem later_input_keeps_drive (fl : flavorer) (earlier : list string)
    (later : string) :
  let before := parseParts earlier fl in
  let cand := SplitRoot fl (substituted fl later) in
  let after := parseParts (earlier ++ [later]) fl in
  tdrive after = (if nonempty (tdrive cand) then tdrive cand else tdrive before) /\
  troot after =
    (if nonempty (tdrive cand) || nonempty (troot cand) then troot cand
     else troot before) /\
  tparts after =
    (if nonempty (tdrive cand) || nonempty (troot cand)
     then [tdrive after +:+ troot cand] else tparts before)
    ++ survivors fl (trel cand).
Proof.
  cbv zeta. rewrite parseParts_snoc, parse_one_step.
  destruct (parseParts earlier fl) as [[d r] ps]. unfold parse_step.
  destruct (SplitRoot fl (substituted fl later)) as [[pd pr] rel].
  unfold tdrive, troot, tparts, trel. cbn [fst snd].
  destruct (nonempty pd); [done|]. destruct (nonempty pr); done.
Qed.

(** The drive of a parse is the drive of the last input that has one. *)
Lemma parseParts_drive (fl : flavorer) (paths : list string) :
  tdrive (parseParts paths fl) =
  fold_left (fun d input =>
               if nonempty (tdrive (SplitRoot fl (substituted fl input)))
               then tdrive (SplitRoot fl (substituted fl input)) else d) paths "".
Proof.
  induction paths as [|x paths IH] using rev_ind; [reflexivity|].
  rewrite fold_left_app. cbn [fold_left]. rewrite <- IH.
  apply parse_snoc_components.
Qed.

End DriveFacts.

(** ** The drive [SplitRoot] returns *)

Section SplitRootFacts.
Import Strings Utf8 Flavor PurePath Spec.

(** The POSIX flavor never produces a drive. *)
Lemma posixFlavor_SplitRoot_drive (path : string) :
  tdrive (posixFlavor_SplitRoot path) = "".
Proof.
  unfold posixFlavor_SplitRoot.
  destruct (_ && _); [destruct (_ =? _)|]; reflexivity.
Qed.

(** What the package's tests expect of a path with two leading separators
    and no share: no drive. The source returns it for a one-byte name. *)
Lemma SplitRoot_two_separators_short :
  windowsFlavor_SplitRoot "\\a" = ("", "\", "a").
Proof. reflexivity. Qed.

(** [runesIndexOffset] answers [offset - 1], not [-1], when the rune does
    not occur from [offset] on and more than one rune is left. *)
Lemma runesIndexOffset_absent :
  runesIndexOffset (decode "\\abc") sep_rune 2 = 1.
Proof. reflexivity. Qed.

(** C3 at the input ["\\abc"] (two separators, a name of more than one
    byte, no share): [windowsFlavor.SplitRoot] returns the single separator
    as the drive, which is none of the three forms. *)
Theorem SplitRoot_drive_single_separator :
  windowsFlavor_SplitRoot "\\abc" = ("\", "\", "abc") /\
  drive_form (tdrive (windowsFlavor_SplitRoot "\\abc")) = false /\
  tdrive (parseParts ["//abc"] windowsFlavor) = "\".
Proof. vm_compute. repeat split; reflexivity. Qed.

End SplitRootFacts.

(** ** The receiver of Match and RelativeTo *)

Section ReceiverFacts.
Import Strings Flavor PurePath Mem.
Variable unicodeLower : string -> string.
Variable filepathMatch : string -> string -> option bool.

(** C5 at the Windows path ["Foo\Bar"]: [Match] returns after
    [CasefoldParts] has lowered the elements of the receiver's own backing
    array, so the caller's path reads ["foo\bar"] afterwards. *)
Theorem Match_lowers_receiver :
  let '(p, m) := newPurePathWithFlavorM [] windowsFlavor ["Foo\Bar"] in
  let '(_, m') := PurePath_Match unicodeLower filepathMatch m p "a/b/c" in
  parts (read m p) = ["Foo"; "Bar"] /\ parts (read m' p) = ["foo"; "bar"].
Proof. vm_compute. split; reflexivity. Qed.

(** [RelativeTo] does the same to the compared prefix of a receiver
    without a root, whose [absParts] is its own [parts] slice. *)
Lemma RelativeTo_lowers_receiver :
  let '(p, m) := newPurePathWithFlavorM [] windowsFlavor ["Foo\Bar"] in
  let '(_, m') := PurePath_RelativeTo unicodeLower m p ["foo"] in
  parts (read m p) = ["Foo"; "Bar"] /\ parts (read m' p) = ["foo"; "Bar"].
Proof. vm_compute. split; reflexivity. Qed.

(** The POSIX flavor's [CasefoldParts] writes nothing: [Match] leaves the
    whole store as it was. *)
Lemma posix_Match_store (m : store) (p : PurePathM) (pattern : string) :
  m_flavor p = posixFlavor ->
  snd (PurePath_Match unicodeLower filepathMatch m p pattern) = m.
Proof.
  intros Hfl. unfold PurePath_Match. rewrite Hfl.
  destruct (parseParts _ _) as [[patDrive patRoot] patParts].
  cbn [CasefoldParts posixFlavor_CasefoldParts].
  repeat (match goal with |- context [if ?b then _ else _] => destruct b end;
          cbn [snd]; try reflexivity).
Qed.

End ReceiverFacts.

(** ** GetLatest *)

Section LatestFacts.
Import Strings Flavor PurePath Path Fixtures.

(** An empty listing is the empty-directory error. *)
Lemma GetLatest_empty (p : Path) :
  Readdirnames (fs p) (Path_String p) = inl [] ->
  Path_GetLatest p = inr ErrDirectoryEmpty.
Proof. unfold Path_GetLatest, Path_ReadDir. by intros ->. Qed.

(** With two entries the loop [for i := 1; i < len(files)-1; i++] has no
    round: the first entry is returned whatever the modification times. *)
Lemma GetLatest_two_entries (p : Path) (a b : string) :
  Readdirnames (fs p) (Path_String p) = inl [a; b] ->
  Path_GetLatest p = inl (Path_Join p [Path_Name (Path_Join p [a])]).
Proof. unfold Path_GetLatest, Path_ReadDir. by intros ->. Qed.

(** C8 at that directory: [GetLatest] returns ["/d/a"] without an error,
    although ["/d/b"] was modified later. *)
Theorem GetLatest_skips_last_entry :
  let d := {| pure := newPurePathWithFlavor posixFlavor ["/d"]; fs := two_files |} in
  sum_map Path_String id (Path_GetLatest d) = inl "/d/a" /\
  sum_map ModTime id (Stat two_files "/d/a") = inl 1 /\
  sum_map ModTime id (Stat two_files "/d/b") = inl 2.
Proof. vm_compute. repeat split; reflexivity. Qed.

End LatestFacts.

(** ** ResolveAll *)

Section ResolverFacts.
Import Strings Flavor PurePath Path ResolverSpec Fixtures.



(** Rounds that find neither a link nor an error are passed over. *)
Lemma resolve_loop_plain (self : Path -> option (Path * option error)) (p : Path)
    (idx rest : list nat) :
  Forall (plain_prefix p) idx ->
  resolve_loop self p (idx ++ rest) = resolve_loop self p rest.
Proof.
  induction 1 as [|i idx [Hs He] _ IH]; [reflexivity|].
  cbn [app resolve_loop]. fold (prefix_path p i).
  destruct (resolveIfSymlink (prefix_path p i)) as [[r s] e].
  cbn in Hs, He. by subst.
Qed.


Lemma seq_split_at (n i : nat) :
  (i < n)%nat -> seq 0 n = seq 0 i ++ i :: seq (S i) (n - S i).
Proof.
  intros Hi. replace n with (i + S (n - S i))%nat at 1 by lia.
  by rewrite seq_app.
Qed.



(** The path that comes with an error met after a link has been followed
    is the path the resolver had reached, not the one it was given:
    ["a"] links to ["b"], lstat fails on ["b"], and ["b"] is returned. *)
Lemma ResolveAll_error_after_link :
  let r := Path_ResolveAll 2 (posix_path broken_link ["a"]) in
  (fun '(q, e) => (Path_String q, e)) <$> r = Some ("b", Some (ErrFs false 5)).
Proof. reflexivity. Qed.



End ResolverFacts.

(** ** Parsing the string of a parsed path *)

Section RoundTripFacts.
Import Strings Flavor PurePath Spec.


Lemma split_byte_nonempty (c : ascii) (s : string) : split_byte c s <> [].
Proof.
  induction s as [|a s IH]; [done|]. cbn [split_byte].
  destruct (Ascii.eqb a c); [done|]. by destruct (split_byte c s).
Qed.

(** No token of a split holds the separator. *)
Lemma split_byte_no_sep (c : ascii) (s : string) :
  Forall (fun t => has_byte c t = false) (split_byte c s).
Proof.
  induction s as [|a s IH]; [by repeat constructor|]. cbn [split_byte].
  destruct (Ascii.eqb a c) eqn:E; [by constructor|].
  destruct (split_byte c s) as [|t ts]; [by repeat constructor; cbn; rewrite E|].
  inversion IH; subst. constructor; [|done]. cbn. by rewrite E.
Qed.

Lemma survivors_plain (fl : flavorer) (s : string) :
  Forall (fun t => plain_segment fl t = true) (survivors fl s).
Proof.
  unfold survivors, plain_segment.
  pose proof (split_byte_no_sep (sep_byte fl) s) as H.
  induction H as [|t ts Ht _ IH]; [constructor|]. cbn [List.filter].
  destruct (keep_part t) eqn:E; [|done]. constructor; [|done].
  by rewrite E, Ht.
Qed.

(** A string without the separator is its own single token. *)
Lemma split_byte_plain (c : ascii) (t : string) :
  has_byte c t = false -> split_byte c t = [t].
Proof.
  induction t as [|a t IH]; [done|]. cbn. intros H.
  apply orb_false_iff in H as [-> H]. by rewrite IH.
Qed.

Lemma split_byte_app (c : ascii) (t s : string) :
  has_byte c t = false ->
  split_byte c (t +:+ String c s) = t :: split_byte c s.
Proof.
  induction t as [|a t IH]; intros H.
  - rewrite append_nil_l. cbn [split_byte]. by rewrite Ascii.eqb_refl.
  - cbn in H. apply orb_false_iff in H as [E H].
    rewrite append_cons. cbn [split_byte]. by rewrite E, IH.
Qed.

Lemma Join_cons (t t' : string) (ts : list string) (sep : string) :
  Join (t :: t' :: ts) sep = t +:+ sep +:+ Join (t' :: ts) sep.
Proof. reflexivity. Qed.

(** Splitting undoes joining, for tokens without the separator. *)
Lemma split_byte_Join (c : ascii) (toks : list string) :
  toks <> [] ->
  Forall (fun t => has_byte c t = false) toks ->
  split_byte c (Join toks (String c "")) = toks.
Proof.
  intros Hne H. induction H as [|t ts Ht Hts IH]; [done|].
  destruct ts as [|t' ts].
  - by apply split_byte_plain.
  - rewrite Join_cons, append_cons, append_nil_l.
    rewrite split_byte_app by done. by rewrite IH.
Qed.

Lemma filter_keep_all (toks : list string) :
  Forall (fun t => keep_part t = true) toks -> List.filter keep_part toks = toks.
Proof.
  induction 1 as [|t ts Ht _ IH]; [done|]. cbn. by rewrite Ht, IH.
Qed.

Lemma plain_segment_inv (fl : flavorer) (t : string) :
  plain_segment fl t = true ->
  keep_part t = true /\ has_byte (sep_byte fl) t = false.
Proof.
  unfold plain_segment. intros H. apply andb_true_iff in H as [H1 H2].
  by apply negb_true_iff in H2.
Qed.

(** The tokens that survive in the joined string are the joined segments. *)
Lemma survivors_Join (fl : flavorer) (toks : list string) :
  Forall (fun t => plain_segment fl t = true) toks ->
  survivors fl (Join toks (Separator fl)) = toks.
Proof.
  intros H. unfold survivors. destruct toks as [|t ts]; [by destruct fl|].
  rewrite Separator_byte, split_byte_Join; [|done|].
  - apply filter_keep_all. eapply Forall_impl; [exact H|].
    intros s Hs. by apply plain_segment_inv in Hs as [? _].
  - eapply Forall_impl; [exact H|].
    intros s Hs. by apply plain_segment_inv in Hs as [_ ?].
Qed.

(** The string joined from plain segments does not begin with a
    separator. *)
Lemma Join_starts_plain (fl : flavorer) (toks : list string) :
  Forall (fun t => plain_segment fl t = true) toks ->
  starts_with (sep_byte fl) (Join toks (Separator fl)) = false.
Proof.
  intros H. destruct H as [|t ts Ht Hts]; [done|].
  apply plain_segment_inv in Ht as [Hk Hs].
  assert (starts_with (sep_byte fl) t = false) as Ht.
  { destruct t as [|a t]; [done|]. cbn in *. by apply orb_false_iff in Hs as [? _]. }
  assert (t <> "") as Hne by (intros ->; done).
  destruct ts as [|t' ts]; [done|]. rewrite Join_cons.
  destruct t as [|a t]; [done|]. by rewrite append_cons.
Qed.

Lemma first_byte_eqb (a c : ascii) (s : string) :
  String.eqb (upto (String a s) 1) (String c "") = Ascii.eqb a c.
Proof.
  change (upto (String a s) 1) with (String a "").
  cbn [String.eqb]. by destruct (Ascii.eqb a c).
Qed.

Lemma TrimLeft_plain (rest : string) :
  starts_with "/" rest = false -> TrimLeft rest "/" = rest.
Proof.
  destruct rest as [|a rest]; [done|]. cbn. intros ->. done.
Qed.

(** [posixFlavor.SplitRoot] gives back a root of one or two separators put
    in front of a string that does not begin with one. *)
Lemma posixFlavor_SplitRoot_rooted (root rest : string) :
  root = "/" \/ root = "//" ->
  starts_with "/" rest = false ->
  posixFlavor_SplitRoot (root +:+ rest) = ("", root, rest).
Proof.
  intros Hroot Hrest. unfold posixFlavor_SplitRoot.
  pose proof (TrimLeft_plain rest Hrest) as Htrim.
  destruct Hroot as [-> | ->].
  - rewrite append_cons, append_nil_l, first_byte_eqb.
    change (TrimLeft (String "/" rest) "/") with (TrimLeft rest "/").
    rewrite Htrim. unfold len. cbn [String.length Ascii.eqb Bool.eqb].
    destruct (Z.ltb_spec 0 (Z.of_nat (S (String.length rest)))); [|lia].
    cbn [andb].
    destruct (Z.eqb_spec (Z.of_nat (S (String.length rest)) - Z.of_nat (String.length rest)) 2);
      [lia|reflexivity].
  - rewrite !append_cons, append_nil_l, first_byte_eqb.
    change (TrimLeft (String "/" (String "/" rest)) "/") with (TrimLeft rest "/").
    rewrite Htrim. unfold len. cbn [String.length Ascii.eqb Bool.eqb].
    destruct (Z.ltb_spec 0 (Z.of_nat (S (S (String.length rest))))); [|lia].
    cbn [andb].
    destruct (Z.eqb_spec (Z.of_nat (S (S (String.length rest))) - Z.of_nat (String.length rest)) 2);
      [reflexivity|lia].
Qed.

Lemma posixFlavor_SplitRoot_relative (rest : string) :
  starts_with "/" rest = false ->
  posixFlavor_SplitRoot rest = ("", "", rest).
Proof.
  intros Hrest. unfold posixFlavor_SplitRoot.
  destruct rest as [|a rest]; [done|]. cbn in Hrest.
  by rewrite first_byte_eqb, Hrest, andb_false_r.
Qed.

(** The root [posixFlavor.SplitRoot] returns is empty or one or two
    separators. *)
Lemma posixFlavor_SplitRoot_root (path : string) :
  tdrive (posixFlavor_SplitRoot path) = "" /\
  (troot (posixFlavor_SplitRoot path) = "" \/
   troot (posixFlavor_SplitRoot path) = "/" \/
   troot (posixFlavor_SplitRoot path) = "//").
Proof.
  unfold posixFlavor_SplitRoot.
  destruct (_ && _); [destruct (_ =? _)|]; cbn; auto.
Qed.

(** Every POSIX parse has the normal shape. *)
Lemma parseParts_posix_normal (inputs : list string) :
  posix_normal (parseParts inputs posixFlavor).
Proof.
  induction inputs as [|x inputs IH] using rev_ind.
  - exists "", []. split; [by left|]. split; [constructor|reflexivity].
  - rewrite parseParts_snoc, parse_one_step.
    destruct IH as (root & toks & Hroot & Htoks & ->). unfold parse_step.
    pose proof (posixFlavor_SplitRoot_root (substituted posixFlavor x)) as [Hd Hr].
    cbn [SplitRoot].
    destruct (posixFlavor_SplitRoot (substituted posixFlavor x)) as [[pd pr] rel].
    cbn in Hd, Hr. subst pd. cbn [nonempty String.eqb negb].
    destruct (nonempty pr) eqn:Epr.
    + exists pr, (survivors posixFlavor rel). rewrite Epr.
      split; [exact Hr|]. split; [apply survivors_plain|reflexivity].
    + exists root, (toks ++ survivors posixFlavor rel).
      split; [exact Hroot|]. split; [|by rewrite app_assoc].
      apply Forall_app. split; [done|apply survivors_plain].
Qed.

(** A normal POSIX triple is the parse of its own string. *)
Lemma posix_normal_reparse (t : string * string * list string) :
  posix_normal t ->
  parseParts
    [PurePath_String {| parts := tparts t; drive := tdrive t; root := troot t;
                        flavor := posixFlavor |}] posixFlavor = t.
Proof.
  intros (root & toks & Hroot & Htoks & ->).
  change (parseParts [?s] posixFlavor) with (parse_one posixFlavor ("", "", []) s).
  rewrite parse_one_step. unfold parse_step, PurePath_String.
  cbn [tparts tdrive troot fst snd parts drive PurePath.root flavor
       nonempty String.eqb negb orb substituted AltSeparator SplitRoot].
  pose proof (Join_starts_plain posixFlavor toks Htoks) as Hstart.
  pose proof (survivors_Join posixFlavor toks Htoks) as Hsurv.
  change (Separator posixFlavor) with "/" in *.
  change (sep_byte posixFlavor) with "/"%char in *.
  destruct Hroot as [-> | Hroot].
  - cbn [nonempty String.eqb negb app].
    destruct toks as [|t ts]; [reflexivity|].
    cbn [length Nat.eqb].
    rewrite posixFlavor_SplitRoot_relative by done.
    cbn [nonempty String.eqb negb app]. by rewrite Hsurv.
  - assert (nonempty root = true) as Hne by (by destruct Hroot as [-> | ->]).
    rewrite Hne. cbn [app tail]. rewrite append_nil_l.
    rewrite posixFlavor_SplitRoot_rooted by done.
    cbn [nonempty String.eqb negb]. rewrite Hne. by rewrite Hsurv.
Qed.


End RoundTripFacts.

(** ** UTF-8: strings that come back as ASCII *)

Section Utf8Facts.
Import Strings Utf8 Spec.

Lemma byte_of_val (c : ascii) : byte_of (byte_val c) = c.
Proof. unfold byte_of, byte_val. rewrite N2Z.id. apply ascii_N_embedding. Qed.

Lemma byte_val_range (c : ascii) : 0 <= byte_val c < 256.
Proof.
  unfold byte_val. pose proof (N_ascii_bounded c). lia.
Qed.

Lemma byte_val_of (z : Z) : 0 <= z < 256 -> byte_val (byte_of z) = z.
Proof.
  intros Hz. unfold byte_of, byte_val.
  rewrite N_ascii_embedding by lia. lia.
Qed.

Lemma is_ascii_byte_high (z : Z) :
  128 <= z < 256 -> is_ascii_byte (byte_of z) = false.
Proof.
  intros Hz. unfold is_ascii_byte. fold (byte_val (byte_of z)).
  rewrite byte_val_of by lia. apply Z.ltb_ge. lia.
Qed.

Lemma in_range_true (lo hi b : Z) : in_range lo hi b = true -> lo <= b <= hi.
Proof. unfold in_range. intros H. apply andb_true_iff in H. lia. Qed.

(** A rune whose encoding begins with an ASCII byte is below 128. *)
Lemma encode_rune_ascii (r : rune) (t : string) :
  isASCII (encode_rune r +:+ t) = true -> 0 <= r < 128.
Proof.
  unfold encode_rune.
  destruct ((0 <=? r) && (r <? 128)) eqn:E1.
  { intros _. apply andb_true_iff in E1. lia. }
  destruct ((128 <=? r) && (r <? 2048)) eqn:E2.
  { rewrite append_cons. cbn [isASCII]. rewrite is_ascii_byte_high; [done|].
    apply andb_true_iff in E2. pose proof (Z.div_lt_upper_bound r 64 32).
    pose proof (Z.div_pos r 64). lia. }
  destruct ((2048 <=? r) && (r <? 55296) || (57344 <=? r) && (r <? 65536)) eqn:E3.
  { rewrite append_cons. cbn [isASCII]. rewrite is_ascii_byte_high; [done|].
    pose proof (Z.div_lt_upper_bound r 4096 16). pose proof (Z.div_pos r 4096).
    apply orb_true_iff in E3 as [E3|E3]; apply andb_true_iff in E3; lia. }
  destruct ((65536 <=? r) && (r <=? 1114111)) eqn:E4.
  { rewrite append_cons. cbn [isASCII]. rewrite is_ascii_byte_high; [done|].
    pose proof (Z.div_lt_upper_bound r 262144 5). pose proof (Z.div_pos r 262144).
    apply andb_true_iff in E4. lia. }
  rewrite append_cons. cbn [isASCII]. by rewrite is_ascii_byte_high.
Qed.

(** A byte of 128 or more decodes to a rune of 128 or more. *)
Lemma decode_high (c0 : ascii) (s1 : string) :
  128 <= byte_val c0 ->
  exists r rs, decode (String c0 s1) = r :: rs /\ 128 <= r.
Proof.
  intros Hb. cbn [decode].
  destruct (Z.ltb_spec (byte_val c0) 128) as [?|_]; [lia|].
  assert (128 <= RuneError) as Herr by (unfold RuneError; lia).
  unfold lead.
  repeat match goal with
  | |- context [if in_range ?lo ?hi ?b then _ else _] =>
      let E := fresh "E" in
      destruct (in_range lo hi b) eqn:E; [apply in_range_true in E|]
  | |- context [if ?b =? ?k then _ else _] =>
      destruct (Z.eqb_spec b k)
  | |- context [if ?x && ?y then _ else _] =>
      let E := fresh "E" in
      destruct (x && y) eqn:E;
      [repeat (apply andb_true_iff in E as [E ?]);
       repeat match goal with H : in_range _ _ _ = true |- _ =>
                apply in_range_true in H end
      |]
  | |- context [match ?s with EmptyString => _ | String _ _ => _ end] =>
      destruct s
  end;
  (eexists _, _; split; [reflexivity|]); try exact Herr;
  unfold cont in *;
  repeat match goal with H : in_range _ _ _ = true |- _ =>
           apply in_range_true in H end;
  try (Z.div_mod_to_equations; lia).
Qed.

Lemma isASCII_cons (c : ascii) (s : string) :
  isASCII (String c s) = true -> byte_val c < 128 /\ isASCII s = true.
Proof.
  cbn [isASCII]. intros H. apply andb_true_iff in H as [H1 H2].
  split; [|done]. unfold is_ascii_byte in H1. fold (byte_val c) in H1. lia.
Qed.

(** A string that is all ASCII once decoded and encoded again was that
    string already. *)
Lemma encode_decode_ascii (s : string) :
  isASCII (encode (decode s)) = true -> encode (decode s) = s.
Proof.
  induction s as [|c0 s1 IH]; [done|].
  destruct (Z.ltb_spec (byte_val c0) 128) as [Hlo|Hhi].
  - cbn [decode]. destruct (Z.ltb_spec (byte_val c0) 128); [|lia].
    cbn [encode]. unfold encode_rune.
    pose proof (byte_val_range c0).
    destruct (Z.leb_spec 0 (byte_val c0)); [|lia].
    destruct (Z.ltb_spec (byte_val c0) 128); [|lia]. cbn [andb].
    rewrite byte_of_val, append_cons, append_nil_l.
    intros Hasc. apply isASCII_cons in Hasc as [_ Hasc]. by rewrite IH.
  - destruct (decode_high c0 s1 Hhi) as (r & rs & -> & Hr).
    cbn [encode]. intros Hasc. apply encode_rune_ascii in Hasc. lia.
Qed.

End Utf8Facts.

(** ** Patterns without parts *)

Section NoPartsFacts.
Import Strings Utf8 Flavor PurePath Spec.

Lemma encode_rune_nonempty (r : rune) : encode_rune r <> "".
Proof.
  unfold encode_rune. repeat (destruct (_ : bool); [done|]). done.
Qed.

Lemma encode_cons_nonempty (r : rune) (rs : list rune) : encode (r :: rs) <> "".
Proof.
  cbn [encode]. pose proof (encode_rune_nonempty r).
  destruct (encode_rune r); [done|]. by rewrite append_cons.
Qed.

Lemma append_empty (s t : string) : s +:+ t = "" -> s = "" /\ t = "".
Proof. destruct s; [done|]. by rewrite append_cons. Qed.

(** The UNC branch of [windowsFlavor.SplitRoot] always returns a root. *)
Lemma unc_branch_root (prefix : string) (runes : list rune) (first second third : rune)
    (res : string * string * string) :
  unc_branch prefix runes first second third = Some res -> troot res = "\".
Proof.
  unfold unc_branch. intros H.
  repeat match type of H with
         | (if ?b then _ else _) = _ => destruct b
         | (let _ := _ in _) = _ => cbv zeta in H
         end; try discriminate H; by inversion H.
Qed.

(** When [windowsFlavor.SplitRoot] finds neither drive nor root, the
    remainder is the whole path, decoded and encoded again. *)
Lemma windowsFlavor_SplitRoot_plain (path rel : string) :
  windowsFlavor_SplitRoot path = ("", "", rel) -> rel = encode (decode path).
Proof.
  unfold windowsFlavor_SplitRoot.
  destruct (HasPrefix path "\\?\") eqn:Hp.
  - assert (forall k, (0 < k)%nat -> str_take k path <> "") as Hne.
    { intros k Hk. destruct path; [done|]. destruct k; [lia|done]. }
    destruct (HasPrefix (from path 4) "UNC\");
      (destruct (unc_branch _ _ _ _ _) as [res|] eqn:Hu;
       [apply unc_branch_root in Hu; by intros ->
       |repeat (match goal with
                | |- context [if ?b then _ else _] => destruct b
                end);
        intros Hd; apply (f_equal tdrive) in Hd;
        unfold tdrive in Hd; cbn [fst] in Hd;
        apply append_empty in Hd as [Hd _];
        exfalso; revert Hd; apply Hne; unfold Z.to_nat; cbn; lia]).
  - destruct (unc_branch _ _ _ _ _) as [res|] eqn:Hu.
    { apply unc_branch_root in Hu. by intros ->. }
    destruct ((rune_at (decode path) 1 =? colon_rune) &&
              has_rune windowsDriveLetters (rune_at (decode path) 0)) eqn:Hdrv.
    + apply andb_true_iff in Hdrv as [Hcolon _].
      assert (exists r0 r1 rs, decode path = r0 :: r1 :: rs) as (r0 & r1 & rs & ->).
      { unfold rune_at in Hcolon. destruct (decode path) as [|r0 [|r1 rs]];
          cbn in Hcolon; try discriminate Hcolon. by eexists _, _, _. }
      destruct (_ =? sep_rune); intros Hd; apply (f_equal tdrive) in Hd;
        unfold tdrive in Hd; cbn [fst] in Hd; rewrite append_nil_l in Hd;
        by apply encode_cons_nonempty in Hd.
    + destruct (rune_at (decode path) 0 =? sep_rune); intros H.
      * apply (f_equal troot) in H. unfold troot in H. cbn [fst snd] in H.
        by apply encode_cons_nonempty in H.
      * apply (f_equal trel) in H. by unfold trel in H; cbn [snd] in H.
Qed.

(** When no token survives, every byte of the string is the separator or
    a dot. *)
Lemma survivors_none (c : ascii) (s : string) :
  List.filter keep_part (split_byte c s) = [] ->
  all_bytes (fun a => Ascii.eqb a c || Ascii.eqb a ".") s = true.
Proof.
  induction s as [|a s IH]; [done|]. cbn [split_byte all_bytes].
  destruct (Ascii.eqb a c) eqn:E.
  - cbn [List.filter keep_part String.eqb negb andb orb]. exact IH.
  - pose proof (split_byte_nonempty c s) as Hne.
    destruct (split_byte c s) as [|t ts]; [done|].
    cbn [List.filter]. destruct (keep_part (String a t)) eqn:Ek; [done|].
    intros Hts.
    assert (a = "."%char /\ t = "") as [-> ->].
    { unfold keep_part in Ek. cbn [String.eqb negb andb] in Ek.
      apply negb_false_iff in Ek.
      destruct (Ascii.eqb_spec a "."); [|done]. split; [done|].
      by apply String.eqb_eq. }
    rewrite Ascii.eqb_refl. cbn [orb andb]. apply IH.
    cbn [List.filter keep_part String.eqb negb andb]. exact Hts.
Qed.

(** [strings.Replace] of one byte by another is the byte-wise
    substitution. *)
Lemma Index_none (a : ascii) (s : string) :
  Index s (String a "") < 0 -> map_bytes (subst_byte a a) s = s /\ has_byte a s = false.
Proof.
  induction s as [|c s IH]; [done|]. rewrite Index_byte_cons.
  destruct (Ascii.eqb c a) eqn:E; [lia|]. cbv zeta.
  destruct (Z.ltb_spec (Index s (String a "")) 0); [|lia]. intros _.
  destruct IH as [IH1 IH2]; [done|]. cbn. unfold subst_byte at 1.
  by rewrite E, IH1, IH2.
Qed.

Lemma map_bytes_append (f : ascii -> ascii) (s t : string) :
  map_bytes f (s +:+ t) = map_bytes f s +:+ map_bytes f t.
Proof.
  induction s as [|c s IH]; [done|]. rewrite append_cons. cbn.
  by rewrite IH, append_cons.
Qed.

Lemma map_bytes_plain (a b : ascii) (s : string) :
  has_byte a s = false -> map_bytes (subst_byte a b) s = s.
Proof.
  induction s as [|c s IH]; [done|]. cbn. intros H.
  apply orb_false_iff in H as [E H]. unfold subst_byte at 1.
  by rewrite E, IH.
Qed.

Lemma str_take_S (n : nat) (c : ascii) (s : string) :
  str_take (S n) (String c s) = String c (str_take n s).
Proof. reflexivity. Qed.

Lemma str_drop_S (n : nat) (c : ascii) (s : string) :
  str_drop (S n) (String c s) = str_drop n s.
Proof. reflexivity. Qed.

Lemma Index_found (a : ascii) (s : string) :
  0 <= Index s (String a "") ->
  has_byte a (upto s (Index s (String a ""))) = false /\
  s = upto s (Index s (String a "")) +:+ String a (from s (Index s (String a "") + 1)).
Proof.
  induction s as [|c s IH]; [cbn; lia|]. rewrite Index_byte_cons.
  destruct (Ascii.eqb_spec c a) as [->|Hne]; [done|]. cbv zeta.
  destruct (Z.ltb_spec (Index s (String a "")) 0); [lia|]. intros _.
  destruct IH as [IH1 IH2]; [done|].
  set (i := Index s (String a "")) in *. unfold upto, from in *.
  replace (Z.to_nat (i + 1 + 1)) with (S (S (Z.to_nat i))) by lia.
  replace (Z.to_nat (i + 1)) with (S (Z.to_nat i)) in * by lia.
  rewrite str_take_S, str_drop_S, append_cons. cbn [has_byte].
  split; [|by rewrite <- IH2].
  rewrite IH1. by destruct (Ascii.eqb_spec c a).
Qed.

Lemma replace_loop_bytes (a b : ascii) (fuel : nat) (s : string) :
  (String.length s < fuel)%nat ->
  replace_loop fuel s (String a "") (String b "") = map_bytes (subst_byte a b) s.
Proof.
  revert s. induction fuel as [|fuel IH]; intros s Hfuel; [lia|].
  cbn [replace_loop]. cbv zeta.
  destruct (Z.ltb_spec (Index s (String a "")) 0) as [Hnone|Hfound].
  - apply Index_none in Hnone as [_ Hnone]. symmetry. by apply map_bytes_plain.
  - pose proof (Index_found a s Hfound) as [Hpre Hs].
    set (i := Index s (String a "")) in *.
    change (len (String a "")) with 1.
    rewrite IH.
    + rewrite Hs at 3.
      rewrite map_bytes_append, (map_bytes_plain a b (upto s i)) by done.
      cbn [map_bytes]. unfold subst_byte at 2. rewrite Ascii.eqb_refl.
      by rewrite append_cons, append_nil_l.
    + unfold from. rewrite length_str_drop.
      assert (s <> "") as Hne by (intros ->; cbn in Hfound; subst i; cbn in *; lia).
      pose proof (Index_byte_lt a s) as [_ Hlt]. specialize (Hlt Hne).
      unfold len in Hlt. fold i in Hlt. lia.
Qed.

Lemma ReplaceAll_bytes (a b : ascii) (s : string) :
  ReplaceAll s (String a "") (String b "") = map_bytes (subst_byte a b) s.
Proof. apply replace_loop_bytes. lia. Qed.

Lemma all_bytes_impl (ok ok' : ascii -> bool) (s : string) :
  (forall c, ok c = true -> ok' c = true) ->
  all_bytes ok s = true -> all_bytes ok' s = true.
Proof.
  intros Himp. induction s as [|c s IH]; [done|]. cbn. intros H.
  apply andb_true_iff in H as [H1 H2]. by rewrite (Himp c H1), IH.
Qed.

Lemma all_bytes_subst (s : string) :
  all_bytes (fun a => Ascii.eqb a "\" || Ascii.eqb a ".")
            (map_bytes (subst_byte "/" "\") s) = true ->
  all_bytes sep_or_dot s = true.
Proof.
  induction s as [|c s IH]; [done|]. cbn [map_bytes all_bytes]. intros H.
  apply andb_true_iff in H as [H1 H2]. rewrite IH by done.
  unfold subst_byte, sep_or_dot in *.
  destruct (Ascii.eqb c "/"); [by rewrite orb_true_r|]. by rewrite H1.
Qed.

(** Lowering leaves a string of separators and dots as it is. *)
Lemma ToLower_sep_or_dot (unicodeLower : string -> string) (s : string) :
  all_bytes sep_or_dot s = true -> ToLower unicodeLower s = s.
Proof.
  intros H. unfold ToLower.
  assert (isASCII s = true /\ map_bytes lower_byte s = s) as [-> ?]; [|done].
  induction s as [|c s IH]; [done|]. cbn in H.
  apply andb_true_iff in H as [Hc Hs]. destruct (IH Hs) as [IH1 IH2].
  cbn [isASCII map_bytes]. rewrite IH1, IH2. unfold sep_or_dot in Hc.
  destruct (Ascii.eqb_spec c "\") as [->|_]; [done|].
  destruct (Ascii.eqb_spec c ".") as [->|_]; [done|].
  destruct (Ascii.eqb_spec c "/") as [->|_]; done.
Qed.

(** A Windows pattern that parses to no parts is made of separators and
    dots. *)
Lemma no_parts_windows (pattern : string) :
  tparts (parseParts [pattern] windowsFlavor) = [] ->
  all_bytes sep_or_dot pattern = true.
Proof.
  change (parseParts [pattern] windowsFlavor)
    with (parse_one windowsFlavor ("", "", []) pattern).
  rewrite parse_one_step. unfold parse_step. cbn [SplitRoot].
  destruct (windowsFlavor_SplitRoot _) as [[pd pr] rel] eqn:E.
  destruct (nonempty pd) eqn:Epd; [done|].
  destruct (nonempty pr) eqn:Epr; [done|].
  apply nonempty_false in Epd, Epr. subst pd pr.
  unfold tparts. cbn [snd app]. intros Hsurv.
  apply windowsFlavor_SplitRoot_plain in E.
  apply survivors_none in Hsurv. cbn [sep_byte] in Hsurv.
  assert (isASCII rel = true) as Hascii.
  { clear E. induction rel as [|c rel IH]; [done|]. cbn in Hsurv |- *.
    apply andb_true_iff in Hsurv as [Hc Hrel]. rewrite IH by done.
    destruct (Ascii.eqb_spec c "\") as [->|_]; [done|].
    destruct (Ascii.eqb_spec c ".") as [->|_]; done. }
  rewrite E in Hascii. apply encode_decode_ascii in Hascii.
  rewrite E, Hascii in Hsurv.
  change (substituted windowsFlavor pattern)
    with (ReplaceAll pattern (String "/" "") (String "\" "")) in Hsurv.
  rewrite ReplaceAll_bytes in Hsurv. by apply all_bytes_subst.
Qed.

(** Case folding does not change a pattern that parses to no parts. *)
Lemma no_parts_Casefold (unicodeLower : string -> string) (fl : flavorer)
    (pattern : string) :
  tparts (parseParts [pattern] fl) = [] ->
  Casefold unicodeLower fl pattern = pattern.
Proof.
  destruct fl; [done|]. intros H. cbn [Casefold].
  by apply ToLower_sep_or_dot, no_parts_windows.
Qed.

End NoPartsFacts.

Section MatchFacts.
Import Strings Flavor PurePath Spec Mem.
Variable unicodeLower : string -> string.
Variable filepathMatch : string -> string -> option bool.

(** C10: [Match] returns false, without a call of [filepath.Match] and
    without a write to the store, whenever the pattern parses to no parts,
    whatever the parts of the path. *)
Theorem Match_no_parts (m : store) (p : PurePathM) (pattern : string) :
  tparts (parseParts [pattern] (m_flavor p)) = [] ->
  PurePath_Match unicodeLower filepathMatch m p pattern = (false, m).
Proof.
  intros H. unfold PurePath_Match.
  rewrite (no_parts_Casefold unicodeLower _ _ H).
  destruct (parseParts [pattern] (m_flavor p)) as [[patDrive patRoot] patParts].
  unfold tparts in H. cbn [snd] in H. by subst patParts.
Qed.

End MatchFacts.

(** The dot on a Windows path and the empty pattern on a POSIX path. *)
Lemma Match_no_parts_witness :
  let w := Mem.newPurePathWithFlavorM [] Flavor.windowsFlavor ["C:\a\b.py"] in
  let x := Mem.newPurePathWithFlavorM [] Flavor.posixFlavor ["/a/b.py"] in
  (Spec.tparts (PurePath.parseParts ["."] Flavor.windowsFlavor) = [] /\
   Mem.PurePath_Match Fixtures.noLower Fixtures.literalMatch (snd w) (fst w) "."
   = (false, snd w)) /\
  (Spec.tparts (PurePath.parseParts [""] Flavor.posixFlavor) = [] /\
   Mem.PurePath_Match Fixtures.noLower Fixtures.literalMatch (snd x) (fst x) ""
   = (false, snd x)).
Proof.
  split; (split; [reflexivity|]).
  - apply (Match_no_parts Fixtures.noLower Fixtures.literalMatch
             (snd (Mem.newPurePathWithFlavorM [] Flavor.windowsFlavor ["C:\a\b.py"]))
             (fst (Mem.newPurePathWithFlavorM [] Flavor.windowsFlavor ["C:\a\b.py"])) ".").
    reflexivity.
  - apply (Match_no_parts Fixtures.noLower Fixtures.literalMatch
             (snd (Mem.newPurePathWithFlavorM [] Flavor.posixFlavor ["/a/b.py"]))
             (fst (Mem.newPurePathWithFlavorM [] Flavor.posixFlavor ["/a/b.py"])) "").
    reflexivity.
Defined.

(** ** The store *)

Section StoreFacts.
Import Strings Flavor PurePath Mem RelativeSpec.

Lemma view_lookup (m : store) (s : slice) (i : nat) :
  view m s !! i =
  if decide (i < slen s)%nat then cell m (base s) (off s + i) else None.
Proof.
  unfold view, cell, array_of. rewrite lookup_take.
  case_decide; [|done]. rewrite lookup_drop.
  by destruct (m !! base s).
Qed.

Lemma get_cell (m : store) (s : slice) (i : nat) :
  get m s i = default "" (cell m (base s) (off s + i)).
Proof. unfold get, cell, array_of. by destruct (m !! base s). Qed.

Lemma cell_set (m : store) (s : slice) (i : nat) (v : string) (b j : nat) :
  cell (set m s i v) b j =
  if decide (b = base s /\ j = (off s + i)%nat)
  then cell m b j ≫= (fun _ => Some v) else cell m b j.
Proof.
  unfold cell, set. rewrite list_lookup_alter.
  destruct (decide (base s = b)) as [<-|Hb];
    [|by rewrite decide_False by (intros [? ?]; congruence)].
  destruct (decide (j = (off s + i)%nat)) as [->|Hj].
  - rewrite (decide_True (P := _ /\ _)) by done.
    destruct (m !! base s) as [arr|]; cbn; [|done].
    destruct (decide (off s + i < length arr)%nat) as [Hlt|Hge].
    + rewrite list_lookup_insert_eq by done.
      by destruct (lookup_lt_is_Some_2 arr _ Hlt) as [x ->].
    + rewrite list_insert_ge by lia.
      by rewrite (proj2 (lookup_ge_None _ _)) by lia.
  - rewrite (decide_False (P := _ /\ _)) by (intros [? ?]; congruence).
    destruct (m !! base s); cbn; [|done]. by rewrite list_lookup_insert_ne.
Qed.

Lemma cell_app (m ext : store) (b j : nat) :
  (b < length m)%nat -> cell (m ++ ext) b j = cell m b j.
Proof. intros Hb. unfold cell. by rewrite lookup_app_l. Qed.

Lemma cell_is_Some_base (m : store) (b j : nat) :
  is_Some (cell m b j) -> (b < length m)%nat.
Proof.
  unfold cell. intros [x Hx]. apply lookup_lt_is_Some.
  destruct (m !! b); [done|discriminate].
Qed.

(** The elements a valid slice shows are the elements its indices read. *)
Lemma view_gets (m : store) (s : slice) :
  valid m s -> view m s = get m s <$> seq 0 (slen s).
Proof.
  intros [Hcap Hcells]. apply list_eq. intros i.
  rewrite view_lookup, list_lookup_fmap.
  case_decide as Hi.
  - rewrite lookup_seq_lt by done. cbn. rewrite get_cell.
    destruct (Hcells (off s + i)%nat) as [x ->]; [lia|done].
  - by rewrite lookup_seq_ge by lia.
Qed.

Lemma length_view (m : store) (s : slice) : valid m s -> length (view m s) = slen s.
Proof. intros H. by rewrite view_gets, length_fmap, length_seq. Qed.

Lemma valid_app (m ext : store) (s : slice) : valid m s -> valid (m ++ ext) s.
Proof.
  intros [Hcap Hcells]. split; [done|]. intros j Hj.
  destruct (Hcells j Hj) as [x Hx]. rewrite cell_app; [by rewrite Hx|].
  apply (cell_is_Some_base m _ j). by rewrite Hx.
Qed.

Lemma view_app (m ext : store) (s : slice) :
  valid m s -> view (m ++ ext) s = view m s.
Proof.
  intros [Hcap Hcells]. apply list_eq. intros i. rewrite !view_lookup.
  case_decide; [|done]. apply cell_app.
  apply (cell_is_Some_base m _ (off s + i)). apply Hcells. lia.
Qed.

Lemma valid_base (m : store) (s : slice) :
  valid m s -> (1 <= slen s)%nat -> (base s < length m)%nat.
Proof.
  intros [Hcap Hcells] Hlen. apply (cell_is_Some_base m _ (off s)).
  apply Hcells. lia.
Qed.

(** A slice over a new array. *)
Lemma alloc_spec (m : store) (elems : list string) :
  valid (snd (alloc m elems)) (fst (alloc m elems)) /\
  view (snd (alloc m elems)) (fst (alloc m elems)) = elems /\
  base (fst (alloc m elems)) = length m /\
  snd (alloc m elems) = m ++ [elems].
Proof.
  unfold alloc. cbn [fst snd]. split; [|split; [|done]].
  - split; [done|]. cbn [base off slen scap]. intros j Hj.
    unfold cell. rewrite list_lookup_middle by done. cbn.
    apply lookup_lt_is_Some. lia.
  - unfold view, array_of. cbn [base off slen].
    rewrite list_lookup_middle by done. cbn [default]. rewrite drop_0.
    by rewrite firstn_all.
Qed.

Section Casefolding.
Variable unicodeLower : string -> string.

(** The loop of [windowsFlavor.CasefoldParts] over the first [k]
    elements. *)
Lemma cell_lower_loop (m : store) (s : slice) (k : nat) (b j : nat) :
  cell (foldl (fun m i => set m s i (ToLower unicodeLower (get m s i))) m (seq 0 k)) b j =
  if decide (b = base s /\ (off s <= j < off s + k)%nat)
  then ToLower unicodeLower <$> cell m b j else cell m b j.
Proof.
  revert b j. induction k as [|k IH]; intros b j.
  - cbn. by rewrite decide_False by lia.
  - rewrite seq_S, foldl_app. cbn [foldl Nat.add].
    rewrite cell_set, get_cell, !IH.
    repeat case_decide; destruct_and?; simplify_eq; try lia;
      try done; try (by destruct (cell m _ _)).
    all: exfalso; repeat match goal with
                  | H : ~ (_ /\ _) |- _ => apply not_and_l in H as [?|?]
                  end; try done; lia.
Qed.

(** [CasefoldParts] returns its argument; in the store it leaves, the
    elements of that slice are case-folded and every other element is as
    it was. *)
Lemma cell_CasefoldParts (fl : flavorer) (m : store) (s : slice) (b j : nat) :
  fst (CasefoldParts unicodeLower fl m s) = s /\
  cell (snd (CasefoldParts unicodeLower fl m s)) b j =
  if decide (b = base s /\ (off s <= j < off s + slen s)%nat)
  then Casefold unicodeLower fl <$> cell m b j else cell m b j.
Proof.
  split; [by destruct fl|]. destruct fl; cbn [CasefoldParts snd].
  - unfold posixFlavor_CasefoldParts. cbn [snd Casefold].
    case_decide; [|done]. by destruct (cell m b j).
  - apply cell_lower_loop.
Qed.

Lemma all_equal_gets (m : store) (tp op : slice) (idx : list nat) :
  all_equal m tp op idx = bool_decide (get m tp <$> idx = get m op <$> idx).
Proof.
  induction idx as [|i idx IH]; [done|]. cbn [all_equal fmap list_fmap].
  destruct (String.eqb_spec (get m tp i) (get m op i)) as [Heq|Hne].
  - rewrite IH, Heq. apply bool_decide_ext. split; [by intros ->|].
    by intros [= ->].
  - symmetry. apply bool_decide_eq_false. by intros [= ? _].
Qed.

(** Reading the first [n] elements of a slice whose cells were mapped by
    [f]. *)
Lemma gets_mapped (m m' : store) (s s' : slice) (f : string -> string) (n : nat) :
  base s' = base s -> off s' = off s -> (n <= slen s)%nat -> valid m s ->
  (forall i, (i < n)%nat ->
     cell m' (base s) (off s + i) = f <$> cell m (base s) (off s + i)) ->
  get m' s' <$> seq 0 n = f <$> take n (view m s).
Proof.
  intros Hb Ho Hn [Hcap Hcells] Hmap. apply list_eq. intros i.
  rewrite !list_lookup_fmap, lookup_take, view_lookup.
  destruct (decide (i < n)%nat) as [Hi|Hi].
  - rewrite lookup_seq_lt by done. rewrite decide_True by lia. cbn.
    rewrite get_cell, Hb, Ho, Hmap by done.
    destruct (Hcells (off s + i)%nat) as [x ->]; [lia|done].
  - by rewrite lookup_seq_ge by lia.
Qed.

(** [casefoldComp] decides the case-folded prefix relation of the two
    views, and leaves the elements of [tp] after the compared prefix as
    they were. *)
Lemma casefoldComp_spec (fl : flavorer) (m : store) (tp op : slice) :
  valid m tp -> valid m op -> ((1 <= slen tp)%nat -> base tp <> base op) ->
  (1 <= slen op)%nat ->
  fst (casefoldComp unicodeLower fl m tp op) =
    cf_prefix (Casefold unicodeLower fl) (view m op) (view m tp) /\
  (forall j, (off tp + slen op <= j)%nat ->
     cell (snd (casefoldComp unicodeLower fl m tp op)) (base tp) j = cell m (base tp) j).
Proof.
  intros Htp Hop Hbase Hne. unfold casefoldComp, cf_prefix.
  rewrite !length_view by done.
  destruct (Nat.ltb_spec (slen tp) (slen op)) as [Hlt|Hge].
  { cbn [fst snd]. split; [|done].
    by rewrite (bool_decide_eq_false_2 (slen op <= slen tp)%nat) by lia. }
  rewrite (bool_decide_eq_true_2 (slen op <= slen tp)%nat) by lia.
  assert (base tp <> base op) as Hbase' by (apply Hbase; lia).
  clear Hbase. rename Hbase' into Hbase.
  unfold slice_upto. destruct Htp as [Hcap Hcells].
  destruct (Nat.leb_spec (slen op) (scap tp)) as [_|?]; [|lia].
  set (tp' := {| base := base tp; off := off tp; slen := slen op; scap := scap tp |}).
  pose proof (fun b j => cell_CasefoldParts fl m tp' b j) as H1.
  destruct (CasefoldParts unicodeLower fl m tp') as [tp1 m1].
  cbn [fst snd] in H1. assert (tp1 = tp') as -> by apply (H1 0%nat 0%nat).
  pose proof (fun b j => cell_CasefoldParts fl m1 op b j) as H2.
  destruct (CasefoldParts unicodeLower fl m1 op) as [op1 m2].
  cbn [fst snd] in H2. assert (op1 = op) as -> by apply (H2 0%nat 0%nat).
  cbn [fst snd]. change (slen tp') with (slen op). split.
  - assert (get m2 tp' <$> seq 0 (slen op)
            = Casefold unicodeLower fl <$> take (slen op) (view m tp)) as G1.
    { apply gets_mapped; [done|done|lia|by split|]. intros i Hi.
      rewrite (proj2 (H2 _ _)), decide_False by (intros [E _]; cbn in E; congruence).
      rewrite (proj2 (H1 _ _)), decide_True; [done|]. cbn. split; [done|lia]. }
    assert (get m2 op <$> seq 0 (slen op)
            = Casefold unicodeLower fl <$> take (slen op) (view m op)) as G2.
    { apply gets_mapped; [done|done|lia|done|]. intros i Hi.
      rewrite (proj2 (H2 _ _)), decide_True by (split; [done|lia]).
      by rewrite (proj2 (H1 _ _)), decide_False by (intros [E _]; cbn in E; congruence). }
    rewrite all_equal_gets, G1, G2. cbn [andb].
    by rewrite (take_ge (view m op)) by (rewrite length_view by done; lia).
  - intros j Hj. rewrite (proj2 (H2 _ _)), decide_False by (intros [E _]; cbn in E; congruence).
    rewrite (proj2 (H1 _ _)), decide_False; [done|]. cbn. intros [_ ?]. lia.
Qed.

End Casefolding.

Lemma alter_last {A : Type} (f : A -> A) (l : list A) (x : A) :
  alter f (length l) (l ++ [x]) = l ++ [f x].
Proof. rewrite <- (Nat.add_0_r (length l)). by rewrite alter_app_r. Qed.

(** An append within the capacity of a slice over the last array of the
    store. *)
Lemma append_last (m : store) (arr : list string) (a : slice) (vs : list string) :
  base a = length m -> (slen a + length vs <= scap a)%nat ->
  append (m ++ [arr]) a vs =
  ({| base := base a; off := off a; slen := slen a + length vs; scap := scap a |},
   m ++ [take (off a + slen a) arr ++ vs
         ++ drop (off a + slen a + length vs) arr]).
Proof.
  intros Hb Hcap. unfold append.
  destruct (Nat.leb_spec (slen a + length vs) (scap a)); [|lia].
  unfold write_at. by rewrite Hb, alter_last.
Qed.

Lemma tail_take_drop {A : Type} (n k : nat) (l : list A) :
  take (n - 1) (drop (k + 1) l) = tail (take n (drop k l)).
Proof.
  rewrite <- (drop_drop l 1 k).
  destruct (drop k l) as [|x l']; [by rewrite drop_nil, !take_nil|].
  destruct n as [|n]; [done|]. cbn. by rewrite Nat.sub_0_r.
Qed.

(** [absParts] for a path with a root: a new array that holds the drive,
    the root and the parts after the anchor. *)
Lemma abs_parts_rooted (m : store) (d r : string) (s : slice) :
  nonempty r = true -> valid m s -> (1 <= slen s)%nat ->
  abs_parts m d r s =
  Some ({| base := length m; off := 0; slen := slen s + 1; scap := slen s + 1 |},
        m ++ [d :: r :: tail (view m s)]).
Proof.
  intros Hr Hs Hlen. unfold abs_parts. rewrite Hr. unfold make0.
  rewrite append_last by (cbn; lia). cbn [base off slen scap length Nat.add].
  rewrite append_last by (cbn; lia). cbn [base off slen scap length Nat.add].
  assert (take 1 (take 0 (replicate (slen s + 1) "") ++ [d]
                   ++ drop 1 (replicate (slen s + 1) ""))
            ++ [r] ++ drop 2 (take 0 (replicate (slen s + 1) "") ++ [d]
                                ++ drop 1 (replicate (slen s + 1) ""))
          = d :: r :: replicate (slen s - 1) "") as ->.
  { by replace (slen s + 1)%nat with (S (S (slen s - 1))) by lia. }
  unfold slice_from. destruct (Nat.leb_spec 1 (slen s)); [|lia].
  set (rest := {| base := base s; off := off s + 1; slen := slen s - 1;
                  scap := scap s - 1 |}).
  assert (view (m ++ [d :: r :: replicate (slen s - 1) ""]) rest
          = tail (view m s)) as ->.
  { unfold view at 1, array_of. cbn [base off slen rest].
    rewrite lookup_app_l.
    - rewrite tail_take_drop. reflexivity.
    - by apply valid_base. }
  assert (length (tail (view m s)) = (slen s - 1)%nat) as Htl.
  { pose proof (length_view m s Hs) as Hl. destruct (view m s); cbn in *; lia. }
  rewrite append_last by (cbn [base slen scap]; rewrite ?Htl; (reflexivity || lia)).
  cbn [base off slen scap Nat.add take drop]. rewrite Htl.
  rewrite drop_ge by (rewrite length_replicate; lia). rewrite app_nil_r.
  do 3 f_equal. lia.
Qed.

(** [absParts], in both cases: a slice of the extended store that shows
    the segment sequence, and that is the given slice or lies in a new
    array. *)
Lemma abs_parts_spec (m : store) (d r : string) (s : slice) :
  valid m s -> (nonempty r = true -> (1 <= slen s)%nat) ->
  exists a ext,
    abs_parts m d r s = Some (a, m ++ ext) /\
    valid (m ++ ext) a /\
    view (m ++ ext) a =
      (if nonempty r then d :: r :: tail (view m s) else view m s) /\
    (a = s \/ base a = length m).
Proof.
  intros Hs Hlen. destruct (nonempty r) eqn:Hr.
  - specialize (Hlen eq_refl).
    eexists _, _. split; [by apply abs_parts_rooted|].
    pose proof (alloc_spec m (d :: r :: tail (view m s))) as (Hv & Hview & _ & _).
    unfold alloc in Hv, Hview. cbn [fst snd] in Hv, Hview.
    assert (length (d :: r :: tail (view m s)) = (slen s + 1)%nat) as Hl.
    { pose proof (length_view m s Hs). destruct (view m s); cbn in *; lia. }
    rewrite Hl in Hv, Hview. split; [done|]. split; [done|]. by right.
  - exists s, []. unfold abs_parts. rewrite Hr, app_nil_r.
    split; [done|]. split; [done|]. split; [done|]. by left.
Qed.

(** A parse with a root has its anchor part. *)
Lemma parseParts_anchor (fl : flavorer) (paths : list string) :
  nonempty (Spec.troot (parseParts paths fl)) = true ->
  (1 <= length (Spec.tparts (parseParts paths fl)))%nat.
Proof.
  induction paths as [|x paths IH] using rev_ind; [done|].
  pose proof (parse_snoc_components fl paths x) as (_ & Hroot & Hparts).
  cbv zeta in Hroot, Hparts. rewrite Hroot, Hparts.
  destruct (_ || _) eqn:E.
  - intros _. cbn. lia.
  - intros H. specialize (IH H). rewrite length_app. lia.
Qed.

End StoreFacts.

(** ** RelativeTo *)

Section RelativeToFacts.
Import Strings Flavor PurePath Mem RelativeSpec.
Variable unicodeLower : string -> string.

(** On Windows the root is kept when the other path is the bare drive,
    and also when it is a relative path whose one part reads like the
    drive. *)
Lemma RelativeTo_drive_only :
  let '(p, m) := newPurePathWithFlavorM [] windowsFlavor ["C:\Foo\Bar"] in
  (let '(res, m') := PurePath_RelativeTo unicodeLower m p ["c:"] in
   sum_map (read m') id res =
   inl {| parts := ["\"; "Foo"; "Bar"]; drive := ""; root := "\";
          flavor := windowsFlavor |}) /\
  (let '(res, m') := PurePath_RelativeTo unicodeLower m p ["./c:"] in
   sum_map (read m') id res =
   inl {| parts := ["\"; "Foo"; "Bar"]; drive := ""; root := "\";
          flavor := windowsFlavor |}).
Proof. vm_compute. split; reflexivity. Qed.

Lemma read_new (m : store) (fl : flavorer) (paths : list string) :
  read (snd (newPurePathWithFlavorM m fl paths)) (fst (newPurePathWithFlavorM m fl paths))
  = newPurePathWithFlavor fl paths.
Proof.
  unfold newPurePathWithFlavorM, newPurePathWithFlavor, read.
  destruct (parseParts paths fl) as [[d r] ps].
  pose proof (alloc_spec m ps) as (_ & Hview & _).
  destruct (alloc m ps) as [s m']. cbn [fst snd] in *.
  cbn [m_parts m_drive m_root m_flavor]. by rewrite Hview.
Qed.

(** C4, amended: for a well-formed path and at least one other string,
    [RelativeTo] fails with the not-relative error unless the other
    path's segment sequence (drive, root, parts after the anchor) is a
    case-folded prefix of this path's, or is empty while this path has no
    anchor; on success the result has no drive, its parts are the
    remaining suffix, and its root is cleared unless the other sequence
    has exactly one element. *)
Theorem RelativeTo_spec (m : store) (p : PurePathM) (others : list string) :
  well_formed m p -> others <> [] ->
  sum_map (read (snd (PurePath_RelativeTo unicodeLower m p others))) id
          (fst (PurePath_RelativeTo unicodeLower m p others)) =
  relative_to (Casefold unicodeLower (m_flavor p)) (read m p)
              (newPurePathWithFlavor (m_flavor p) others).
Proof.
  intros [Hvalid Hanchor] Hothers. unfold PurePath_RelativeTo.
  destruct others as [|o others']; [done|]. cbn [length Nat.eqb].
  set (others := o :: others') in *.
  (* absParts *)
  destruct (abs_parts_spec m (m_drive p) (m_root p) (m_parts p) Hvalid)
    as (a & ext & -> & Hva & Hviewa & Ha).
  { intros Hr. apply Hanchor. by apply nonempty_true. }
  set (m1 := m ++ ext) in *.
  (* toPath *)
  pose proof (read_new m1 (m_flavor p) others) as Hread.
  unfold newPurePathWithFlavorM in *.
  pose proof (parseParts_anchor (m_flavor p) others) as Hanchor'.
  unfold newPurePathWithFlavor, relative_to.
  destruct (parseParts others (m_flavor p)) as [[od or] ops].
  unfold Spec.troot, Spec.tparts in Hanchor'. cbn [fst snd] in Hanchor'.
  pose proof (alloc_spec m1 ops) as (Hvt & Hviewt & Hbaset & Hm2).
  destruct (alloc m1 ops) as [t m2]. cbn [fst snd] in *. subst m2.
  cbn [m_drive m_root m_parts m_flavor].
  (* toAbsParts *)
  destruct (abs_parts_spec (m1 ++ [ops]) od or t Hvt) as (b & ext' & -> & Hvb & Hviewb & Hb).
  { intros Hr. rewrite <- (length_view _ _ Hvt), Hviewt. by apply Hanchor'. }
  set (m3 := (m1 ++ [ops]) ++ ext') in *.
  assert (valid m3 a) as Hva3 by (by do 2 apply valid_app).
  assert (view m3 a = abs_of (read m p)) as HA.
  { unfold m3. rewrite !view_app by (done || by apply valid_app).
    rewrite Hviewa. reflexivity. }
  assert (view m3 b = abs_of {| parts := ops; drive := od; root := or;
                                flavor := m_flavor p |}) as HB.
  { rewrite Hviewb. unfold abs_of. cbn [root drive parts]. by rewrite Hviewt. }
  set (A := abs_of (read m p)) in *.
  set (B := abs_of {| parts := ops; drive := od; root := or;
                      flavor := m_flavor p |}) in *.
  assert (slen a = length A) as Hla by (by rewrite <- HA, length_view).
  assert (slen b = length B) as Hlb by (by rewrite <- HB, length_view).
  rewrite <- Hlb.
  assert ((1 <= slen a)%nat -> base a <> base b) as Hbase.
  { intros Hne. pose proof (valid_base m1 a Hva Hne) as Hlt.
    destruct Hb as [-> | ->]; [lia|]. rewrite length_app. cbn. lia. }
  destruct (Nat.eqb_spec (slen b) 0) as [Hn0|Hn0].
  - (* the other sequence is empty *)
    change (anchored (read m p)) with (nonempty (m_drive p) || nonempty (m_root p)).
    destruct (nonempty (m_drive p) || nonempty (m_root p)); [done|].
    cbn [negb]. unfold slice_from. rewrite Hn0. cbn [Nat.leb Nat.eqb negb sum_map fst snd].
    unfold read. cbn [m_parts m_drive m_root m_flavor]. do 2 f_equal.
    rewrite drop_0, <- HA. unfold view. cbn [base off slen].
    by rewrite Nat.add_0_r, Nat.sub_0_r.
  - (* the comparison *)
    pose proof (casefoldComp_spec unicodeLower (m_flavor p) m3 a b Hva3 Hvb Hbase) as [Hres Hcells];
      [lia|].
    destruct (casefoldComp unicodeLower (m_flavor p) m3 a b) as [related m'].
    cbn [fst snd] in Hres, Hcells. rewrite HA, HB in Hres. rewrite Hres.
    destruct (cf_prefix _ B A) eqn:Hpre; [|done]. cbn [negb].
    assert (slen b <= slen a)%nat as Hle.
    { unfold cf_prefix in Hpre. apply andb_true_iff in Hpre as [Hpre _].
      apply bool_decide_eq_true_1 in Hpre. lia. }
    unfold slice_from. destruct (Nat.leb_spec (slen b) (slen a)); [|lia].
    cbn [sum_map fst snd]. unfold read. cbn [m_parts m_drive m_root m_flavor].
    f_equal. f_equal; [|by destruct (Nat.eqb_spec (slen b) 1)].
    apply list_eq. intros i. rewrite view_lookup, lookup_drop. cbn [base off slen].
    rewrite <- HA, view_lookup.
    destruct (decide (i < slen a - slen b)%nat).
    + rewrite decide_True by lia. rewrite Hcells by lia. f_equal. lia.
    + by rewrite decide_False by lia.
Qed.

End RelativeToFacts.

Section RelativeToExamples.
Import Strings Flavor PurePath Mem RelativeSpec Fixtures.

(** C4, as stated, fails: ["/a/b"] relative to the POSIX root ["/"] is
    ["a/b"] with the root cleared, although the matched prefix is the
    anchor and nothing else (the package's test expects ["a/b"]). *)
Lemma relative_to_claim_fails :
  let '(p, m) := newPurePathWithFlavorM [] posixFlavor ["/a/b"] in
  let '(res, m') := PurePath_RelativeTo noLower m p ["/"] in
  ~ relative_to_claim (Casefold noLower posixFlavor) (read m p)
      (newPurePathWithFlavor posixFlavor ["/"]) (sum_map (read m') id res).
Proof.
  cbv beta iota zeta delta [newPurePathWithFlavorM parseParts fold_left alloc].
  vm_compute. intros [_ H].
  destruct (H _ eq_refl) as [_ Hroot]. discriminate Hroot.
Qed.

(** A Windows path with a drive and a root, relative to its bare drive:
    the parsed path is well formed, and the equation holds there. *)
Lemma RelativeTo_spec_witness :
  let m := snd (newPurePathWithFlavorM [] windowsFlavor ["C:\Foo\Bar"]) in
  let p := fst (newPurePathWithFlavorM [] windowsFlavor ["C:\Foo\Bar"]) in
  well_formed m p /\ ["c:"] <> [] /\
  sum_map (read (snd (PurePath_RelativeTo noLower m p ["c:"]))) id
          (fst (PurePath_RelativeTo noLower m p ["c:"])) =
  relative_to (Casefold noLower windowsFlavor) (read m p)
              (newPurePathWithFlavor windowsFlavor ["c:"]).
Proof.
  assert (well_formed
            (snd (newPurePathWithFlavorM [] windowsFlavor ["C:\Foo\Bar"]))
            (fst (newPurePathWithFlavorM [] windowsFlavor ["C:\Foo\Bar"]))) as Hwf.
  { split; [split|].
    - vm_compute. lia.
    - intros j Hj. vm_compute in Hj.
      destruct j as [|[|[|j]]]; [vm_compute; by eexists..|lia].
    - intros _. vm_compute. lia. }
  split; [exact Hwf|]. split; [discriminate|].
  apply (RelativeTo_spec noLower _ _ ["c:"] Hwf). discriminate.
Defined.

End RelativeToExamples.

(** ** The shape of parsed paths; joining *)

Section ShapeFacts.
Import Strings Flavor PurePath Spec Shape.

(** X1: whatever the inputs and the flavor, the parts of a parsed path are
    the anchor [drive+root] (exactly when there is a drive or a root)
    followed by plain segments: none is empty, none is a single dot, none
    holds the separator. *)
Theorem parseParts_normal (fl : flavorer) (paths : list string) :
  normal fl (parseParts paths fl).
Proof.
  induction paths as [|x paths IH] using rev_ind.
  - exists []. split; [constructor|reflexivity].
  - destruct IH as (toks & Htoks & Hparts).
    pose proof (parse_snoc_components fl paths x) as (Hd & Hr & Hp).
    cbv zeta in Hd, Hr, Hp. unfold normal. rewrite Hp, Hr, Hd.
    destruct (SplitRoot fl (substituted fl x)) as [[pd pr] rel].
    unfold tdrive, troot, trel in *. cbn [fst snd] in *.
    destruct (nonempty pd) eqn:Epd; cbn [orb].
    + rewrite Epd. cbn [orb]. exists (survivors fl rel).
      split; [apply survivors_plain|done].
    + destruct (nonempty pr) eqn:Epr.
      * rewrite Epr, orb_true_r. exists (survivors fl rel).
        split; [apply survivors_plain|done].
      * rewrite Hparts. exists (toks ++ survivors fl rel).
        split; [|by rewrite app_assoc].
        apply Forall_app. split; [done|apply survivors_plain].
Qed.

Lemma parse_one_skips (fl : flavorer) (st : string * string * list string) :
  parse_one fl st "" = st /\ parse_one fl st "." = st.
Proof. destruct st as [[d r] ps]. by destruct fl. Qed.

(** X2: an empty input and an input that is a single dot change nothing,
    wherever they stand among the inputs. *)
Theorem parseParts_skips (fl : flavorer) (before after : list string) :
  parseParts (before ++ "" :: after) fl = parseParts (before ++ after) fl /\
  parseParts (before ++ "." :: after) fl = parseParts (before ++ after) fl.
Proof.
  unfold parseParts. rewrite !fold_left_app. cbn [fold_left].
  by destruct (parse_one_skips fl (fold_left (parse_one fl) before ("", "", [])))
    as [-> ->].
Qed.

Lemma posix_value_new (inputs : list string) :
  posix_value (newPurePathWithFlavor posixFlavor inputs).
Proof.
  pose proof (parseParts_posix_normal inputs) as Hn. unfold newPurePathWithFlavor.
  by destruct (parseParts inputs posixFlavor) as [[d r] ps].
Qed.

Lemma posix_value_reparse (p : PurePath) :
  posix_value p -> parseParts [PurePath_String p] posixFlavor = triple p.
Proof.
  intros [Hfl Hn]. destruct p as [ps d r fl]. cbn in Hfl. subst fl.
  exact (posix_normal_reparse (d, r, ps) Hn).
Qed.

Lemma Join_parse (p : PurePath) (paths : list string) :
  posix_value p ->
  PurePath_Join p paths =
  (let '(d, r, ps) := fold_left (parse_one posixFlavor) paths (triple p) in
   {| parts := ps; drive := d; root := r; flavor := posixFlavor |}).
Proof.
  intros Hp. unfold PurePath_Join, newPurePathWithFlavor.
  rewrite (proj1 Hp).
  change (parseParts (?s :: paths) posixFlavor)
    with (fold_left (parse_one posixFlavor) paths (parseParts [s] posixFlavor)).
  by rewrite posix_value_reparse.
Qed.

Lemma triple_new (fl : flavorer) (inputs : list string) :
  triple (newPurePathWithFlavor fl inputs) = parseParts inputs fl.
Proof.
  unfold newPurePathWithFlavor. by destruct (parseParts inputs fl) as [[d r] ps].
Qed.

(** X3: on POSIX, joining further inputs to a parsed path is parsing all
    the inputs together. *)
Theorem Join_parses_together (inputs paths : list string) :
  PurePath_Join (newPurePathWithFlavor posixFlavor inputs) paths =
  newPurePathWithFlavor posixFlavor (inputs ++ paths).
Proof.
  rewrite Join_parse by apply posix_value_new. rewrite triple_new.
  unfold newPurePathWithFlavor at 1, parseParts. by rewrite fold_left_app.
Qed.

Lemma posix_value_eq (p q : PurePath) :
  posix_value p -> posix_value q -> triple p = triple q -> p = q.
Proof.
  intros [Hp _] [Hq _] Ht. destruct p, q. cbn in *. by simplify_eq.
Qed.

(** X4: on POSIX, [Equals] holds of two parsed paths exactly when they have
    the same drive, root and parts: the string of a parsed path determines
    it. *)
Theorem Equals_posix (a b : list string) :
  PurePath_Equals (newPurePathWithFlavor posixFlavor a)
                  (newPurePathWithFlavor posixFlavor b) = true <->
  newPurePathWithFlavor posixFlavor a = newPurePathWithFlavor posixFlavor b.
Proof.
  unfold PurePath_Equals. rewrite String.eqb_eq. split; [|by intros ->].
  intros H. apply posix_value_eq; [apply posix_value_new..|].
  rewrite <- !posix_value_reparse by apply posix_value_new. by rewrite H.
Qed.

Lemma plain_not_rooted (fl : flavorer) (seg : string) :
  plain_segment fl seg = true -> starts_with (sep_byte fl) seg = false.
Proof.
  intros H. apply plain_segment_inv in H as [_ H].
  destruct seg as [|a seg]; [done|]. cbn in *. by apply orb_false_iff in H as [? _].
Qed.

Lemma parse_one_segment (st : string * string * list string) (seg : string) :
  plain_segment posixFlavor seg = true ->
  parse_one posixFlavor st seg = (tdrive st, troot st, tparts st ++ [seg]).
Proof.
  intros Hseg. rewrite parse_one_step. destruct st as [[d r] ps].
  unfold parse_step. change (substituted posixFlavor seg) with seg.
  cbn [SplitRoot].
  rewrite posixFlavor_SplitRoot_relative by exact (plain_not_rooted posixFlavor seg Hseg).
  cbn [nonempty String.eqb negb].
  pose proof (survivors_Join posixFlavor [seg]) as Hs.
  change (Join [seg] (Separator posixFlavor)) with seg in Hs.
  rewrite Hs; [done|]. by constructor.
Qed.

Lemma Join_segment (p : PurePath) (seg : string) :
  posix_value p -> plain_segment posixFlavor seg = true ->
  PurePath_Join p [seg] =
  {| parts := parts p ++ [seg]; drive := drive p; root := root p;
     flavor := posixFlavor |}.
Proof.
  intros Hp Hseg. rewrite Join_parse by done. cbn [fold_left].
  by rewrite parse_one_segment.
Qed.

(** The parts of a POSIX value: the root, when there is one, and plain
    segments. *)
Lemma posix_value_parts (p : PurePath) :
  posix_value p ->
  drive p = "" /\
  exists toks, Forall (fun s => plain_segment posixFlavor s = true) toks /\
    parts p = (if nonempty (root p) then [root p] else []) ++ toks.
Proof.
  intros [_ (r & toks & _ & Htoks & Ht)]. unfold triple in Ht.
  injection Ht as Hd Hr Hps. subst r. split; [done|]. by exists toks.
Qed.

Lemma Name_snoc (p : PurePath) (seg : string) :
  posix_value p ->
  PurePath_Name {| parts := parts p ++ [seg]; drive := drive p; root := root p;
                   flavor := posixFlavor |} = seg /\
  PurePath_Parent {| parts := parts p ++ [seg]; drive := drive p; root := root p;
                     flavor := posixFlavor |} = p.
Proof.
  intros Hp. pose proof Hp as [Hfl _].
  destruct (posix_value_parts p Hp) as (Hd & toks & _ & Hps).
  unfold PurePath_Name, PurePath_Parent.
  cbn [parts drive root flavor]. rewrite length_app, last_snoc. cbn [length default].
  assert ((length (parts p) + 1 =? 0)%nat = false) as -> by (apply Nat.eqb_neq; lia).
  assert (((nonempty (drive p) || nonempty (root p))
           && (length (parts p) + 1 =? 1)%nat) = false) as E.
  { rewrite Hd, Hps. cbn [nonempty String.eqb negb orb].
    destruct (nonempty (root p)); [|done]. cbn [andb app length].
    apply Nat.eqb_neq. lia. }
  rewrite E. rewrite andb_comm in E. rewrite E. cbn [orb].
  split; [done|]. unfold newPurePathFromParts. rewrite removelast_last.
  destruct p. cbn in *. by subst.
Qed.

(** X5: on POSIX, joining one plain segment to a parsed path appends it to
    the parts and keeps the root; the segment is the name of the result
    and the path is its parent. *)
Theorem Join_segment_posix (inputs : list string) (seg : string) :
  plain_segment posixFlavor seg = true ->
  let p := newPurePathWithFlavor posixFlavor inputs in
  let q := PurePath_Join p [seg] in
  parts q = parts p ++ [seg] /\ drive q = drive p /\ root q = root p /\
  PurePath_Name q = seg /\ PurePath_Parent q = p.
Proof.
  intros Hseg p q. subst q.
  rewrite Join_segment by (done || apply posix_value_new).
  cbn [parts drive root]. repeat split; try done;
    by apply Name_snoc, posix_value_new.
Qed.

Lemma Join_segment_posix_witness :
  plain_segment posixFlavor "c.txt" = true /\
  let p := newPurePathWithFlavor posixFlavor ["/a"; "b"] in
  let q := PurePath_Join p ["c.txt"] in
  parts q = parts p ++ ["c.txt"] /\ drive q = drive p /\ root q = root p /\
  PurePath_Name q = "c.txt" /\ PurePath_Parent q = p.
Proof.
  split; [reflexivity|]. apply (Join_segment_posix ["/a"; "b"] "c.txt"). reflexivity.
Defined.

(** X6: on POSIX, a parsed path with a name is its parent joined with its
    name. *)
Theorem Parent_Join_Name (inputs : list string) :
  let p := newPurePathWithFlavor posixFlavor inputs in
  PurePath_Name p <> "" ->
  PurePath_Join (PurePath_Parent p) [PurePath_Name p] = p.
Proof.
  intros p. pose proof (posix_value_new inputs) as Hp. fold p in Hp.
  clearbody p. intros Hname. pose proof Hp as [Hfl Hn].
  destruct (posix_value_parts p Hp) as (Hd & toks & Htoks & Hps).
  destruct (decide (toks = [])) as [->|Hne].
  { exfalso. apply Hname. unfold PurePath_Name. rewrite Hps, Hd, app_nil_r.
    cbn [nonempty String.eqb negb orb]. by destruct (nonempty (root p)). }
  destruct (exists_last Hne) as (toks' & t & ->).
  apply Forall_app in Htoks as [Htoks' Ht]. apply Forall_inv in Ht.
  set (q := {| parts := (if nonempty (root p) then [root p] else []) ++ toks';
               drive := drive p; root := root p; flavor := posixFlavor |}).
  assert (posix_value q) as Hq.
  { split; [done|]. destruct Hn as (r & toks0 & Hr & _ & Ht0).
    unfold triple in Ht0. injection Ht0 as Hd0 Hr0 _. subst r.
    exists (root p), toks'. split; [done|]. split; [done|].
    unfold triple, q. cbn [parts drive root]. by rewrite Hd. }
  assert (p = {| parts := parts q ++ [t]; drive := drive q; root := root q;
                 flavor := posixFlavor |}) as Hpq.
  { unfold q. cbn [parts drive root]. rewrite <- app_assoc, <- Hps.
    destruct p. cbn in *. by subst. }
  destruct (Name_snoc q t Hq) as [HN HP]. rewrite <- Hpq in HN, HP.
  rewrite HN, HP. rewrite Join_segment by done. by rewrite <- Hpq.
Qed.

Lemma Parent_Join_Name_witness :
  let p := newPurePathWithFlavor posixFlavor ["/a/b"; "c.txt"] in
  PurePath_Name p <> "" /\
  PurePath_Join (PurePath_Parent p) [PurePath_Name p] = p.
Proof.
  split; [vm_compute; discriminate|].
  apply (Parent_Join_Name ["/a/b"; "c.txt"]). vm_compute. discriminate.
Defined.

End ShapeFacts.

(** ** Parents *)

Section ParentFacts.
Import Strings Flavor PurePath Spec Shape.

Lemma removelast_take {A : Type} (l : list A) (k : nat) :
  (1 <= k <= length l)%nat -> removelast (take k l) = take (k - 1) l.
Proof.
  revert k. induction l as [|x l IH]; intros k Hk; [cbn in Hk; lia|].
  destruct k as [|k]; [lia|]. cbn [take]. cbn [length] in Hk.
  destruct k as [|k]; [by destruct l|].
  replace (S (S k) - 1)%nat with (S k) by lia. cbn [take].
  destruct l as [|y l]; [cbn in Hk; lia|].
  change (removelast (x :: take (S k) (y :: l)))
    with (x :: removelast (take (S k) (y :: l))).
  rewrite IH by (cbn [length] in *; lia). by replace (S k - 1)%nat with k by lia.
Qed.

(** [k] steps to the parent, as long as there are that many parents, drop
    the last [k] parts. *)
Lemma iter_Parent (p : PurePath) (k : nat) :
  (k <= numParents p)%nat ->
  Nat.iter k PurePath_Parent p =
  newPurePathFromParts (flavor p) (drive p) (root p)
    (take (length (parts p) - k) (parts p)).
Proof.
  induction k as [|k IH]; intros Hk.
  - rewrite Nat.sub_0_r, firstn_all. by destruct p.
  - rewrite Nat.iter_succ, IH by lia. unfold PurePath_Parent, newPurePathFromParts.
    cbn [parts drive root flavor]. unfold numParents in Hk.
    rewrite length_take.
    assert ((length (parts p) - k) `min` length (parts p) = length (parts p) - k)%nat
      as -> by lia.
    destruct (nonempty (drive p) || nonempty (root p)) eqn:Ea.
    + assert ((length (parts p) - k =? 0)%nat = false) as ->
        by (apply Nat.eqb_neq; lia).
      assert ((length (parts p) - k =? 1)%nat = false) as ->
        by (apply Nat.eqb_neq; lia).
      cbn [andb]. rewrite removelast_take by lia.
      by replace (length (parts p) - k - 1)%nat with (length (parts p) - S k)%nat by lia.
    + assert ((length (parts p) - k =? 0)%nat = false) as ->
        by (apply Nat.eqb_neq; lia).
      rewrite andb_false_r. rewrite removelast_take by lia.
      by replace (length (parts p) - k - 1)%nat with (length (parts p) - S k)%nat by lia.
Qed.

Lemma rev_seq (a n : nat) :
  rev (seq a n) = map (fun k => (a + n - 1 - k)%nat) (seq 0 n).
Proof.
  induction n as [|n IH]; [done|].
  rewrite seq_S, rev_app_distr. cbn [rev app]. rewrite IH.
  cbn [seq map]. f_equal; [lia|].
  rewrite <- seq_shift, map_map. apply map_ext_in.
  intros k Hk. apply in_seq in Hk. lia.
Qed.

(** X7: [Parents] lists the parent, the parent of the parent, and so on:
    one entry for each part after the anchor. *)
Theorem Parents_iter_Parent (p : PurePath) :
  has_anchor_part p ->
  PurePath_Parents p =
  Some (map (fun k => Nat.iter (S k) PurePath_Parent p) (seq 0 (numParents p))).
Proof.
  intros Hwf. unfold PurePath_Parents, has_anchor_part in *. fold (numParents p).
  assert (nonempty (drive p) || nonempty (root p) = true ->
          (1 <= length (parts p))%nat) as Hlen.
  { intros H. specialize (Hwf H). destruct (parts p); [done|cbn; lia]. }
  assert ((nonempty (drive p) || nonempty (root p))
          && (length (parts p) =? 0)%nat = false) as ->.
  { destruct (_ || _); [|done]. apply Nat.eqb_neq. specialize (Hlen eq_refl). lia. }
  f_equal. rewrite rev_seq, map_map. apply map_ext_in.
  intros k Hk. apply in_seq in Hk. rewrite iter_Parent by lia.
  f_equal. unfold numParents in *.
  destruct (_ || _); [specialize (Hlen eq_refl)|]; f_equal; lia.
Qed.

Lemma Parents_iter_Parent_witness :
  let p := newPurePathWithFlavor windowsFlavor ["c:/a"; "b"] in
  has_anchor_part p /\
  PurePath_Parents p =
  Some (map (fun k => Nat.iter (S k) PurePath_Parent p) (seq 0 (numParents p))).
Proof.
  assert (has_anchor_part (newPurePathWithFlavor windowsFlavor ["c:/a"; "b"])) as H
    by (vm_compute; discriminate).
  split; [exact H|]. exact (Parents_iter_Parent _ H).
Defined.

(** X8: after as many steps to the parent as there are parts after the
    anchor, the path is the anchor alone or the empty path, and further
    steps stay there. *)
Theorem Parent_reaches_fixpoint (p : PurePath) (k : nat) :
  has_anchor_part p ->
  (numParents p <= k)%nat ->
  Nat.iter k PurePath_Parent p =
  newPurePathFromParts (flavor p) (drive p) (root p)
    (take (length (parts p) - numParents p) (parts p)).
Proof.
  intros Hwf Hk. unfold has_anchor_part in Hwf.
  replace k with ((k - numParents p) + numParents p)%nat by lia.
  generalize (k - numParents p)%nat. clear k Hk. intros j.
  induction j as [|j IH]; [by apply iter_Parent|].
  cbn [Nat.add]. rewrite Nat.iter_succ, IH.
  unfold PurePath_Parent, newPurePathFromParts, numParents.
  cbn [parts drive root flavor]. rewrite length_take.
  destruct (nonempty (drive p) || nonempty (root p)) eqn:Ea.
  - specialize (Hwf eq_refl). destruct (parts p) as [|x ps] eqn:Eps; [done|].
    cbn [length]. replace (S (length ps) - (S (length ps) - 1))%nat with 1%nat by lia.
    assert ((1 `min` S (length ps))%nat = 1%nat) as -> by lia. done.
  - rewrite Nat.sub_diag. cbn [take Nat.min Nat.eqb].
    apply orb_false_iff in Ea as [Hd Hr].
    apply nonempty_false in Hd, Hr. by rewrite Hd, Hr.
Qed.

Lemma Parent_reaches_fixpoint_witness :
  let p := newPurePathWithFlavor posixFlavor ["/a/b"] in
  has_anchor_part p /\ (numParents p <= 5)%nat /\
  Nat.iter 5 PurePath_Parent p =
  newPurePathFromParts (flavor p) (drive p) (root p)
    (take (length (parts p) - numParents p) (parts p)).
Proof.
  assert (has_anchor_part (newPurePathWithFlavor posixFlavor ["/a/b"])) as H
    by (vm_compute; discriminate).
  assert (numParents (newPurePathWithFlavor posixFlavor ["/a/b"]) <= 5)%nat as Hk
    by (vm_compute; lia).
  split; [exact H|]. split; [exact Hk|]. exact (Parent_reaches_fixpoint _ 5 H Hk).
Defined.

End ParentFacts.

(** ** Suffixes and stems *)

Section NameShapeFacts.
Import Strings PurePath Spec NameShape.

Lemma prefix_dot (a : ascii) (s : string) :
  String.prefix "." (String a s) = Ascii.eqb a ".".
Proof.
  cbn [String.prefix]. destruct (ascii_dec "." a) as [<-|Hne]; [by destruct s|].
  symmetry. apply Ascii.eqb_neq. congruence.
Qed.

Lemma LastIndex_dot_cons (a : ascii) (s : string) :
  LastIndex (String a s) "." =
  if 0 <=? LastIndex s "." then LastIndex s "." + 1
  else if Ascii.eqb a "." then 0 else -1.
Proof. cbn [LastIndex]. by rewrite prefix_dot. Qed.

Lemma from_cons (a : ascii) (s : string) (i : Z) :
  0 <= i -> from (String a s) (i + 1) = from s i.
Proof.
  intros Hi. unfold from. by replace (Z.to_nat (i + 1)) with (S (Z.to_nat i)) by lia.
Qed.

(** The last dot of a string and the last token of its split at dots. *)
Lemma LastIndex_dot_split (s : string) :
  -1 <= LastIndex s "." /\
  (0 <= LastIndex s "." ->
   (1 < length (split_byte "." s))%nat /\
   from s (LastIndex s ".") = String "." (default "" (last (split_byte "." s))) /\
   len s = LastIndex s "." + 1 + len (default "" (last (split_byte "." s)))) /\
  (LastIndex s "." < 0 -> split_byte "." s = [s]).
Proof.
  induction s as [|a s (IH0 & IH1 & IH2)]; [cbn; repeat split; (lia || done)|].
  rewrite LastIndex_dot_cons. cbn [split_byte].
  destruct (Z.leb_spec 0 (LastIndex s ".")) as [Hge|Hlt].
  - destruct (IH1 Hge) as (Hlen & Hfrom & Hl). split; [lia|]. split; [|lia].
    intros _. rewrite from_cons by done. rewrite Hfrom.
    destruct (split_byte "." s) as [|t [|t' ts]]; cbn [length] in Hlen; try lia.
    unfold len in *. cbn [String.length].
    destruct (Ascii.eqb a "."); cbn [length]; (split; [lia|]); (split; [done|]);
      rewrite ?last_cons_cons in *; lia.
  - rewrite (IH2 Hlt). destruct (Ascii.eqb_spec a ".") as [->|Hne].
    + split; [lia|]. split; [|lia]. intros _. cbn [length].
      split; [lia|]. split; [reflexivity|]. unfold len. cbn. lia.
    + split; [lia|]. split; [lia|]. done.
Qed.

Lemma length_str_take (n : nat) (s : string) :
  String.length (str_take n s) = (n `min` String.length s)%nat.
Proof.
  revert s. induction n as [|n IH]; intros [|a s]; cbn; try done.
  by rewrite IH.
Qed.

(** X9: the suffix of a path is empty, or a dot followed by at least one
    byte, none of which is a dot. *)
Theorem Suffix_form (p : PurePath) :
  suffix_form (PurePath_Suffix p) = true.
Proof.
  unfold PurePath_Suffix. generalize (PurePath_Name p). intros name.
  destruct ((0 <? LastIndex name ".") && (LastIndex name "." <? len name - 1)) eqn:E;
    [|done].
  apply andb_true_iff in E as [H0 H1]. apply Z.ltb_lt in H0, H1.
  destruct (LastIndex_dot_split name) as (_ & H & _).
  destruct H as (_ & -> & Hl); [lia|].
  assert (has_byte "." (default "" (last (split_byte "." name))) = false) as Hno.
  { pose proof (split_byte_no_sep "." name) as Hall.
    destruct (last (split_byte "." name)) as [t|] eqn:El; [|done].
    rewrite Forall_forall in Hall. apply Hall. by apply last_Some_elem_of. }
  cbn [suffix_form]. rewrite Hno. cbn [negb]. rewrite andb_true_r.
  destruct (default "" (last (split_byte "." name))); [unfold len in *; cbn [String.length] in *; lia|done].
Qed.

Lemma Stem_empty (p : PurePath) :
  PurePath_Stem p = "" <-> PurePath_Name p = "".
Proof.
  unfold PurePath_Stem. generalize (PurePath_Name p). intros name.
  destruct ((0 <? LastIndex name ".") && (LastIndex name "." <? len name - 1)) eqn:E;
    [|done].
  apply andb_true_iff in E as [H0 H1]. apply Z.ltb_lt in H0, H1.
  split; intros H.
  - apply (f_equal String.length) in H. unfold upto in H.
    rewrite length_str_take in H. unfold len in H1. cbn in H. lia.
  - subst name. unfold len in H1. cbn in H1. lia.
Qed.

(** X10: the stem of a path is empty only when its name is. *)
Theorem Stem_empty_iff (p : PurePath) :
  PurePath_Stem p = "" <-> PurePath_Name p = "".
Proof. apply Stem_empty. Qed.

Lemma LastIndex_dot_none (t : string) :
  has_byte "." t = false -> LastIndex t "." = -1.
Proof.
  induction t as [|a t IH]; [done|]. cbn [has_byte]. intros H.
  apply orb_false_iff in H as [Ha Ht]. rewrite LastIndex_dot_cons, (IH Ht), Ha.
  reflexivity.
Qed.

Lemma LastIndex_dot_append (s t : string) :
  has_byte "." t = false -> LastIndex (s +:+ String "." t) "." = len s.
Proof.
  intros Ht. induction s as [|a s IH].
  - rewrite append_nil_l, LastIndex_dot_cons, (LastIndex_dot_none t Ht). reflexivity.
  - rewrite append_cons, LastIndex_dot_cons, IH. unfold len. cbn [String.length].
    destruct (Z.leb_spec 0 (Z.of_nat (String.length s))); lia.
Qed.

Lemma str_drop_append (s t : string) : str_drop (String.length s) (s +:+ t) = t.
Proof. induction s as [|a s IH]; [by rewrite append_nil_l|]. by rewrite append_cons. Qed.

Lemma str_take_append (s t : string) : str_take (String.length s) (s +:+ t) = s.
Proof.
  induction s as [|a s IH]; [done|]. rewrite append_cons. cbn. by rewrite IH.
Qed.

(** Suffix and stem of a name made of a non-empty stem and a suffix with
    one dot. *)
Lemma Suffix_Stem_of (P : PurePath) (stem suffix : string) :
  PurePath_Name P = stem +:+ suffix -> stem <> "" ->
  suffix_form suffix = true -> suffix <> "" ->
  PurePath_Suffix P = suffix /\ PurePath_Stem P = stem.
Proof.
  intros HN Hstem Hform Hne. unfold PurePath_Suffix, PurePath_Stem. rewrite HN.
  destruct suffix as [|c t]; [done|]. cbn [suffix_form] in Hform.
  apply andb_true_iff in Hform as [Hform Hdot].
  apply andb_true_iff in Hform as [Hc Ht].
  apply Ascii.eqb_eq in Hc as ->. apply negb_true_iff in Hdot.
  apply nonempty_true in Ht.
  rewrite (LastIndex_dot_append stem t Hdot).
  assert (0 < len stem) as H0 by (destruct stem; [done|unfold len; cbn; lia]).
  assert (len stem < len (stem +:+ String "." t) - 1) as H1.
  { unfold len. rewrite length_append. cbn [String.length].
    destruct t; [done|cbn [String.length]; lia]. }
  destruct (Z.ltb_spec 0 (len stem)); [|lia].
  destruct (Z.ltb_spec (len stem) (len (stem +:+ String "." t) - 1)); [|lia].
  cbn [andb]. unfold from, upto, len. rewrite Nat2Z.id.
  by rewrite str_drop_append, str_take_append.
Qed.









End NameShapeFacts.

(** ** Renaming the last part *)

Section RenameFacts.
Import Strings Flavor PurePath Spec Mem RelativeSpec NameShape.

Lemma newM_store (m : store) (fl : flavorer) (paths : list string) :
  snd (newPurePathWithFlavorM m fl paths) = m ++ [Spec.tparts (parseParts paths fl)].
Proof.
  unfold newPurePathWithFlavorM. by destruct (parseParts paths fl) as [[d r] ps].
Qed.

(** The copy with a new last element: a new array, the store otherwise as
    it was. *)
Lemma copy_with_last_spec (m : store) (p : PurePathM) (name : string) :
  valid m (m_parts p) -> (1 <= slen (m_parts p))%nat ->
  copy_with_last m p name =
  (inl {| m_parts := {| base := length m; off := 0; slen := slen (m_parts p);
                        scap := slen (m_parts p) |};
          m_drive := m_drive p; m_root := m_root p; m_flavor := m_flavor p |},
   m ++ [removelast (view m (m_parts p)) ++ [name]]).
Proof.
  intros Hv Hlen. unfold copy_with_last, make_len, Mem.copy.
  cbn [base off slen scap]. rewrite Nat.min_id.
  rewrite view_app by done. rewrite alter_last.
  pose proof (length_view m (m_parts p) Hv) as Hl.
  assert (take 0 (replicate (slen (m_parts p)) "")
            ++ take (slen (m_parts p)) (view m (m_parts p))
            ++ drop (0 + slen (m_parts p)) (replicate (slen (m_parts p)) "")
          = view m (m_parts p)) as ->.
  { rewrite take_0, (take_ge (view m (m_parts p))) by lia.
    rewrite drop_ge by (rewrite length_replicate; lia). by rewrite app_nil_r. }
  destruct (Nat.eqb_spec (slen (m_parts p)) 0) as [|_]; [lia|].
  unfold slice_upto. cbn [scap base off slen].
  destruct (Nat.leb_spec (slen (m_parts p) - 1) (slen (m_parts p))); [|lia].
  rewrite append_last by (cbn [base slen scap length]; lia).
  cbn [base off slen scap length Nat.add].
  replace (slen (m_parts p) - 1 + 1)%nat with (slen (m_parts p)) by lia.
  rewrite drop_ge by lia. rewrite app_nil_r.
  do 4 f_equal. rewrite removelast_firstn_len. f_equal. lia.
Qed.

(** What is read after the copy: the new path, and every slice that was
    there before. *)
Lemma copy_with_last_read (m : store) (p : PurePathM) (name : string) :
  valid m (m_parts p) -> (1 <= slen (m_parts p))%nat ->
  exists q,
    copy_with_last m p name =
      (inl q, m ++ [removelast (view m (m_parts p)) ++ [name]]) /\
    read (m ++ [removelast (view m (m_parts p)) ++ [name]]) q =
      {| parts := removelast (parts (read m p)) ++ [name]; drive := m_drive p;
         root := m_root p; flavor := m_flavor p |}.
Proof.
  intros Hv Hlen. eexists. split; [by apply copy_with_last_spec|].
  unfold read. cbn [m_parts m_drive m_root m_flavor parts]. f_equal.
  pose proof (alloc_spec m (removelast (view m (m_parts p)) ++ [name]))
    as (_ & Hview & _).
  unfold alloc in Hview. cbn [fst snd] in Hview.
  pose proof (length_view m (m_parts p) Hv) as Hl.
  assert (length (removelast (view m (m_parts p)) ++ [name]) = slen (m_parts p)) as Harr.
  { rewrite length_app, removelast_firstn_len, length_take. cbn [length]. lia. }
  rewrite Harr in Hview. exact Hview.
Qed.

(** A path with a name has parts, and more than the anchor. *)
Lemma Name_nonempty (P : PurePath) :
  PurePath_Name P <> "" ->
  ((length (parts P) =? 0)%nat
   || ((nonempty (drive P) || nonempty (root P)) && (length (parts P) =? 1)%nat))
  = false.
Proof. unfold PurePath_Name. by destruct (_ || _). Qed.

Lemma Name_replaced (P : PurePath) (name : string) :
  PurePath_Name P <> "" ->
  PurePath_Name {| parts := removelast (parts P) ++ [name]; drive := drive P;
                   root := root P; flavor := flavor P |} = name.
Proof.
  intros HN. pose proof (Name_nonempty P HN) as Hc.
  unfold PurePath_Name. cbn [parts drive root].
  assert (length (removelast (parts P) ++ [name]) = length (parts P)) as ->.
  { rewrite length_app, removelast_firstn_len, length_take. cbn [length].
    apply orb_false_iff in Hc as [Hc _]. apply Nat.eqb_neq in Hc. lia. }
  by rewrite Hc, last_snoc.
Qed.

(** [copy_with_last] on a path with a name. *)
Lemma copy_with_last_named (m : store) (p : PurePathM) (name : string)
    (res : PurePathM + name_error) (m' : store) :
  valid m (m_parts p) ->
  PurePath_Name (read m p) <> "" ->
  copy_with_last m p name = (res, m') ->
  exists q,
    res = inl q /\
    read m' q =
      {| parts := removelast (parts (read m p)) ++ [name]; drive := m_drive p;
         root := m_root p; flavor := m_flavor p |} /\
    PurePath_Name (read m' q) = name /\
    read m' p = read m p /\
    exists ext, m' = m ++ ext.
Proof.
  intros Hv HN Hc.
  assert (1 <= slen (m_parts p))%nat as Hlen.
  { pose proof (Name_nonempty _ HN) as Hcond. apply orb_false_iff in Hcond as [Hcond _].
    apply Nat.eqb_neq in Hcond. cbn [read parts] in Hcond.
    rewrite length_view in Hcond by done. lia. }
  destruct (copy_with_last_read m p name Hv Hlen) as (q & Heq & Hread).
  rewrite Heq in Hc. injection Hc as <- <-. exists q.
  split; [done|]. split; [done|]. split; [|split; [|by eexists]].
  - rewrite Hread. exact (Name_replaced (read m p) name HN).
  - unfold read. by rewrite view_app.
Qed.

(** X12: when [WithName] succeeds, the new path has the receiver's drive,
    root and parts with the last part replaced by the name as given, its
    name is that name, and the store is only extended: the receiver and
    every other slice read as before. *)
Theorem WithName_spec (m : store) (p : PurePathM) (name : string)
    (q : PurePathM) (m' : store) :
  valid m (m_parts p) ->
  PurePath_WithName m p name = (inl q, m') ->
  read m' q =
    {| parts := removelast (parts (read m p)) ++ [name]; drive := m_drive p;
       root := m_root p; flavor := m_flavor p |} /\
  PurePath_Name (read m' q) = name /\
  read m' p = read m p /\
  exists ext, m' = m ++ ext.
Proof.
  intros Hv. unfold PurePath_WithName.
  destruct (String.eqb_spec (PurePath_Name (read m p)) "") as [|HN]; [done|].
  pose proof (newM_store m (m_flavor p) [name]) as Hm1.
  destruct (newPurePathWithFlavorM m (m_flavor p) [name]) as [parsed m1].
  cbn [snd] in Hm1. subst m1.
  destruct (_ || _); [done|]. intros Hc.
  apply copy_with_last_named in Hc as (q' & [= <-] & Hread & Hname & Hp & ext & ->).
  - assert (read (m ++ [Spec.tparts (parseParts [name] (m_flavor p))]) p = read m p)
      as Hm by (unfold read; by rewrite view_app).
    rewrite Hm in Hread, Hp.
    split; [done|]. split; [done|]. split; [done|].
    exists ([Spec.tparts (parseParts [name] (m_flavor p))] ++ ext). by rewrite app_assoc.
  - by apply valid_app.
  - unfold read. by rewrite view_app.
Qed.

Lemma WithName_spec_witness :
  let m := snd (newPurePathWithFlavorM [] posixFlavor ["/a/b.txt"]) in
  let p := fst (newPurePathWithFlavorM [] posixFlavor ["/a/b.txt"]) in
  let q := {| m_parts := {| base := 2; off := 0; slen := 3; scap := 3 |};
              m_drive := ""; m_root := "/"; m_flavor := posixFlavor |} in
  let m' := [["/"; "a"; "b.txt"]; ["c.md"]; ["/"; "a"; "c.md"]] in
  valid m (m_parts p) /\
  PurePath_WithName m p "c.md" = (inl q, m') /\
  read m' q =
    {| parts := removelast (parts (read m p)) ++ ["c.md"]; drive := m_drive p;
       root := m_root p; flavor := m_flavor p |} /\
  PurePath_Name (read m' q) = "c.md" /\
  read m' p = read m p /\
  exists ext, m' = m ++ ext.
Proof.
  assert (valid (snd (newPurePathWithFlavorM [] posixFlavor ["/a/b.txt"]))
                (m_parts (fst (newPurePathWithFlavorM [] posixFlavor ["/a/b.txt"]))))
    as Hv.
  { split.
    - vm_compute. lia.
    - intros j Hj. vm_compute in Hj.
      destruct j as [|[|[|j]]]; [vm_compute; by eexists..|lia]. }
  split; [exact Hv|]. split; [vm_compute; reflexivity|].
  apply (WithName_spec _ _ "c.md" _ _ Hv). vm_compute. reflexivity.
Defined.

(** The name [WithSuffix] builds is the stem followed by the new suffix. *)
Lemma WithSuffix_name (P : PurePath) (suffix : string) :
  (if String.eqb (PurePath_Suffix P) "" then PurePath_Name P +:+ suffix
   else upto (PurePath_Name P) (len (PurePath_Name P) - len (PurePath_Suffix P))
        +:+ suffix)
  = PurePath_Stem P +:+ suffix.
Proof.
  unfold PurePath_Suffix, PurePath_Stem. generalize (PurePath_Name P). intros name.
  destruct ((0 <? LastIndex name ".") && (LastIndex name "." <? len name - 1)) eqn:E;
    [|done].
  apply andb_true_iff in E as [H0 H1]. apply Z.ltb_lt in H0, H1.
  assert (len (from name (LastIndex name ".")) = len name - LastIndex name ".") as Hl.
  { unfold len, from in *. rewrite length_str_drop. lia. }
  destruct (String.eqb_spec (from name (LastIndex name ".")) "") as [He|_].
  - rewrite He in Hl. unfold len in *. cbn [String.length] in Hl. lia.
  - rewrite Hl. f_equal. f_equal. lia.
Qed.

(** X13: when [WithSuffix] succeeds, the new path has the receiver's drive,
    root and parts, with the last part replaced by the receiver's stem
    followed by the new suffix; the store is only extended, so the
    receiver reads as before. *)
Theorem WithSuffix_spec (m : store) (p : PurePathM) (suffix : string)
    (q : PurePathM) (m' : store) :
  valid m (m_parts p) ->
  PurePath_WithSuffix m p suffix = (inl q, m') ->
  read m' q =
    {| parts := removelast (parts (read m p)) ++ [PurePath_Stem (read m p) +:+ suffix];
       drive := m_drive p; root := m_root p; flavor := m_flavor p |} /\
  PurePath_Name (read m' q) = PurePath_Stem (read m p) +:+ suffix /\
  read m' p = read m p /\
  exists ext, m' = m ++ ext.
Proof.
  intros Hv. unfold PurePath_WithSuffix.
  destruct (_ || _); [done|].
  destruct (String.eqb_spec (PurePath_Name (read m p)) "") as [|HN]; [done|].
  rewrite WithSuffix_name. intros Hc.
  by apply copy_with_last_named in Hc as (q' & [= <-] & Hread & Hname & Hp & Hext).
Qed.

Lemma WithSuffix_spec_witness :
  let m := snd (newPurePathWithFlavorM [] posixFlavor ["/a/b.tar.gz"]) in
  let p := fst (newPurePathWithFlavorM [] posixFlavor ["/a/b.tar.gz"]) in
  let q := {| m_parts := {| base := 1; off := 0; slen := 3; scap := 3 |};
              m_drive := ""; m_root := "/"; m_flavor := posixFlavor |} in
  let m' := [["/"; "a"; "b.tar.gz"]; ["/"; "a"; "b.tar.xz"]] in
  valid m (m_parts p) /\
  PurePath_WithSuffix m p ".xz" = (inl q, m') /\
  read m' q =
    {| parts := removelast (parts (read m p)) ++ [PurePath_Stem (read m p) +:+ ".xz"];
       drive := m_drive p; root := m_root p; flavor := m_flavor p |} /\
  PurePath_Name (read m' q) = PurePath_Stem (read m p) +:+ ".xz" /\
  read m' p = read m p /\
  exists ext, m' = m ++ ext.
Proof.
  assert (valid (snd (newPurePathWithFlavorM [] posixFlavor ["/a/b.tar.gz"]))
                (m_parts (fst (newPurePathWithFlavorM [] posixFlavor ["/a/b.tar.gz"]))))
    as Hv.
  { split.
    - vm_compute. lia.
    - intros j Hj. vm_compute in Hj.
      destruct j as [|[|[|j]]]; [vm_compute; by eexists..|lia]. }
  split; [exact Hv|]. split; [vm_compute; reflexivity|].
  apply (WithSuffix_spec _ _ ".xz" _ _ Hv). vm_compute. reflexivity.
Defined.

(** X14: when [WithStem] succeeds, the name of the new path is the new stem
    followed by the receiver's suffix, and the receiver reads as
    before. *)
Theorem WithStem_name (m : store) (p : PurePathM) (stem : string)
    (q : PurePathM) (m' : store) :
  valid m (m_parts p) ->
  PurePath_WithStem m p stem = (inl q, m') ->
  PurePath_Name (read m' q) = stem +:+ PurePath_Suffix (read m p) /\
  read m' p = read m p.
Proof.
  intros Hv. unfold PurePath_WithStem, PurePath_WithName.
  destruct (String.eqb_spec (PurePath_Name (read m p)) "") as [|HN]; [done|].
  pose proof (newM_store m (m_flavor p) [stem +:+ PurePath_Suffix (read m p)]) as Hm1.
  destruct (newPurePathWithFlavorM m (m_flavor p) _) as [parsed m1].
  cbn [snd] in Hm1. subst m1.
  destruct (_ || _); [done|]. intros Hc.
  assert (read (m ++ [Spec.tparts (parseParts [stem +:+ PurePath_Suffix (read m p)]
                                     (m_flavor p))]) p = read m p)
    as Hm by (unfold read; by rewrite view_app).
  apply copy_with_last_named in Hc as (q' & [= <-] & _ & Hname & Hp & _).
  - split; [exact Hname|]. by rewrite Hp.
  - by apply valid_app.
  - by rewrite Hm.
Qed.

Lemma WithStem_name_witness :
  let m := snd (newPurePathWithFlavorM [] posixFlavor ["/a/b.txt"]) in
  let p := fst (newPurePathWithFlavorM [] posixFlavor ["/a/b.txt"]) in
  let q := {| m_parts := {| base := 2; off := 0; slen := 3; scap := 3 |};
              m_drive := ""; m_root := "/"; m_flavor := posixFlavor |} in
  let m' := [["/"; "a"; "b.txt"]; ["c.txt"]; ["/"; "a"; "c.txt"]] in
  valid m (m_parts p) /\
  PurePath_WithStem m p "c" = (inl q, m') /\
  PurePath_Name (read m' q) = "c" +:+ PurePath_Suffix (read m p) /\
  read m' p = read m p.
Proof.
  assert (valid (snd (newPurePathWithFlavorM [] posixFlavor ["/a/b.txt"]))
                (m_parts (fst (newPurePathWithFlavorM [] posixFlavor ["/a/b.txt"]))))
    as Hv.
  { split.
    - vm_compute. lia.
    - intros j Hj. vm_compute in Hj.
      destruct j as [|[|[|j]]]; [vm_compute; by eexists..|lia]. }
  split; [exact Hv|]. split; [vm_compute; reflexivity|].
  apply (WithStem_name _ _ "c" _ _ Hv). vm_compute. reflexivity.
Defined.

(** X15: after [WithSuffix] with a suffix of one dot and at least one more
    byte, the suffix of the new path is that suffix and its stem is the
    receiver's stem. *)
Theorem WithSuffix_Suffix (m : store) (p : PurePathM) (suffix : string)
    (q : PurePathM) (m' : store) :
  valid m (m_parts p) ->
  suffix_form suffix = true -> suffix <> "" ->
  PurePath_WithSuffix m p suffix = (inl q, m') ->
  PurePath_Suffix (read m' q) = suffix /\
  PurePath_Stem (read m' q) = PurePath_Stem (read m p).
Proof.
  intros Hv Hform Hne. unfold PurePath_WithSuffix.
  destruct (_ || _); [done|].
  destruct (String.eqb_spec (PurePath_Name (read m p)) "") as [|HN]; [done|].
  rewrite WithSuffix_name. intros Hc.
  apply copy_with_last_named in Hc as (q' & [= <-] & _ & Hname & _); [|done..].
  apply Suffix_Stem_of; [done| |done..].
  intros Hs. by apply Stem_empty in Hs.
Qed.

Lemma WithSuffix_Suffix_witness :
  let m := snd (newPurePathWithFlavorM [] posixFlavor ["/a/b.tar.gz"]) in
  let p := fst (newPurePathWithFlavorM [] posixFlavor ["/a/b.tar.gz"]) in
  let q := {| m_parts := {| base := 1; off := 0; slen := 3; scap := 3 |};
              m_drive := ""; m_root := "/"; m_flavor := posixFlavor |} in
  let m' := [["/"; "a"; "b.tar.gz"]; ["/"; "a"; "b.tar.xz"]] in
  valid m (m_parts p) /\ suffix_form ".xz" = true /\ ".xz" <> "" /\
  PurePath_WithSuffix m p ".xz" = (inl q, m') /\
  PurePath_Suffix (read m' q) = ".xz" /\
  PurePath_Stem (read m' q) = PurePath_Stem (read m p).
Proof.
  assert (valid (snd (newPurePathWithFlavorM [] posixFlavor ["/a/b.tar.gz"]))
                (m_parts (fst (newPurePathWithFlavorM [] posixFlavor ["/a/b.tar.gz"]))))
    as Hv.
  { split.
    - vm_compute. lia.
    - intros j Hj. vm_compute in Hj.
      destruct j as [|[|[|j]]]; [vm_compute; by eexists..|lia]. }
  split; [exact Hv|]. split; [reflexivity|]. split; [discriminate|].
  split; [vm_compute; reflexivity|].
  apply (WithSuffix_Suffix _ _ ".xz" _ _ Hv); [reflexivity|discriminate|].
  vm_compute. reflexivity.
Defined.

End RenameFacts.

(** ** The forms of drives and roots *)

Section SplitRootForms.
Import Strings Utf8 Flavor PurePath Spec.

Lemma rune_scan_range (runes : list rune) (r : rune) : -1 <= rune_scan runes r.
Proof.
  induction runes as [|x runes IH]; cbn; [lia|].
  destruct (x =? r); [lia|]. destruct (_ <? 0); lia.
Qed.

Lemma runesIndexOffset_range (runes : list rune) (r : rune) (offset : Z) :
  runesIndexOffset runes r offset = -1 \/ offset - 1 <= runesIndexOffset runes r offset.
Proof.
  unfold runesIndexOffset. destruct (_ >=? _); [by left|]. right.
  pose proof (rune_scan_range (drop (Z.to_nat offset) runes) r). lia.
Qed.

Lemma rune_scan_In (l : list rune) (r : rune) :
  rune_scan l r <> -1 -> List.In r l.
Proof.
  induction l as [|x l IH]; [done|]. cbn [rune_scan].
  destruct (Z.eqb_spec x r) as [->|_]; [by left|].
  destruct (Z.ltb_spec (rune_scan l r) 0) as [Hlt|Hge]; [done|].
  intros _. right. apply IH. lia.
Qed.

(** A drive letter is one ASCII byte. *)
Lemma has_rune_letter (r : rune) :
  has_rune windowsDriveLetters r = true ->
  encode_rune r = String (byte_of r) "" /\
  in_cutset (byte_of r) windowsDriveLetters = true.
Proof.
  unfold has_rune. intros H. apply negb_true_iff, Z.eqb_neq, rune_scan_In in H.
  assert (forallb (fun r => String.eqb (encode_rune r) (String (byte_of r) "")
                            && in_cutset (byte_of r) windowsDriveLetters)
                  (decode windowsDriveLetters) = true) as Hall
    by (vm_compute; reflexivity).
  rewrite forallb_forall in Hall. specialize (Hall r H).
  apply andb_true_iff in Hall as [He Hc]. by apply String.eqb_eq in He.
Qed.

Lemma rune_at_nth (runes : list rune) (i : nat) :
  rune_at runes i = nth i runes RuneError.
Proof.
  unfold rune_at. destruct (Z.gtb_spec (Z.of_nat (length runes)) (Z.of_nat i)); [done|].
  symmetry. apply nth_overflow. lia.
Qed.

Lemma rune_at_sep (runes : list rune) :
  rune_at runes 0 = sep_rune -> rune_at runes 1 = sep_rune ->
  exists rest, runes = sep_rune :: sep_rune :: rest.
Proof.
  rewrite !rune_at_nth. destruct runes as [|r0 [|r1 rest]]; cbn [nth]; try done.
  intros -> ->. by eexists.
Qed.

Lemma encode_take_sep (k : nat) (rest : list rune) :
  (1 <= k)%nat ->
  encode (take k (sep_rune :: sep_rune :: rest)) = "\" \/
  unc_prefix_form (encode (take k (sep_rune :: sep_rune :: rest))) = true.
Proof.
  intros Hk. destruct k as [|[|k]]; [lia|left; reflexivity|right].
  cbn [take encode]. change (encode_rune sep_rune) with "\".
  rewrite !append_cons, !append_nil_l. unfold unc_prefix_form, HasPrefix.
  cbn [String.prefix]. repeat (destruct (ascii_dec _ _); [|done]).
  by destruct (encode _).
Qed.

(** The drive the UNC branch returns: the prefix of an extended-length
    path and more, or a number of leading runes of a path that starts
    with two separators. *)
Lemma unc_branch_drive (prefix : string) (runes : list rune)
    (res : string * string * string) :
  unc_branch prefix runes (rune_at runes 0) (rune_at runes 1) (rune_at runes 2)
    = Some res ->
  (prefix <> "" /\ exists x, tdrive res = prefix +:+ x) \/
  (prefix = "" /\ (tdrive res = "\" \/ unc_prefix_form (tdrive res) = true)).
Proof.
  unfold unc_branch.
  destruct (_ && _ && _) eqn:Hc; [|done].
  apply andb_true_iff in Hc as [Hc _]. apply andb_true_iff in Hc as [H1 H0].
  apply Z.eqb_eq in H0, H1. destruct (rune_at_sep runes H0 H1) as [rest ->].
  set (runes := sep_rune :: sep_rune :: rest).
  pose proof (runesIndexOffset_range runes sep_rune 2) as Hi.
  set (index := runesIndexOffset runes sep_rune 2) in *.
  destruct (Z.eqb_spec index (-1)) as [|Hne]; [done|]. cbn [negb].
  pose proof (runesIndexOffset_range runes sep_rune (index + 1)) as Hi2.
  set (index2 := runesIndexOffset runes sep_rune (index + 1)) in *.
  destruct (negb (index2 =? index + 1)); [|done].
  destruct (String.eqb_spec prefix "") as [->|Hp]; cbn [negb]; intros [= <-].
  - right. split; [done|]. unfold tdrive, rslice. cbn [fst].
    rewrite Nat.sub_0_r. cbn [drop]. apply encode_take_sep.
    destruct (Z.eqb_spec index2 (-1)); [subst runes; cbn [length]; lia|lia].
  - left. split; [done|]. by eexists.
Qed.

(** Every drive [windowsFlavor.SplitRoot] returns is empty, a drive letter
    with a colon, a string that starts with two separators, or one
    separator alone. *)
Lemma windowsFlavor_SplitRoot_drive (path : string) :
  drive_form (tdrive (windowsFlavor_SplitRoot path)) = true \/
  tdrive (windowsFlavor_SplitRoot path) = "\".
Proof.
  unfold windowsFlavor_SplitRoot.
  destruct (HasPrefix path "\\?\") eqn:Hp.
  - left.
    assert (forall k x, (2 <= k)%nat -> drive_form (str_take k path +:+ x) = true) as Hpre.
    { intros k x Hk. unfold HasPrefix in Hp.
      destruct path as [|a path]; [done|]. cbn [String.prefix] in Hp.
      destruct (ascii_dec "\" a) as [<-|]; [|discriminate Hp].
      destruct path as [|b path]; [done|]. cbn [String.prefix] in Hp.
      destruct (ascii_dec "\" b) as [<-|]; [|discriminate Hp].
      destruct k as [|[|k]]; try lia. cbn [str_take]. rewrite !append_cons.
      unfold drive_form, unc_prefix_form, HasPrefix. cbn [String.prefix].
      repeat (destruct (ascii_dec _ _); [|done]).
      destruct (_ +:+ _); by rewrite orb_true_r. }
    assert (forall k, (2 <= k)%nat -> str_take k path <> "") as Hne.
    { intros k Hk. destruct path; [done|]. destruct k; [lia|done]. }
    destruct (HasPrefix (from path 4) "UNC\");
      (destruct (unc_branch _ _ _ _ _) as [res|] eqn:Hu;
       [apply unc_branch_drive in Hu as [(_ & x & ->)|[He _]];
        [apply Hpre; unfold Z.to_nat; cbn; lia
        |exfalso; revert He; apply Hne; unfold Z.to_nat; cbn; lia]
       |repeat (match goal with
                | |- context [if ?b then _ else _] => destruct b
                end);
        unfold tdrive; cbn [fst]; apply Hpre; unfold Z.to_nat; cbn; lia]).
  - destruct (unc_branch _ _ _ _ _) as [res|] eqn:Hu.
    { apply unc_branch_drive in Hu as [(Hne & _)|[_ [->| Hu]]]; [done|by right|].
      left. unfold drive_form. rewrite Hu. by rewrite !orb_true_r. }
    left.
    destruct ((rune_at (decode path) 1 =? colon_rune) &&
              has_rune windowsDriveLetters (rune_at (decode path) 0)) eqn:Hdrv.
    + apply andb_true_iff in Hdrv as [Hcolon Hletter].
      assert (exists r0 rs, decode path = r0 :: colon_rune :: rs /\
                            rune_at (decode path) 0 = r0) as (r0 & rs & Hdec & Hr0).
      { rewrite !rune_at_nth in *. destruct (decode path) as [|r0 [|r1 rs]];
          cbn [nth] in *; try discriminate Hcolon.
        apply Z.eqb_eq in Hcolon as ->. by eexists _, _. }
      rewrite Hr0 in Hletter. apply has_rune_letter in Hletter as [He Hin].
      assert (tdrive ("" +:+ encode (rslice (decode path) 0 2), "", "")
              = String (byte_of r0) ":") as Hd.
      { rewrite Hdec. unfold tdrive, rslice. cbn [fst].
        change (Z.to_nat 2 - Z.to_nat 0)%nat with 2%nat.
        change (Z.to_nat 0) with 0%nat. cbn [drop take encode].
        rewrite He. change (encode_rune colon_rune) with ":".
        by rewrite append_nil_l, !append_cons, !append_nil_l. }
      unfold tdrive in Hd |- *. cbn [fst] in Hd |- *.
      destruct (_ =? sep_rune); cbn [fst]; rewrite Hd;
        unfold drive_form, drive_letter_form; rewrite Hin; by rewrite orb_true_r.
    + destruct (_ =? sep_rune); reflexivity.
Qed.
End SplitRootForms.

Section RootFacts.
Import Strings Utf8 Flavor PurePath Spec RootShape.

Lemma leading_slashes (path : string) :
  exists k rest,
    path = slashes k +:+ rest /\ starts_with "/" rest = false /\
    TrimLeft path "/" = rest /\ len path - len rest = Z.of_nat k.
Proof.
  induction path as [|a path (k & rest & Hp & Hs & Ht & Hl)].
  - exists 0%nat, "". repeat split; done.
  - destruct (Ascii.eqb a "/") eqn:Ea.
    + apply Ascii.eqb_eq in Ea as ->. exists (S k), rest.
      split; [cbn [slashes]; by rewrite append_cons, <- Hp|]. split; [done|].
      split; [exact Ht|]. unfold len in *. cbn [String.length]. lia.
    + exists 0%nat, (String a path). split; [done|]. split; [exact Ea|].
      split; [|unfold len; lia]. cbn [TrimLeft in_cutset]. by rewrite Ea.
Qed.

(** X16: [posixFlavor.SplitRoot] never returns a drive; it strips all the
    leading separators, and the root is empty when there is none, two
    separators when there are exactly two, and one separator otherwise. *)
Theorem posixFlavor_SplitRoot_spec (path : string) :
  exists k rest,
    path = slashes k +:+ rest /\ starts_with "/" rest = false /\
    posixFlavor_SplitRoot path =
      ("", match k with 0%nat => "" | 2%nat => "//" | _ => "/" end, rest).
Proof.
  destruct (leading_slashes path) as (k & rest & Hp & Hs & Ht & Hl).
  exists k, rest. split; [done|]. split; [done|].
  unfold posixFlavor_SplitRoot. rewrite Ht, Hl.
  destruct k as [|k].
  - rewrite append_nil_l in Hp. subst rest.
    destruct path as [|a path]; [done|]. rewrite first_byte_eqb.
    cbn [starts_with] in Hs. by rewrite Hs, andb_false_r.
  - cbn [slashes] in Hp. rewrite append_cons in Hp. rewrite Hp at 1 2.
    rewrite first_byte_eqb. unfold len. cbn [String.length Ascii.eqb Bool.eqb].
    destruct (Z.ltb_spec 0 (Z.of_nat (S (String.length (slashes k +:+ rest))))); [|lia].
    cbn [andb]. destruct k as [|[|k]]; [done|done|].
    destruct (Z.eqb_spec (Z.of_nat (S (S (S k)))) 2); [lia|done].
Qed.

(** X17: the drive of a parsed path is empty on POSIX; on Windows it is
    empty, a letter with a colon, a string that begins with two
    separators, or one separator alone. *)
Theorem parseParts_drive_forms (fl : flavorer) (paths : list string) :
  match fl with
  | posixFlavor => tdrive (parseParts paths fl) = ""
  | windowsFlavor =>
      drive_form (tdrive (parseParts paths fl)) = true \/
      tdrive (parseParts paths fl) = "\"
  end.
Proof.
  induction paths as [|x paths IH] using rev_ind; [destruct fl; [done|by left]|].
  destruct (parse_snoc_components fl paths x) as (-> & _).
  destruct fl; cbn [SplitRoot].
  - destruct (posixFlavor_SplitRoot_root (substituted posixFlavor x)) as [-> _].
    exact IH.
  - destruct (nonempty _); [apply windowsFlavor_SplitRoot_drive|exact IH].
Qed.

End RootFacts.

(** ** Strings of paths and the parser as a whole *)

Section MoreShapeFacts.
Import Strings Utf8 Flavor PurePath Spec Shape ParseShape.

(** X18: [AsPosix] is the string itself on a POSIX path; on a Windows path
    it is the string with every backslash replaced by a slash, so that no
    backslash is left. *)
Theorem AsPosix_spec (p : PurePath) :
  match flavor p with
  | posixFlavor => PurePath_AsPosix p = PurePath_String p
  | windowsFlavor =>
      PurePath_AsPosix p = map_bytes (subst_byte "\" "/") (PurePath_String p) /\
      has_byte "\" (PurePath_AsPosix p) = false
  end.
Proof.
  unfold PurePath_AsPosix. destruct (flavor p); cbn [Separator].
  - change "/" with (String "/"%char "") at 1 2.
    rewrite (ReplaceAll_bytes "/" "/").
    generalize (PurePath_String p). intros s.
    induction s as [|c s IH]; [done|]. cbn [map_bytes]. rewrite IH. unfold subst_byte.
    by destruct (Ascii.eqb_spec c "/") as [->|].
  - change windowsSeparator with (String "\"%char "").
    change "/" with (String "/"%char "").
    rewrite (ReplaceAll_bytes "\" "/"). split; [done|].
    generalize (PurePath_String p). intros s.
    induction s as [|c s IH]; [done|]. cbn [map_bytes has_byte].
    rewrite IH, orb_false_r. unfold subst_byte.
    destruct (Ascii.eqb_spec c "\") as [->|Hne]; [done|]. by apply Ascii.eqb_neq.
Qed.

Lemma windowsFlavor_SplitRoot_root (path : string) :
  troot (windowsFlavor_SplitRoot path) = "" \/
  troot (windowsFlavor_SplitRoot path) = "\".
Proof.
  unfold windowsFlavor_SplitRoot.
  destruct (if HasPrefix path "\\?\" then _ else _) as [prefix path'].
  destruct (unc_branch _ _ _ _ _) as [res|] eqn:Hu.
  { right. by apply unc_branch_root in Hu. }
  destruct (_ && _).
  - destruct (Z.eqb_spec (rune_at (decode path') 2) sep_rune) as [->|]; [by right|by left].
  - destruct (Z.eqb_spec (rune_at (decode path') 0) sep_rune) as [->|]; [by right|by left].
Qed.

(** X19: the root of a parsed path is empty or one or two slashes on POSIX,
    and empty or one backslash on Windows. *)
Theorem parseParts_root_forms (fl : flavorer) (paths : list string) :
  match fl with
  | posixFlavor =>
      troot (parseParts paths fl) = "" \/ troot (parseParts paths fl) = "/" \/
      troot (parseParts paths fl) = "//"
  | windowsFlavor =>
      troot (parseParts paths fl) = "" \/ troot (parseParts paths fl) = "\"
  end.
Proof.
  induction paths as [|x paths IH] using rev_ind; [destruct fl; by left|].
  destruct (parse_snoc_components fl paths x) as (_ & -> & _).
  destruct fl; cbn [SplitRoot].
  - destruct (_ || _); [|exact IH].
    apply posixFlavor_SplitRoot_root.
  - destruct (_ || _); [|exact IH].
    apply windowsFlavor_SplitRoot_root.
Qed.

(** X20: a parsed POSIX path is absolute exactly when its string begins
    with a slash. *)
Theorem IsAbsolute_posix (inputs : list string) :
  let p := newPurePathWithFlavor posixFlavor inputs in
  PurePath_IsAbsolute p = starts_with "/" (PurePath_String p).
Proof.
  intros p. pose proof (posix_value_new inputs) as [Hfl (r & toks & Hr & Htoks & Ht)].
  fold p in Hfl, Ht. unfold triple in Ht. injection Ht as Hd Hroot Hps.
  unfold PurePath_IsAbsolute, PurePath_String. rewrite Hfl, Hd, Hroot, Hps.
  pose proof (Join_starts_plain posixFlavor toks Htoks) as Hstart.
  change (sep_byte posixFlavor) with "/"%char in Hstart.
  destruct Hr as [->|[->| ->]];
    cbn [HasDrive negb orb nonempty String.eqb Ascii.eqb Bool.eqb app tail];
    [|by rewrite ?append_nil_l, ?append_cons..].
  destruct toks as [|t ts]; [done|]. cbn [length Nat.eqb]. by rewrite Hstart.
Qed.

Lemma drive_posix (paths : list string) : tdrive (parseParts paths posixFlavor) = "".
Proof. by destruct (parseParts_posix_normal paths) as (r & toks & _ & _ & ->). Qed.

(** X21: on POSIX, parsing two lists of inputs one after the other is
    parsing each and combining the results: the second parse stands alone
    when it has a root, and otherwise its parts follow the parts of the
    first. *)
Theorem parseParts_app_posix (a b : list string) :
  parseParts (a ++ b) posixFlavor =
  combine (parseParts a posixFlavor) (parseParts b posixFlavor).
Proof.
  induction b as [|x b IH] using rev_ind.
  - rewrite app_nil_r. unfold combine. cbn.
    destruct (parseParts a posixFlavor) as [[d r] ps]. cbn. by rewrite app_nil_r.
  - rewrite app_assoc.
    destruct (parse_snoc_components posixFlavor (a ++ b) x) as (Hd & Hr & Hp).
    destruct (parse_snoc_components posixFlavor b x) as (Hd' & Hr' & Hp').
    pose proof (drive_posix (a ++ b)) as D1. pose proof (drive_posix b) as D2.
    pose proof (drive_posix ((a ++ b) ++ [x])) as D3.
    pose proof (drive_posix (b ++ [x])) as D4. pose proof (drive_posix a) as D5.
    destruct (posixFlavor_SplitRoot_root (substituted posixFlavor x)) as [Dc _].
    cbn [SplitRoot] in *. rewrite Dc in *. cbn [nonempty String.eqb negb orb] in *.
    rewrite IH in Hr, Hp. unfold combine in *.
    destruct (parseParts ((a ++ b) ++ [x]) posixFlavor) as [[d1 r1] p1].
    destruct (parseParts (b ++ [x]) posixFlavor) as [[d2 r2] p2].
    unfold tdrive, troot, tparts in *. cbn [fst snd] in *. subst.
    destruct (nonempty (posixFlavor_SplitRoot (substituted posixFlavor x)).1.2) eqn:Ec.
    + by rewrite Ec, D1, D2.
    + rewrite IH. destruct (nonempty (parseParts b posixFlavor).1.2) eqn:Eb.
      * done.
      * cbn [fst snd]. by rewrite ?Eb, ?app_assoc.
Qed.

End MoreShapeFacts.

(** ** Match on aligned parts *)

Section MatchAligned.
Import Strings Flavor PurePath Mem RelativeSpec MatchSpec.
Variable unicodeLower : string -> string.
Variable filepathMatch : string -> string -> option bool.

Lemma pairwise_snoc (pats parts : list string) (pat part : string) :
  length pats = length parts ->
  pairwise filepathMatch (pats ++ [pat]) (parts ++ [part]) =
  pairwise filepathMatch pats parts && matches filepathMatch pat part.
Proof.
  revert parts. induction pats as [|x pats IH]; intros [|y parts] Hl; try done.
  - cbn. by rewrite andb_true_r.
  - cbn [app pairwise]. rewrite IH by (cbn in Hl; lia). by rewrite andb_assoc.
Qed.

(** The loop of [Match], from the element before position [k] downwards. *)
Lemma match_loop_aligned (pats parts : list string) (k : nat) :
  (length pats <= k <= length parts)%nat ->
  match_loop filepathMatch (rev pats) parts (Z.of_nat k - 1) =
  pairwise filepathMatch pats (drop (k - length pats) (take k parts)).
Proof.
  revert k. induction pats as [|pat pats IH] using rev_ind; intros k Hk; [done|].
  rewrite length_app in Hk. cbn [length] in Hk.
  rewrite rev_app_distr. cbn [rev app match_loop].
  destruct k as [|k]; [lia|].
  replace (Z.of_nat (S k) - 1) with (Z.of_nat k) by lia. rewrite Nat2Z.id.
  replace (Z.of_nat k - 1) with (Z.of_nat k - 1) by lia.
  destruct (lookup_lt_is_Some_2 parts k ltac:(lia)) as [part Hpart].
  rewrite (take_S_r _ _ _ Hpart), (nth_lookup_Some _ _ _ _ Hpart).
  rewrite length_app. cbn [length].
  rewrite drop_app_le by (rewrite length_take; lia).
  rewrite pairwise_snoc by (rewrite length_drop, length_take; lia).
  replace (S k - (length pats + 1))%nat with (k - length pats)%nat by lia.
  rewrite <- IH by lia. unfold matches.
  destruct (filepathMatch pat part) as [[]|]; by rewrite ?andb_true_r, ?andb_false_r.
Qed.

Lemma view_CasefoldParts (fl : flavorer) (m : store) (s : slice) :
  valid m s ->
  fst (CasefoldParts unicodeLower fl m s) = s /\
  view (snd (CasefoldParts unicodeLower fl m s)) s
  = Casefold unicodeLower fl <$> view m s.
Proof.
  intros Hv. split; [by destruct fl|]. apply list_eq. intros i.
  rewrite list_lookup_fmap, !view_lookup. case_decide; [|done].
  rewrite (proj2 (cell_CasefoldParts unicodeLower fl m s _ _)).
  by rewrite decide_True by (split; [done|lia]).
Qed.

(** X22: on a receiver whose parts lie in the store, [Match] answers what
    the pairwise comparison of the pattern's parts with the last parts of
    the case-folded path answers, after the tests of the pattern's drive
    and root. *)
Theorem Match_aligned (m : store) (p : PurePathM) (pattern : string) :
  valid m (m_parts p) ->
  fst (PurePath_Match unicodeLower filepathMatch m p pattern) =
  match_aligned (Casefold unicodeLower (m_flavor p)) filepathMatch (read m p) pattern.
Proof.
  intros Hv. unfold PurePath_Match, match_aligned. cbn [read flavor drive root parts].
  destruct (parseParts _ _) as [[patDrive patRoot] patParts].
  destruct (length patParts =? 0)%nat eqn:E0; [done|]. cbn [negb andb].
  destruct (nonempty patDrive && _) eqn:Ed.
  { apply andb_true_iff in Ed as [-> Ed]. apply negb_true_iff in Ed. by rewrite Ed. }
  assert (negb (nonempty patDrive)
          || String.eqb patDrive (Casefold unicodeLower (m_flavor p) (m_drive p)) = true)
    as ->.
  { destruct (nonempty patDrive); [|done]. cbn in *. by apply negb_false_iff in Ed. }
  destruct (nonempty patRoot && _) eqn:Er.
  { apply andb_true_iff in Er as [-> Er]. apply negb_true_iff in Er. by rewrite Er. }
  assert (negb (nonempty patRoot)
          || String.eqb patRoot (Casefold unicodeLower (m_flavor p) (m_root p)) = true)
    as ->.
  { destruct (nonempty patRoot); [|done]. cbn in *. by apply negb_false_iff in Er. }
  cbn [andb].
  destruct (view_CasefoldParts (m_flavor p) m (m_parts p) Hv) as [Hs Hview].
  destruct (CasefoldParts unicodeLower (m_flavor p) m (m_parts p)) as [s m'].
  cbn [fst snd] in Hs, Hview. subst s. rewrite Hview, length_fmap, length_view by done.
  assert (length (Casefold unicodeLower (m_flavor p) <$> view m (m_parts p))
          = slen (m_parts p)) as Hlen by (by rewrite length_fmap, length_view).
  destruct (nonempty patDrive || nonempty patRoot); cbn [andb negb].
  - destruct (Nat.eqb_spec (length patParts) (slen (m_parts p))) as [Heq|Hne]; [|done].
    cbn [negb fst andb]. rewrite <- Hlen at 1.
    rewrite match_loop_aligned by (destruct patParts; cbn in *; lia).
    rewrite Hlen, firstn_all2 by lia. done.
  - destruct (Nat.ltb_spec (slen (m_parts p)) (length patParts)) as [Hlt|Hge].
    + cbn [fst]. by destruct (Nat.leb_spec (length patParts) (slen (m_parts p))); [lia|].
    + destruct (Nat.leb_spec (length patParts) (slen (m_parts p))); [|lia].
      cbn [fst andb]. rewrite <- Hlen at 1.
      rewrite match_loop_aligned by lia. rewrite Hlen, firstn_all2 by lia. done.
Qed.

(** X23: on a POSIX path, [Match] writes nothing: the store is as it was,
    whatever the pattern and the answer. *)
Theorem Match_posix_store (m : store) (parts : slice) (drive root pattern : string) :
  snd (PurePath_Match unicodeLower filepathMatch m
         {| m_parts := parts; m_drive := drive; m_root := root;
            m_flavor := posixFlavor |} pattern) = m.
Proof. by apply posix_Match_store. Qed.

End MatchAligned.

Lemma Match_aligned_witness :
  let m := snd (Mem.newPurePathWithFlavorM [] Flavor.windowsFlavor ["C:\Src\Main.GO"]) in
  let p := fst (Mem.newPurePathWithFlavorM [] Flavor.windowsFlavor ["C:\Src\Main.GO"]) in
  RelativeSpec.valid m (Mem.m_parts p) /\
  fst (Mem.PurePath_Match Fixtures.noLower Fixtures.literalMatch m p "src/main.go") =
  MatchSpec.match_aligned (Flavor.Casefold Fixtures.noLower (Mem.m_flavor p))
    Fixtures.literalMatch (Mem.read m p) "src/main.go".
Proof.
  assert (RelativeSpec.valid
            (snd (Mem.newPurePathWithFlavorM [] Flavor.windowsFlavor ["C:\Src\Main.GO"]))
            (Mem.m_parts
               (fst (Mem.newPurePathWithFlavorM [] Flavor.windowsFlavor ["C:\Src\Main.GO"]))))
    as Hv.
  { split.
    - vm_compute. lia.
    - intros j Hj. vm_compute in Hj.
      destruct j as [|[|[|j]]]; [vm_compute; by eexists..|lia]. }
  split; [exact Hv|].
  exact (Match_aligned Fixtures.noLower Fixtures.literalMatch _ _ "src/main.go" Hv).
Defined.

(** ** RelativeTo and Join *)

Section RelativeToReads.
Import Strings Flavor PurePath Spec Mem RelativeSpec Shape.
Variable unicodeLower : string -> string.

(** What is read from the result of [RelativeTo] on a well-formed path. *)
Lemma RelativeTo_reads (m : store) (p : PurePathM) (others : list string) :
  well_formed m p -> others <> [] ->
  sum_map (read (snd (PurePath_RelativeTo unicodeLower m p others))) id
          (fst (PurePath_RelativeTo unicodeLower m p others)) =
  relative_to (Casefold unicodeLower (m_flavor p)) (read m p)
              (newPurePathWithFlavor (m_flavor p) others).
Proof.
  intros [Hvalid Hanchor] Hothers. unfold PurePath_RelativeTo.
  destruct others as [|o others']; [done|]. cbn [length Nat.eqb].
  set (others := o :: others') in *.
  (* absParts *)
  destruct (abs_parts_spec m (m_drive p) (m_root p) (m_parts p) Hvalid)
    as (a & ext & -> & Hva & Hviewa & Ha).
  { intros Hr. apply Hanchor. by apply nonempty_true. }
  set (m1 := m ++ ext) in *.
  (* toPath *)
  pose proof (read_new m1 (m_flavor p) others) as Hread.
  unfold newPurePathWithFlavorM in *.
  pose proof (parseParts_anchor (m_flavor p) others) as Hanchor'.
  unfold newPurePathWithFlavor, relative_to.
  destruct (parseParts others (m_flavor p)) as [[od or] ops].
  unfold Spec.troot, Spec.tparts in Hanchor'. cbn [fst snd] in Hanchor'.
  pose proof (alloc_spec m1 ops) as (Hvt & Hviewt & Hbaset & Hm2).
  destruct (alloc m1 ops) as [t m2]. cbn [fst snd] in *. subst m2.
  cbn [m_drive m_root m_parts m_flavor].
  (* toAbsParts *)
  destruct (abs_parts_spec (m1 ++ [ops]) od or t Hvt) as (b & ext' & -> & Hvb & Hviewb & Hb).
  { intros Hr. rewrite <- (length_view _ _ Hvt), Hviewt. by apply Hanchor'. }
  set (m3 := (m1 ++ [ops]) ++ ext') in *.
  assert (valid m3 a) as Hva3 by (by do 2 apply valid_app).
  assert (view m3 a = abs_of (read m p)) as HA.
  { unfold m3. rewrite !view_app by (done || by apply valid_app).
    rewrite Hviewa. reflexivity. }
  assert (view m3 b = abs_of {| parts := ops; drive := od; root := or;
                                flavor := m_flavor p |}) as HB.
  { rewrite Hviewb. unfold abs_of. cbn [root drive parts]. by rewrite Hviewt. }
  set (A := abs_of (read m p)) in *.
  set (B := abs_of {| parts := ops; drive := od; root := or;
                      flavor := m_flavor p |}) in *.
  assert (slen a = length A) as Hla by (by rewrite <- HA, length_view).
  assert (slen b = length B) as Hlb by (by rewrite <- HB, length_view).
  rewrite <- Hlb.
  assert ((1 <= slen a)%nat -> base a <> base b) as Hbase.
  { intros Hne. pose proof (valid_base m1 a Hva Hne) as Hlt.
    destruct Hb as [-> | ->]; [lia|]. rewrite length_app. cbn. lia. }
  destruct (Nat.eqb_spec (slen b) 0) as [Hn0|Hn0].
  - (* the other sequence is empty *)
    change (anchored (read m p)) with (nonempty (m_drive p) || nonempty (m_root p)).
    destruct (nonempty (m_drive p) || nonempty (m_root p)); [done|].
    cbn [negb]. unfold slice_from. rewrite Hn0. cbn [Nat.leb Nat.eqb negb sum_map fst snd].
    unfold read. cbn [m_parts m_drive m_root m_flavor]. do 2 f_equal.
    rewrite drop_0, <- HA. unfold view. cbn [base off slen].
    by rewrite Nat.add_0_r, Nat.sub_0_r.
  - (* the comparison *)
    pose proof (casefoldComp_spec unicodeLower (m_flavor p) m3 a b Hva3 Hvb Hbase) as [Hres Hcells];
      [lia|].
    destruct (casefoldComp unicodeLower (m_flavor p) m3 a b) as [related m'].
    cbn [fst snd] in Hres, Hcells. rewrite HA, HB in Hres. rewrite Hres.
    destruct (cf_prefix _ B A) eqn:Hpre; [|done]. cbn [negb].
    assert (slen b <= slen a)%nat as Hle.
    { unfold cf_prefix in Hpre. apply andb_true_iff in Hpre as [Hpre _].
      apply bool_decide_eq_true_1 in Hpre. lia. }
    unfold slice_from. destruct (Nat.leb_spec (slen b) (slen a)); [|lia].
    cbn [sum_map fst snd]. unfold read. cbn [m_parts m_drive m_root m_flavor].
    f_equal. f_equal; [|by destruct (Nat.eqb_spec (slen b) 1)].
    apply list_eq. intros i. rewrite view_lookup, lookup_drop. cbn [base off slen].
    rewrite <- HA, view_lookup.
    destruct (decide (i < slen a - slen b)%nat).
    + rewrite decide_True by lia. rewrite Hcells by lia. f_equal. lia.
    + by rewrite decide_False by lia.
Qed.

Lemma casefoldComp_posix_store (m : store) (tp op : slice) :
  snd (casefoldComp unicodeLower posixFlavor m tp op) = m.
Proof.
  unfold casefoldComp. destruct (_ <? _)%nat; [done|].
  by destruct (slice_upto tp (slen op)).
Qed.

(** X24: on a well-formed POSIX path, [RelativeTo] only extends the store:
    the receiver and every other slice read as before. *)
Theorem RelativeTo_posix_store (m : store) (p : PurePathM) (others : list string) :
  well_formed m p -> m_flavor p = posixFlavor ->
  exists ext, snd (PurePath_RelativeTo unicodeLower m p others) = m ++ ext.
Proof.
  intros [Hvalid Hanchor] Hfl. unfold PurePath_RelativeTo. rewrite Hfl.
  destruct (length others =? 0)%nat; [by exists []; rewrite app_nil_r|].
  destruct (abs_parts_spec m (m_drive p) (m_root p) (m_parts p) Hvalid)
    as (a & ext & -> & Hva & Hviewa & Ha).
  { intros Hr. apply Hanchor. by apply nonempty_true. }
  pose proof (parseParts_anchor posixFlavor others) as Hanchor'.
  unfold newPurePathWithFlavorM.
  destruct (parseParts others posixFlavor) as [[od or] ops].
  unfold Spec.troot, Spec.tparts in Hanchor'. cbn [fst snd] in Hanchor'.
  pose proof (alloc_spec (m ++ ext) ops) as (Hvt & Hviewt & Hbaset & Hm2).
  destruct (alloc (m ++ ext) ops) as [t m2]. cbn [fst snd] in *. subst m2.
  cbn [m_drive m_root m_parts m_flavor].
  destruct (abs_parts_spec ((m ++ ext) ++ [ops]) od or t Hvt)
    as (b & ext' & -> & Hvb & Hviewb & Hb).
  { intros Hr. rewrite <- (length_view _ _ Hvt), Hviewt. by apply Hanchor'. }
  exists (ext ++ [ops] ++ ext').
  assert (((m ++ ext) ++ [ops]) ++ ext' = m ++ ext ++ [ops] ++ ext') as Hm
    by (by rewrite <- !app_assoc).
  destruct (slen b =? 0)%nat.
  - destruct (negb (negb _)); [exact Hm|]. by destruct (slice_from a (slen b)).
  - pose proof (casefoldComp_posix_store (((m ++ ext) ++ [ops]) ++ ext') a b) as Hs.
    destruct (casefoldComp _ _ _ a b) as [related m']. cbn [snd] in Hs. subst m'.
    destruct (negb related); [exact Hm|]. by destruct (slice_from a (slen b)).
Qed.

Lemma well_formed_new (m : store) (fl : flavorer) (paths : list string) :
  well_formed (snd (newPurePathWithFlavorM m fl paths))
              (fst (newPurePathWithFlavorM m fl paths)).
Proof.
  unfold newPurePathWithFlavorM.
  pose proof (parseParts_anchor fl paths) as Hanchor.
  destruct (parseParts paths fl) as [[d r] ps].
  unfold troot, tparts in Hanchor. cbn [fst snd] in Hanchor.
  pose proof (alloc_spec m ps) as (Hv & _).
  unfold alloc in *. cbn [fst snd m_parts m_root slen] in *.
  split; [exact Hv|]. intros Hr. apply Hanchor. by apply nonempty_true.
Qed.

(** The segment sequence of a POSIX value. *)
Lemma abs_of_posix (P : PurePath) :
  posix_value P ->
  drive P = "" /\
  exists toks, Forall (fun s => plain_segment posixFlavor s = true) toks /\
    parts P = (if nonempty (root P) then [root P] else []) ++ toks /\
    abs_of P = (if nonempty (root P) then [""; root P] else []) ++ toks.
Proof.
  intros HP. destruct (posix_value_parts P HP) as (Hd & toks & Htoks & Hps).
  split; [done|]. exists toks. split; [done|]. split; [done|].
  unfold abs_of. rewrite Hps, Hd. by destruct (nonempty (root P)).
Qed.

(** Parsing the string of a relative path made of plain segments appends
    the segments. *)
Lemma parse_one_relative (st : string * string * list string) (toks : list string) :
  Forall (fun s => plain_segment posixFlavor s = true) toks ->
  parse_one posixFlavor st
    (PurePath_String {| parts := toks; drive := ""; root := ""; flavor := posixFlavor |})
  = (tdrive st, troot st, tparts st ++ toks).
Proof.
  intros Htoks. rewrite parse_one_step. destruct st as [[d r] ps].
  unfold parse_step, PurePath_String.
  cbn [parts drive root flavor nonempty String.eqb negb orb substituted AltSeparator
       SplitRoot].
  unfold tdrive, troot, tparts. cbn [fst snd].
  destruct toks as [|t ts].
  { cbn [length Nat.eqb]. change (posixFlavor_SplitRoot ".") with ("", "", ".").
    cbn [nonempty String.eqb negb]. by change (survivors posixFlavor ".") with (@nil string). }
  cbn [length Nat.eqb].
  pose proof (Join_starts_plain posixFlavor (t :: ts) Htoks) as Hstart.
  pose proof (survivors_Join posixFlavor (t :: ts) Htoks) as Hsurv.
  change (sep_byte posixFlavor) with "/"%char in Hstart.
  rewrite posixFlavor_SplitRoot_relative by done.
  cbn [nonempty String.eqb negb]. by rewrite Hsurv.
Qed.

Lemma fmap_Casefold_posix (l : list string) :
  Casefold unicodeLower posixFlavor <$> l = l.
Proof. induction l as [|x l IH]; [done|]. cbn. by rewrite IH. Qed.

(** On POSIX values, the result of the relation joined to the other path
    is the path. *)
Lemma relative_to_Join (P O Q : PurePath) :
  posix_value P -> posix_value O ->
  relative_to (Casefold unicodeLower posixFlavor) P O = inl Q ->
  PurePath_Join O [PurePath_String Q] = P.
Proof.
  intros HP HO. pose proof HP as [HflP _].
  destruct (abs_of_posix P HP) as (HdP & toksP & HtP & HpsP & HaP).
  destruct (abs_of_posix O HO) as (HdO & toksO & HtO & HpsO & HaO).
  unfold relative_to.
  assert (exists rest,
            Forall (fun s => plain_segment posixFlavor s = true) rest /\
            ((if (length (abs_of O) =? 0)%nat then negb (anchored P)
              else cf_prefix (Casefold unicodeLower posixFlavor) (abs_of O) (abs_of P))
             = true ->
             drop (length (abs_of O)) (abs_of P) = rest /\
             (if (length (abs_of O) =? 1)%nat then root P else "") = "" /\
             parts P = parts O ++ rest /\ root P = root O)) as (rest & Hrest & Hrel).
  { rewrite HaP, HaO. unfold cf_prefix. rewrite !fmap_Casefold_posix.
    destruct (nonempty (root O)) eqn:ErO.
    - (* the other path has a root *)
      exists (drop (length toksO) toksP). split; [by apply Forall_drop|].
      cbn [app length Nat.eqb]. intros Hc. apply andb_true_iff in Hc as [Hlen Hpre].
      apply bool_decide_eq_true_1 in Hlen, Hpre.
      destruct (nonempty (root P)) eqn:ErP.
      + cbn [app length take drop] in *. injection Hpre as HrO Htake.
        split; [done|]. split; [done|]. rewrite HpsP, HpsO, HrO. cbn [app].
        split; [|done]. f_equal. rewrite <- Htake at 1. by rewrite take_drop.
      + cbn [app] in *. destruct toksP as [|t toksP]; [cbn in Hlen; lia|].
        cbn [take] in Hpre. injection Hpre as Ht _.
        apply Forall_inv in HtP. by subst t.
    - (* the other path has no root *)
      cbn [app]. destruct toksO as [|t toksO].
      + exists toksP. split; [done|]. cbn [length Nat.eqb].
        unfold anchored. rewrite HdP. cbn [nonempty String.eqb negb orb].
        intros HrP. apply negb_true_iff in HrP. rewrite HrP in *. cbn [app drop].
        rewrite HpsP, HpsO. cbn [app]. apply nonempty_false in HrP, ErO.
        by rewrite HrP, ErO.
      + exists (drop (length (t :: toksO)) toksP). split; [by apply Forall_drop|].
        cbn [length Nat.eqb]. intros Hc. apply andb_true_iff in Hc as [Hlen Hpre].
        apply bool_decide_eq_true_1 in Hlen, Hpre.
        destruct (nonempty (root P)) eqn:ErP.
        * cbn [app length take] in Hpre. injection Hpre as Ht _.
          apply Forall_inv in HtO. by subst t.
        * cbn [app] in *. apply nonempty_false in ErP, ErO.
          split; [done|]. split; [by destruct (length toksO =? 0)%nat|].
          rewrite HpsP, HpsO, ErP, ErO. cbn [app length].
          split; [|done]. rewrite <- (take_drop (S (length toksO)) toksP) at 1.
          by rewrite Hpre. }
  destruct (if (length (abs_of O) =? 0)%nat then _ else _) eqn:Hc; [|done].
  destruct (Hrel eq_refl) as (Hdrop & Hroot & Hparts & HrPO).
  intros [= <-]. rewrite Hdrop, Hroot, HflP.
  rewrite Join_parse by done. cbn [fold_left].
  rewrite parse_one_relative by done. unfold triple, tdrive, troot, tparts. cbn [fst snd].
  rewrite <- Hparts, <- HrPO, HdO, <- HdP. destruct P. cbn in *. by subst.
Qed.

(** X25: on POSIX, a parsed path is the other path joined with the result
    of [RelativeTo]. *)
Theorem RelativeTo_Join_posix (m : store) (inputs others : list string)
    (q : PurePathM) (m' : store) :
  others <> [] ->
  PurePath_RelativeTo unicodeLower
    (snd (newPurePathWithFlavorM m posixFlavor inputs))
    (fst (newPurePathWithFlavorM m posixFlavor inputs)) others = (inl q, m') ->
  PurePath_Join (newPurePathWithFlavor posixFlavor others)
                [PurePath_String (read m' q)]
  = newPurePathWithFlavor posixFlavor inputs.
Proof.
  intros Hothers Hr.
  pose proof (RelativeTo_reads _ _ others (well_formed_new m posixFlavor inputs) Hothers)
    as Hreads.
  rewrite Hr in Hreads. cbn [fst snd sum_map] in Hreads.
  rewrite read_new in Hreads.
  assert (m_flavor (fst (newPurePathWithFlavorM m posixFlavor inputs)) = posixFlavor)
    as Hfl.
  { unfold newPurePathWithFlavorM. by destruct (parseParts _ _) as [[? ?] ?]. }
  rewrite Hfl in Hreads. symmetry in Hreads.
  by apply relative_to_Join in Hreads; [|apply posix_value_new..].
Qed.

End RelativeToReads.

Lemma RelativeTo_posix_store_witness :
  let m := snd (Mem.newPurePathWithFlavorM [] Flavor.posixFlavor ["/a/b/c"]) in
  let p := fst (Mem.newPurePathWithFlavorM [] Flavor.posixFlavor ["/a/b/c"]) in
  RelativeSpec.well_formed m p /\ Mem.m_flavor p = Flavor.posixFlavor /\
  exists ext, snd (Mem.PurePath_RelativeTo Fixtures.noLower m p ["/a"]) = m ++ ext.
Proof.
  pose proof (well_formed_new [] Flavor.posixFlavor ["/a/b/c"]) as Hwf.
  split; [exact Hwf|]. split; [reflexivity|].
  exact (RelativeTo_posix_store Fixtures.noLower _ _ ["/a"] Hwf eq_refl).
Defined.

Lemma RelativeTo_Join_posix_witness :
  let q := {| Mem.m_parts := {| Mem.base := 1; Mem.off := 3; Mem.slen := 2; Mem.scap := 2 |};
              Mem.m_drive := ""; Mem.m_root := ""; Mem.m_flavor := Flavor.posixFlavor |} in
  let m' := [["/"; "a"; "b"; "c"]; [""; "/"; "a"; "b"; "c"]; ["/"; "a"];
             [""; "/"; "a"]] in
  ["/a"] <> [] /\
  Mem.PurePath_RelativeTo Fixtures.noLower
    (snd (Mem.newPurePathWithFlavorM [] Flavor.posixFlavor ["/a/b/c"]))
    (fst (Mem.newPurePathWithFlavorM [] Flavor.posixFlavor ["/a/b/c"])) ["/a"]
  = (inl q, m') /\
  PurePath.PurePath_Join (PurePath.newPurePathWithFlavor Flavor.posixFlavor ["/a"])
    [PurePath.PurePath_String (Mem.read m' q)]
  = PurePath.newPurePathWithFlavor Flavor.posixFlavor ["/a/b/c"].
Proof.
  split; [discriminate|]. split; [vm_compute; reflexivity|].
  apply (RelativeTo_Join_posix Fixtures.noLower [] ["/a/b/c"] ["/a"]); [discriminate|].
  vm_compute. reflexivity.
Defined.

(** ** Listing, the latest entry and the resolver *)

Section PathFacts.
Import Strings Flavor PurePath Spec Path ResolverSpec ResolverSteps Shape Fixtures.

(** X26: [Lstat] returns file information only when the filesystem has
    lstat and says that lstat was what it called; the information of a
    fallback to stat is never passed on. *)
Theorem Lstat_genuine (p : Path) (info : FileInfo) :
  Path_Lstat p = inl info ->
  exists lstat,
    LstatIfPossible (fs p) = Some lstat /\
    lstat (Path_String p) = (inl info, true).
Proof.
  unfold Path_Lstat. destruct (LstatIfPossible (fs p)) as [lstat|]; [|done].
  intros H. exists lstat. split; [done|].
  destruct (lstat (Path_String p)) as [[fi|e] []]; by simplify_eq.
Qed.

Lemma Lstat_genuine_witness :
  Path_Lstat (posix_path no_readlink ["/a"]) = inl {| ModeSymlink := false; ModTime := 0 |} /\
  exists lstat,
    LstatIfPossible (fs (posix_path no_readlink ["/a"])) = Some lstat /\
    lstat (Path_String (posix_path no_readlink ["/a"]))
    = (inl {| ModeSymlink := false; ModTime := 0 |}, true).
Proof.
  split; [reflexivity|]. apply (Lstat_genuine (posix_path no_readlink ["/a"])).
  reflexivity.
Defined.

Lemma Join_child (p : Path) (c : string) :
  posix_value (pure p) -> plain_segment posixFlavor c = true ->
  Path_Name (Path_Join p [c]) = c /\ Path_Parent (Path_Join p [c]) = p.
Proof.
  intros Hp Hc. unfold Path_Name, Path_Parent, Path_Join, copyPathWithPurePath.
  cbn [pure fs]. rewrite Join_segment by done.
  destruct (Name_snoc (pure p) c Hp) as [HN HP]. rewrite HN, HP. by destruct p.
Qed.

Lemma Join_children (p : Path) (children : list string) :
  posix_value (pure p) ->
  Forall (fun c => plain_segment posixFlavor c = true) children ->
  map Path_Name (map (fun child => Path_Join p [child]) children) = children /\
  Forall (fun file => Path_Parent file = p)
         (map (fun child => Path_Join p [child]) children).
Proof.
  intros Hp Hplain. induction Hplain as [|c cs Hc _ [IH1 IH2]]; [done|].
  destruct (Join_child p c Hp Hc) as [HN HP]. cbn [map].
  split; [by rewrite HN, IH1|]. by constructor.
Qed.

(** X27: on POSIX, when the listing of a parsed path holds plain segments
    only, [ReadDir] returns one path for each entry, in the order of the
    listing; the name of each is its entry and the parent of each is the
    path itself. *)
Theorem ReadDir_children (f : Fs) (inputs children : list string) :
  let p := posix_path f inputs in
  Readdirnames f (Path_String p) = inl children ->
  Forall (fun c => plain_segment posixFlavor c = true) children ->
  exists files,
    Path_ReadDir p = inl files /\
    map Path_Name files = children /\
    Forall (fun file => Path_Parent file = p) files.
Proof.
  intros p Hls Hplain. unfold Path_ReadDir.
  change (fs p) with f. rewrite Hls.
  eexists. split; [reflexivity|].
  apply Join_children; [apply posix_value_new|done].
Qed.

Lemma ReadDir_children_witness :
  let p := posix_path two_files ["/d"] in
  Readdirnames two_files (Path_String p) = inl ["a"; "b"] /\
  Forall (fun c => plain_segment posixFlavor c = true) ["a"; "b"] /\
  exists files,
    Path_ReadDir p = inl files /\
    map Path_Name files = ["a"; "b"] /\
    Forall (fun file => Path_Parent file = p) files.
Proof.
  assert (Forall (fun c => plain_segment posixFlavor c = true) ["a"; "b"]) as H
    by (by repeat constructor).
  split; [reflexivity|]. split; [exact H|].
  apply (ReadDir_children two_files ["/d"] ["a"; "b"]); [reflexivity|exact H].
Defined.

Lemma latest_loop_member (p : Path) (files : list Path) (g r : Path) (idx : list nat) :
  latest_loop p files g idx = inl r ->
  r = g \/ exists file, file ∈ files /\ r = Path_Join p [Path_Name file].
Proof.
  revert g. induction idx as [|i idx IH]; intros g; cbn [latest_loop].
  { intros [= <-]. by left. }
  destruct (files !! i) as [file|] eqn:Ei; [|intros [= <-]; by left].
  destruct (Path_Mtime g) as [gm [e|]]; [done|].
  destruct (Path_Mtime file) as [tm err].
  assert (forall r', (if After tm gm then Path_Join p [Path_Name file] else g) = r' ->
                     r' = g \/ exists file, file ∈ files /\ r' = Path_Join p [Path_Name file])
    as Hstep.
  { intros r' <-. destruct (After tm gm); [|by left]. right. exists file.
    split; [by eapply list_elem_of_lookup_2|done]. }
  destruct err as [e|].
  - destruct (negb (IsNotExist e)); [done|]. intros H. apply IH in H as [->|H]; [|by right].
    by apply Hstep.
  - intros H. apply IH in H as [->|H]; [|by right]. by apply Hstep.
Qed.

(** X28: what [GetLatest] returns without an error is the path joined with
    the name of one of the entries [ReadDir] lists. *)
Theorem GetLatest_member (p r : Path) :
  Path_GetLatest p = inl r ->
  exists files file,
    Path_ReadDir p = inl files /\ file ∈ files /\
    r = Path_Join p [Path_Name file].
Proof.
  unfold Path_GetLatest. destruct (Path_ReadDir p) as [files|e]; [|done].
  destruct files as [|file0 files]; [done|]. intros H.
  exists (file0 :: files). apply latest_loop_member in H as [->|(file & Hin & ->)].
  - exists file0. split; [done|]. split; [apply list_elem_of_here|done].
  - by exists file.
Qed.

Lemma GetLatest_member_witness :
  let p := posix_path two_files ["/d"] in
  Path_GetLatest p = inl (posix_path two_files ["/d/a"]) /\
  exists files file,
    Path_ReadDir p = inl files /\ file ∈ files /\
    posix_path two_files ["/d/a"] = Path_Join p [Path_Name file].
Proof.
  split; [vm_compute; reflexivity|].
  apply (GetLatest_member (posix_path two_files ["/d"])). vm_compute. reflexivity.
Defined.

Lemma resolve_follows (fuel : nat) (p : Path) (i : nat) (resolved : Path) :
  (i < length (parts (pure p)))%nat ->
  (forall j, (j < i)%nat -> plain_prefix p j) ->
  resolveIfSymlink (prefix_path p i) = (resolved, true, None) ->
  Path_ResolveAll (S fuel) p = Path_ResolveAll fuel (follow p i resolved).
Proof.
  intros Hi Hplain Hlink. unfold Path_ResolveAll. cbn [resolveAllHelper].
  rewrite (seq_split_at _ i Hi), resolve_loop_plain.
  - cbn [resolve_loop]. fold (prefix_path p i). rewrite Hlink. unfold follow.
    by destruct (PurePath_IsAbsolute (pure resolved)).
  - apply Forall_forall. intros j Hj. apply Hplain.
    apply elem_of_seq in Hj. lia.
Qed.

(** X29: when the first prefix that is not a regular entry is a link that
    can be read, [ResolveAll] goes on with the path in which the link is
    replaced by its target, spending one level of the recursion. *)
Theorem ResolveAll_follows (fuel : nat) (p : Path) (i : nat) (resolved : Path) :
  (i < length (parts (pure p)))%nat ->
  (forall j, (j < i)%nat -> plain_prefix p j) ->
  resolveIfSymlink (prefix_path p i) = (resolved, true, None) ->
  Path_ResolveAll (S fuel) p = Path_ResolveAll fuel (follow p i resolved).
Proof. apply resolve_follows. Qed.

Lemma ResolveAll_follows_witness :
  let p := posix_path broken_link ["a"; "c"] in
  let resolved := posix_path broken_link ["b"] in
  (0 < length (parts (pure p)))%nat /\
  (forall j, (j < 0)%nat -> plain_prefix p j) /\
  resolveIfSymlink (prefix_path p 0) = (resolved, true, None) /\
  Path_ResolveAll 3 p = Path_ResolveAll 2 (follow p 0 resolved).
Proof.
  assert (forall j, (j < 0)%nat -> plain_prefix (posix_path broken_link ["a"; "c"]) j)
    as Hplain by (intros j Hj; lia).
  split; [vm_compute; lia|]. split; [exact Hplain|]. split; [reflexivity|].
  apply (ResolveAll_follows 2 (posix_path broken_link ["a"; "c"]) 0
           (posix_path broken_link ["b"])); [vm_compute; lia|exact Hplain|reflexivity].
Defined.

(** X30: [ResolveAll] has no bound on the links it follows: when replacing
    the first link of a path by its target gives the path again, no
    number of nested calls is enough for it to return. *)
Theorem ResolveAll_cycle (p : Path) (i : nat) (resolved : Path) (fuel : nat) :
  (i < length (parts (pure p)))%nat ->
  (forall j, (j < i)%nat -> plain_prefix p j) ->
  resolveIfSymlink (prefix_path p i) = (resolved, true, None) ->
  follow p i resolved = p ->
  Path_ResolveAll fuel p = None.
Proof.
  intros Hi Hplain Hlink Hsame. induction fuel as [|fuel IH]; [done|].
  by rewrite (resolve_follows fuel p i resolved), Hsame.
Qed.

Lemma ResolveAll_cycle_witness :
  let p := posix_path self_link ["a"] in
  let resolved := posix_path self_link ["a"] in
  (0 < length (parts (pure p)))%nat /\
  (forall j, (j < 0)%nat -> plain_prefix p j) /\
  resolveIfSymlink (prefix_path p 0) = (resolved, true, None) /\
  follow p 0 resolved = p /\
  Path_ResolveAll 1000 p = None.
Proof.
  assert (forall j, (j < 0)%nat -> plain_prefix (posix_path self_link ["a"]) j)
    as Hplain by (intros j Hj; lia).
  split; [vm_compute; lia|]. split; [exact Hplain|]. split; [reflexivity|].
  split; [reflexivity|].
  apply (ResolveAll_cycle (posix_path self_link ["a"]) 0 (posix_path self_link ["a"]) 1000);
    [vm_compute; lia|exact Hplain|reflexivity|reflexivity].
Defined.

End PathFacts.
